(** * Routing tree of go-api: insertion, lookup and middleware collection

    A shallow embedding of the route tree of the repository:
    - [find], [Find] and [collectMiddlewares] of [internal/routes/route.go];
    - [addRoute], [Route], [Group], [Use], [getPathSegment] and
      [getRouteTypeFromSegment] of the [routes] package of the engine, with
      the segment recognisers of [engine/internal/routes/regex.go].

    Go strings are [string]s, Go maps are [gmap]s, the [*Route] that the
    matcher mutates is threaded as an explicit state, and a pointer to a node
    of the tree is the list of child selections that leads to it. *)

From Stdlib Require Import String Ascii List Arith Lia.
From stdpp Require Import base option list gmap strings.

Local Open Scope string_scope.
Local Open Scope list_scope.
Local Open Scope nat_scope.

(** ** Handlers, middleware and errors *)

(** A [types.HandlerFunc] is a Go function value: either [nil] or a function,
    which is identified here by a name. *)
Inductive HandlerFunc : Type :=
| NilFunc
| Func (name : string).

(** A [types.MiddlewareFunc], identified by a name. *)
Inductive MiddlewareFunc : Type :=
| Mw (name : string).

(** The three error values of [errors.go]. *)
Inductive RouteErr : Type :=
| ErrRouteNotFound
| ErrRouteAlreadyExists
| ErrRouteMalformedPath.

Record RouteError : Type := NewRouteError {
  ErrMethod : string;
  ErrPath : string;
  Err : RouteErr
}.

#[global] Instance HandlerFunc_eq_dec : EqDecision HandlerFunc.
Proof. solve_decision. Defined.
#[global] Instance MiddlewareFunc_eq_dec : EqDecision MiddlewareFunc.
Proof. solve_decision. Defined.
#[global] Instance RouteErr_eq_dec : EqDecision RouteErr.
Proof. solve_decision. Defined.

(** ** The tree *)

Inductive RouteType : Type :=
| RouteTypeNone
| RouteTypeStatic
| RouteTypeParam
| RouteTypeWildcard.

#[global] Instance RouteType_eq_dec : EqDecision RouteType.
Proof. solve_decision. Defined.

(** [RouteNode].  The [parent] field of the source is not stored: the parent
    of a node is the node whose child link holds it, and the functions that
    follow parent links ([collectMiddlewares]) receive the ancestors of the
    node, root first. *)
#[local] Unset Elimination Schemes.
Inductive RouteNode : Type := mkRouteNode {
  path : string;
  routeType : RouteType;
  paramName : string;
  handlers : gmap string HandlerFunc;
  middlewares : list MiddlewareFunc;
  static : list RouteNode;
  param : option RouteNode;
  wildcard : option RouteNode
}.
#[local] Set Elimination Schemes.

Definition NewRouteNode (p : string) (t : RouteType) (name : string) : RouteNode :=
  {| path := p; routeType := t; paramName := name;
     handlers := ∅; middlewares := []; static := []; param := None;
     wildcard := None |}.

(** Field assignments. *)
Definition setHandlers (n : RouteNode) (h : gmap string HandlerFunc) : RouteNode :=
  {| path := path n; routeType := routeType n; paramName := paramName n;
     handlers := h; middlewares := middlewares n; static := static n;
     param := param n; wildcard := wildcard n |}.

Definition setMiddlewares (n : RouteNode) (m : list MiddlewareFunc) : RouteNode :=
  {| path := path n; routeType := routeType n; paramName := paramName n;
     handlers := handlers n; middlewares := m; static := static n;
     param := param n; wildcard := wildcard n |}.

Definition setStatic (n : RouteNode) (s : list RouteNode) : RouteNode :=
  {| path := path n; routeType := routeType n; paramName := paramName n;
     handlers := handlers n; middlewares := middlewares n; static := s;
     param := param n; wildcard := wildcard n |}.

Definition setParam (n : RouteNode) (p : option RouteNode) : RouteNode :=
  {| path := path n; routeType := routeType n; paramName := paramName n;
     handlers := handlers n; middlewares := middlewares n; static := static n;
     param := p; wildcard := wildcard n |}.

Definition setWildcard (n : RouteNode) (w : option RouteNode) : RouteNode :=
  {| path := path n; routeType := routeType n; paramName := paramName n;
     handlers := handlers n; middlewares := middlewares n; static := static n;
     param := param n; wildcard := w |}.

(** The match result. *)
Record Route : Type := mkRoute {
  Method : string;
  Path : string;
  Handler : HandlerFunc;
  Middlewares : list MiddlewareFunc;
  PathParams : gmap string string
}.

Definition setPathParams (r : Route) (m : gmap string string) : Route :=
  {| Method := Method r; Path := Path r; Handler := Handler r;
     Middlewares := Middlewares r; PathParams := m |}.

(** ** Strings *)

(** [path == "" || path == "/"] *)
Definition consumed (p : string) : bool :=
  (p =? "")%string || (p =? "/")%string.

(** [if path[0] == '/' { path = path[1:] }] *)
Definition stripSlash (p : string) : string :=
  match p with
  | String c r => if Ascii.eqb c "/" then r else p
  | EmptyString => p
  end.

(** The text before the first slash, and the text after it when there is
    one. *)
Fixpoint cutSlash (s : string) : string * option string :=
  match s with
  | EmptyString => (EmptyString, None)
  | String c r =>
      if Ascii.eqb c "/" then (EmptyString, Some r)
      else let '(a, b) := cutSlash r in (String c a, b)
  end.

(** [strings.SplitN(path, "/", 2)] *)
Definition SplitN2 (s : string) : list string :=
  match cutSlash s with
  | (a, None) => [a]
  | (a, Some b) => [a; b]
  end.

Definition getPathSegment (p : string) : string * string :=
  match SplitN2 p with
  | [] => ("", "")
  | segment :: rest =>
      let remaining :=
        match rest with
        | r :: _ => if (r =? "")%string then "" else "/" +:+ r
        | [] => ""
        end in
      (segment, remaining)
  end.

(** [regexPathParamPattern], [^\{[^}]*\}$]: after the opening brace, the first
    closing brace is the last character. *)
Fixpoint closesAtEnd (s : string) : bool :=
  match s with
  | EmptyString => false
  | String c r => if Ascii.eqb c "}" then (r =? "")%string else closesAtEnd r
  end.

Definition isPathParam (segment : string) : bool :=
  match segment with
  | String c r => Ascii.eqb c "{" && closesAtEnd r
  | EmptyString => false
  end.

(** [regexWildcardPattern], [^\*[^/]*$]. *)
Fixpoint noSlash (s : string) : bool :=
  match s with
  | EmptyString => true
  | String c r => negb (Ascii.eqb c "/") && noSlash r
  end.

Definition isWildcard (segment : string) : bool :=
  match segment with
  | String c r => Ascii.eqb c "*" && noSlash r
  | EmptyString => false
  end.

Definition getRouteTypeFromSegment (segment : string) : RouteType * string :=
  if isPathParam segment then
    (RouteTypeParam, substring 1 (String.length segment - 2) segment)
  else if isWildcard segment then
    (RouteTypeWildcard, substring 1 (String.length segment - 1) segment)
  else (RouteTypeStatic, "").

(** ** The builder *)

(** A pointer to a node below a given node: the child links to follow. *)
Inductive Step : Type :=
| InStatic (i : nat)
| InParam
| InWildcard.

Definition Loc : Type := list Step.

#[global] Instance Step_eq_dec : EqDecision Step.
Proof. solve_decision. Defined.

(** [for _, child := range n.static { if child.path == segment { ... } }]:
    the index of the first static child with that text, and the child. *)
Fixpoint scanStatic (segment : string) (l : list RouteNode) : option (nat * RouteNode) :=
  match l with
  | [] => None
  | child :: l' =>
      if (path child =? segment)%string then Some (0, child)
      else match scanStatic segment l' with
           | Some (i, c) => Some (S i, c)
           | None => None
           end
  end.

(** What a call returns: the pointer to the destination node, or the
    error. *)
Definition under (s : Step) (r : Loc + RouteErr) : Loc + RouteErr :=
  match r with
  | inl l => inl (s :: l)
  | inr e => inr e
  end.

(** [addRoute].  The source updates the tree in place, so the model returns
    the node after the call next to the call's result; it recurses on the
    rest of the path, which gets shorter, and the counter [fuel] bounds the
    depth of the recursion ([addRoute] below gives it the length of the
    path, which is never used up: see [addRoute_eq]). *)
Fixpoint addRoute_fuel (fuel : nat) (n : RouteNode) (method p : string)
    (handler : HandlerFunc) (mws : list MiddlewareFunc)
    : RouteNode * (Loc + RouteErr) :=
  match fuel with
  | O => (n, inr ErrRouteMalformedPath)
  | S fuel =>
      if consumed p then
        match handlers n !! method with
        | Some _ => (n, inr ErrRouteAlreadyExists)
        | None =>
            let n1 := setMiddlewares n (middlewares n ++ mws) in
            (setHandlers n1 (<[method := handler]> (handlers n1)), inl [])
        end
      else
        let p := stripSlash p in
        let '(segment, remaining) := getPathSegment p in
        let '(rt, name) := getRouteTypeFromSegment segment in
        match rt with
        | RouteTypeParam =>
            let c := match param n with
                     | Some c => c
                     | None => NewRouteNode segment rt name
                     end in
            let '(c', r) := addRoute_fuel fuel c method remaining handler mws in
            (setParam n (Some c'), under InParam r)
        | RouteTypeWildcard =>
            let c := match wildcard n with
                     | Some c => c
                     | None => NewRouteNode segment rt name
                     end in
            let '(c', r) := addRoute_fuel fuel c method remaining handler mws in
            (setWildcard n (Some c'), under InWildcard r)
        | _ =>
            match scanStatic segment (static n) with
            | Some (i, c) =>
                let '(c', r) := addRoute_fuel fuel c method remaining handler mws in
                (setStatic n (<[i := c']> (static n)), under (InStatic i) r)
            | None =>
                let c := NewRouteNode segment RouteTypeStatic "" in
                let '(c', r) := addRoute_fuel fuel c method remaining handler mws in
                (setStatic n (static n ++ [c']),
                 under (InStatic (length (static n))) r)
            end
        end
  end.

Definition addRoute (n : RouteNode) (method p : string)
    (handler : HandlerFunc) (mws : list MiddlewareFunc)
    : RouteNode * (Loc + RouteErr) :=
  addRoute_fuel (S (String.length p)) n method p handler mws.

(** The method [Route] of a node ([Route] names the match result here): the
    error is wrapped with the method and the path. *)
Definition RouteOn (n : RouteNode) (method p : string)
    (handler : HandlerFunc) (mws : list MiddlewareFunc)
    : RouteNode * (Loc + RouteError) :=
  match addRoute n method p handler mws with
  | (n', inl l) => (n', inl l)
  | (n', inr e) => (n', inr (NewRouteError method p e))
  end.

(** [Group]: [n.Route("", prefix, nil, middlewares...)]. *)
Definition Group (n : RouteNode) (prefix : string) (mws : list MiddlewareFunc)
    : RouteNode * (Loc + RouteError) :=
  RouteOn n "" prefix NilFunc mws.

(** [Use] *)
Definition Use (n : RouteNode) (mws : list MiddlewareFunc) : RouteNode :=
  setMiddlewares n (middlewares n ++ mws).

(** ** Nodes behind pointers *)

Definition child (n : RouteNode) (s : Step) : option RouteNode :=
  match s with
  | InStatic i => static n !! i
  | InParam => param n
  | InWildcard => wildcard n
  end.

Fixpoint nodeAt (n : RouteNode) (l : Loc) : option RouteNode :=
  match l with
  | [] => Some n
  | s :: l' =>
      match child n s with
      | Some c => nodeAt c l'
      | None => None
      end
  end.

(** The node [n] with [c] behind the link [s]: a static child is replaced in
    place, or appended when the index is the next free one. *)
Definition attach (n : RouteNode) (s : Step) (c : RouteNode) : RouteNode :=
  match s with
  | InStatic i =>
      if decide (i < length (static n))
      then setStatic n (<[i := c]> (static n))
      else setStatic n (static n ++ [c])
  | InParam => setParam n (Some c)
  | InWildcard => setWildcard n (Some c)
  end.

(** A method called on the node that a pointer [l] into the tree [n]
    designates: [f] gives the node after the call and the call's result; the
    tree is updated in place.  Calling a method through a pointer to no node
    (a nil pointer) is [None]. *)
Fixpoint callAt {R : Type} (f : RouteNode → RouteNode * R) (n : RouteNode) (l : Loc)
    : option (RouteNode * R) :=
  match l with
  | [] => Some (f n)
  | s :: l' =>
      match child n s with
      | None => None
      | Some c =>
          match callAt f c l' with
          | None => None
          | Some (c', r) => Some (attach n s c', r)
          end
      end
  end.

(** ** The matcher *)

(** [collectMiddlewares]: the parent chain is walked up to the root and the
    local sequences are appended root first, the node's own last.  [anc] is
    the parent chain of [n], root first. *)
Fixpoint collectMiddlewares_chain (anc : list RouteNode) (ms : list MiddlewareFunc)
    : list MiddlewareFunc :=
  match anc with
  | [] => ms
  | a :: anc' => collectMiddlewares_chain anc' (ms ++ middlewares a)
  end.

Definition collectMiddlewares (anc : list RouteNode) (n : RouteNode)
    (ms : list MiddlewareFunc) : list MiddlewareFunc :=
  collectMiddlewares_chain anc ms ++ middlewares n.

(** [maps.Copy(dst, src)]: every pair of [src] is stored into [dst]. *)
Definition maps_Copy (dst src : gmap string string) : gmap string string :=
  src ∪ dst.

(** [find].  The [*Route] is one object shared by all recursive calls: the
    model takes its state and returns the state after the call next to the
    error ([None] is the source's [err == nil], where the pointer returned is
    that same object). *)
Fixpoint find (n : RouteNode) (anc : list RouteNode) (method p : string)
    (route : Route) : option RouteErr * Route :=
  if consumed p then
    match handlers n !! method with
    | None => (Some ErrRouteNotFound, route)
    | Some handler =>
        (None,
         {| Method := method; Path := Path route; Handler := handler;
            Middlewares := collectMiddlewares anc n (Middlewares route);
            PathParams := PathParams route |})
    end
  else
    let p := stripSlash p in
    let '(segment, remaining) := getPathSegment p in
    let afterStatic :=
      (* Check parameter routes *)
      let '(fallthrough, route) :=
        match param n with
        | Some c =>
            let originalPathParams : gmap string string := ∅ in
            let route := setPathParams route
                           (maps_Copy (PathParams route) originalPathParams) in
            let route := setPathParams route
                           (<[paramName c := segment]> (PathParams route)) in
            match find c (anc ++ [n]) method remaining route with
            | (None, result) => (Some (None, result), result)
            | (Some _, route) =>
                (None, setPathParams route originalPathParams)
            end
        | None => (None, route)
        end in
      match fallthrough with
      | Some r => r
      | None =>
          (* Check wildcard routes *)
          match wildcard n with
          | Some w =>
              let wildcardValue :=
                if (remaining =? "")%string then segment
                else segment +:+ remaining in
              let route := setPathParams route
                             (<[paramName w := wildcardValue]> (PathParams route)) in
              find w (anc ++ [n]) method "" route
          | None => (Some ErrRouteNotFound, route)
          end
      end in
    (fix range (l : list RouteNode) : option RouteErr * Route :=
       match l with
       | [] => afterStatic
       | c :: l' =>
           if (path c =? segment)%string
           then find c (anc ++ [n]) method remaining route
           else range l'
       end) (static n).

(** [Find], called on the root of the tree, as the engine does: the root has
    no parent, so the chain of ancestors starts empty. *)
Definition Find (n : RouteNode) (method p : string) : Route + RouteError :=
  let route := {| Method := method; Path := p; Handler := NilFunc;
                  Middlewares := []; PathParams := ∅ |} in
  match find n [] method p route with
  | (None, route) => inl route
  | (Some err, _) => inr (NewRouteError method p err)
  end.

(** The parameter and wildcard part of [find], which is reached when no
    static child has the text of the segment. *)
Definition afterStatic (n : RouteNode) (anc : list RouteNode)
    (method segment remaining : string) (route : Route)
    : option RouteErr * Route :=
  let '(fallthrough, route) :=
    match param n with
    | Some c =>
        let originalPathParams : gmap string string := ∅ in
        let route := setPathParams route
                       (maps_Copy (PathParams route) originalPathParams) in
        let route := setPathParams route
                       (<[paramName c := segment]> (PathParams route)) in
        match find c (anc ++ [n]) method remaining route with
        | (None, result) => (Some (None, result), result)
        | (Some _, route) =>
            (None, setPathParams route originalPathParams)
        end
    | None => (None, route)
    end in
  match fallthrough with
  | Some r => r
  | None =>
      match wildcard n with
      | Some w =>
          let wildcardValue :=
            if (remaining =? "")%string then segment
            else segment +:+ remaining in
          let route := setPathParams route
                         (<[paramName w := wildcardValue]> (PathParams route)) in
          find w (anc ++ [n]) method "" route
      | None => (Some ErrRouteNotFound, route)
      end
  end.

(** ** Induction on trees *)

Section RouteNode_induction.
Variable P : RouteNode → Prop.
Hypothesis step : ∀ n,
  Forall P (static n) →
  from_option P True (param n) →
  from_option P True (wildcard n) →
  P n.

Fixpoint RouteNode_ind (n : RouteNode) : P n :=
  match n with
  | mkRouteNode p t nm h m s pa w =>
      step (mkRouteNode p t nm h m s pa w)
        ((fix all (l : list RouteNode) : Forall P l :=
            match l with
            | [] => @List.Forall_nil _ P
            | c :: l' => @List.Forall_cons _ P c l' (RouteNode_ind c) (all l')
            end) s)
        match pa with Some c => RouteNode_ind c | None => I end
        match w with Some c => RouteNode_ind c | None => I end
  end.
End RouteNode_induction.

(** ** Registration by method, and the engine's root *)

(** [GET], [POST]: [n.Route(http.MethodGet, path, handler, middlewares...)];
    the node itself is returned for chaining, next to the error. *)
Definition GET (n : RouteNode) (p : string) (handler : HandlerFunc)
    (mws : list MiddlewareFunc) : RouteNode * option RouteError :=
  match RouteOn n "GET" p handler mws with
  | (n', inl _) => (n', None)
  | (n', inr e) => (n', Some e)
  end.

Definition POST (n : RouteNode) (p : string) (handler : HandlerFunc)
    (mws : list MiddlewareFunc) : RouteNode * option RouteError :=
  match RouteOn n "POST" p handler mws with
  | (n', inl _) => (n', None)
  | (n', inr e) => (n', Some e)
  end.

(** The root that [engine.New] creates:
    [routes.NewRouteNode("", routes.RouteTypeNone, "", nil)]. *)
Definition newRoot : RouteNode := NewRouteNode "" RouteTypeNone "".

(** The route after [route.PathParams[name] = value]. *)
Definition bound (route : Route) (name value : string) : Route :=
  setPathParams route (<[name := value]> (PathParams route)).

(** ** Example trees *)

(** [/users/admin], [/users/{id}] and [/users/*rest] under GET. *)
Definition priorityTree : RouteNode :=
  let t := (GET newRoot "/users/admin" (Func "static") []).1 in
  let t := (GET t "/users/{id}" (Func "param") []).1 in
  (GET t "/users/*rest" (Func "wildcard") []).1.

(** The same registrations with the parameter written [:id]. *)
Definition colonTree : RouteNode :=
  let t := (GET newRoot "/users/admin" (Func "static") []).1 in
  let t := (GET t "/users/:id" (Func "param") []).1 in
  (GET t "/users/*rest" (Func "wildcard") []).1.

(** [/files/*path] under GET. *)
Definition filesTree : RouteNode :=
  (GET newRoot "/files/*path" (Func "files") []).1.

(** [/{a}/x/{b}/y] and [/{a}/x/*w] under GET: below [x], a parameter child
    and a wildcard child, and a parameter bound above them. *)
Definition nestedTree : RouteNode :=
  let t := (GET newRoot "/{a}/x/{b}/y" (Func "y") []).1 in
  (GET t "/{a}/x/*w" (Func "w") []).1.

(** [/users/admin/x], [/users/{id}/y] and [/users/*rest] under GET. *)
Definition commitTree : RouteNode :=
  let t := (GET newRoot "/users/admin/x" (Func "x") []).1 in
  let t := (GET t "/users/{id}/y" (Func "y") []).1 in
  (GET t "/users/*rest" (Func "rest") []).1.

(** [/users/{id}] under POST and [/users/*rest] under GET. *)
Definition verbTree : RouteNode :=
  let t := (POST newRoot "/users/{id}" (Func "create") []).1 in
  (GET t "/users/*rest" (Func "rest") []).1.

(** The node behind a pointer that is known to be valid. *)
Definition nodeAt' (n : RouteNode) (l : Loc) : RouteNode :=
  default newRoot (nodeAt n l).

(** The route that [Find] starts from. *)
Definition newRoute (method p : string) : Route :=
  {| Method := method; Path := p; Handler := NilFunc;
     Middlewares := []; PathParams := ∅ |}.

(** ** Where the structure of a path ends *)

(** The lookup of [p] for [method] below [n] fails, whatever the ancestors
    and the route it starts from. *)
Definition fails (method : string) (n : RouteNode) (p : string) : Prop :=
  ∀ anc route, (find n anc method p route).1 = Some ErrRouteNotFound.

(** The wildcard child that the matcher goes back to, as seen from a node:
    the nodes from that node down to the parent of the wildcard child, the
    wildcard child, and the text that it captures. *)
Definition Back : Type := list RouteNode * RouteNode * string.

(** The same wildcard child seen from the parent [n] of the node. *)
Definition via (n : RouteNode) (o : option Back) : option Back :=
  match o with
  | Some (up, w, value) => Some (n :: up, w, value)
  | None => None
  end.

(** [settles method n p d o]: matching [p] from [n] by the structure of the
    tree consumes the whole path at the node [d].  A static child with the
    text of the segment is followed; else the parameter child; else, or when
    the parameter child fails, the wildcard child, where the path ends.

    [o] tells where the matcher goes back to when [d] has no handler for
    [method]: to the deepest wildcard child passed over on the way (the
    wildcard sibling of a parameter child that was followed) that has a
    handler for [method]; [None] when no wildcard child passed over has
    one. *)
Inductive settles (method : string)
  : RouteNode → string → RouteNode → option Back → Prop :=
| settles_here n p :
    consumed p = true →
    settles method n p n None
| settles_static n p segment remaining i c d o :
    consumed p = false →
    getPathSegment (stripSlash p) = (segment, remaining) →
    scanStatic segment (static n) = Some (i, c) →
    settles method c remaining d o →
    settles method n p d (via n o)
| settles_param_below n p segment remaining c d back :
    consumed p = false →
    getPathSegment (stripSlash p) = (segment, remaining) →
    scanStatic segment (static n) = None →
    param n = Some c →
    settles method c remaining d (Some back) →
    settles method n p d (via n (Some back))
| settles_param_none n p segment remaining c d :
    consumed p = false →
    getPathSegment (stripSlash p) = (segment, remaining) →
    scanStatic segment (static n) = None →
    param n = Some c →
    settles method c remaining d None →
    (∀ w, wildcard n = Some w → handlers w !! method = None) →
    settles method n p d None
| settles_param_back n p segment remaining c d w :
    consumed p = false →
    getPathSegment (stripSlash p) = (segment, remaining) →
    scanStatic segment (static n) = None →
    param n = Some c →
    settles method c remaining d None →
    wildcard n = Some w →
    is_Some (handlers w !! method) →
    settles method n p d (Some ([n], w, segment +:+ remaining))
| settles_wildcard n p segment remaining w :
    consumed p = false →
    getPathSegment (stripSlash p) = (segment, remaining) →
    scanStatic segment (static n) = None →
    (∀ c, param n = Some c → fails method c remaining) →
    wildcard n = Some w →
    settles method n p w None.

(** ** The steps of [addRoute] *)

(** The end of the path: the handler is bound at [n], unless the method has
    one. *)
Definition bindHandler (n : RouteNode) (method : string)
    (handler : HandlerFunc) (mws : list MiddlewareFunc)
    : RouteNode * (Loc + RouteErr) :=
  match handlers n !! method with
  | Some _ => (n, inr ErrRouteAlreadyExists)
  | None =>
      let n1 := setMiddlewares n (middlewares n ++ mws) in
      (setHandlers n1 (<[method := handler]> (handlers n1)), inl [])
  end.

(** The child that [addRoute] continues in for a segment, created when it
    is missing, and the link that holds it. *)
Definition descend (n : RouteNode) (segment : string) : RouteNode * Step :=
  let '(rt, name) := getRouteTypeFromSegment segment in
  match rt with
  | RouteTypeParam =>
      (default (NewRouteNode segment rt name) (param n), InParam)
  | RouteTypeWildcard =>
      (default (NewRouteNode segment rt name) (wildcard n), InWildcard)
  | _ =>
      match scanStatic segment (static n) with
      | Some (i, c) => (c, InStatic i)
      | None =>
          (NewRouteNode segment RouteTypeStatic "", InStatic (length (static n)))
      end
  end.

(** A node as [NewRouteNode] makes it: no handler and no child. *)
Definition fresh (n : RouteNode) : Prop :=
  handlers n = ∅ ∧ static n = [] ∧ param n = None ∧ wildcard n = None.

(** ** Comparing lookups *)

Definition setPath (r : Route) (p : string) : Route :=
  {| Method := Method r; Path := p; Handler := Handler r;
     Middlewares := Middlewares r; PathParams := PathParams r |}.

(** [path[0] == '/'], for a path that is not empty. *)
Definition beginsWithSlash (p : string) : bool :=
  match p with
  | String c _ => Ascii.eqb c "/"
  | EmptyString => false
  end.

(** Two results of [Find] resolve alike: the same handler, middleware chain
    and parameter mapping, or the same error. *)
Definition sameResolution (a b : Route + RouteError) : Prop :=
  match a, b with
  | inl r1, inl r2 =>
      Handler r1 = Handler r2 ∧ Middlewares r1 = Middlewares r2 ∧
      PathParams r1 = PathParams r2
  | inr e1, inr e2 => Err e1 = Err e2
  | _, _ => False
  end.

(** ** Paths of nodes *)

(** [c] is held by a child link of [n]. *)
Definition isChild (n c : RouteNode) : Prop :=
  c ∈ static n ∨ param n = Some c ∨ wildcard n = Some c.

(** Each node of the list is a child of the one before it. *)
Fixpoint linked (ns : list RouteNode) : Prop :=
  match ns with
  | a :: (b :: _) as rest => isChild a b ∧ linked rest
  | _ => True
  end.

(** A tree with middleware at three depths: [other] is registered first,
    then the group [/api] with its middleware, [/users] below the group, and
    at last the middleware of the root. *)
Definition mwTree : RouteNode :=
  let t := (GET newRoot "/other" (Func "other") [Mw "other"]).1 in
  match Group t "/api" [Mw "api"] with
  | (t, inl g) =>
      match callAt (λ n, GET n "/users" (Func "users") [Mw "users"]) t g with
      | Some (t, _) => Use t [Mw "root"]
      | None => t
      end
  | (t, inr _) => t
  end.

(** ** Invariants of the tree *)

(** All the children of a node, of every kind. *)
Definition children (n : RouteNode) : list RouteNode :=
  static n ++ option_list (param n) ++ option_list (wildcard n).

(** The invariant of one node: static children have distinct texts, and
    every child has the kind of the link that holds it. *)
Definition nodeOk (n : RouteNode) : Prop :=
  NoDup (path <$> static n) ∧
  Forall (λ c, routeType c = RouteTypeStatic) (static n) ∧
  (∀ c, param n = Some c → routeType c = RouteTypeParam) ∧
  (∀ c, wildcard n = Some c → routeType c = RouteTypeWildcard).

(** The invariant at every node of a tree. *)
#[local] Unset Elimination Schemes.
Inductive wellFormed : RouteNode → Prop :=
| wellFormed_node n :
    nodeOk n →
    Forall wellFormed (static n) →
    (∀ c, param n = Some c → wellFormed c) →
    (∀ c, wildcard n = Some c → wellFormed c) →
    wellFormed n.
#[local] Set Elimination Schemes.

(** Every binding of a handler in [n] is still there in [n'], behind the
    same pointer. *)
Definition keeps (n n' : RouteNode) : Prop :=
  ∀ l d v h,
    nodeAt n l = Some d → handlers d !! v = Some h →
    ∃ d', nodeAt n' l = Some d' ∧ handlers d' !! v = Some h.

(** The trees that registrations build: from the root of a new engine, by
    [Route] (and so by [GET], [Group], ...) and [Use], called on the root or
    on any node of the tree. *)
Inductive reachable : RouteNode → Prop :=
| reachable_new : reachable newRoot
| reachable_route t l method p handler mws t' r :
    reachable t →
    callAt (λ n, addRoute n method p handler mws) t l = Some (t', r) →
    reachable t'
| reachable_use t l mws t' :
    reachable t →
    callAt (λ n, (Use n mws, ())) t l = Some (t', ()) →
    reachable t'.

(** ** Groups *)

(** [Engine.Group]: [group, _ := e.routes.Group(prefix)]; the error is
    dropped, and the pointer is nil ([None]) when there is one. *)
Definition EngineGroup (routes : RouteNode) (prefix : string)
    : RouteNode * option Loc :=
  match Group routes prefix [] with
  | (t, inl g) => (t, Some g)
  | (t, inr _) => (t, None)
  end.

(** The tree after [e.Group(prefix)] and a registration of [p] on the group
    node; [None] when the group pointer is nil. *)
Definition viaGroup (t : RouteNode) (prefix method p : string)
    (handler : HandlerFunc) (mws : list MiddlewareFunc) : option RouteNode :=
  match EngineGroup t prefix with
  | (t1, Some g) =>
      match callAt (λ n, addRoute n method p handler mws) t1 g with
      | Some (t1', _) => Some t1'
      | None => None
      end
  | (_, None) => None
  end.

(** The tree after the registration of [prefix + p] on the root. *)
Definition direct (t : RouteNode) (prefix method p : string)
    (handler : HandlerFunc) (mws : list MiddlewareFunc) : RouteNode :=
  (addRoute t method (prefix +:+ p) handler mws).1.

(** The last character of the string is a slash. *)
Fixpoint endsWithSlash (s : string) : bool :=
  match s with
  | EmptyString => false
  | String c EmptyString => Ascii.eqb c "/"
  | String _ r => endsWithSlash r
  end.

(** A result of [addRoute] below the node behind [g], seen from above. *)
Definition underLoc (g : Loc) (r : Loc + RouteErr) : Loc + RouteErr :=
  match r with
  | inl l => inl (g ++ l)
  | inr e => inr e
  end.

(** Two trees that [find] cannot tell apart for [method]: the same shape,
    texts, parameter names and middleware, and at every node the same
    handler for [method]. *)
#[local] Unset Elimination Schemes.
Inductive agree (method : string) : RouteNode → RouteNode → Prop :=
| agree_node n1 n2 :
    path n1 = path n2 →
    paramName n1 = paramName n2 →
    middlewares n1 = middlewares n2 →
    handlers n1 !! method = handlers n2 !! method →
    Forall2 (agree method) (static n1) (static n2) →
    option_Forall2 (agree method) (param n1) (param n2) →
    option_Forall2 (agree method) (wildcard n1) (wildcard n2) →
    agree method n1 n2.
#[local] Set Elimination Schemes.

(** ** Characters of a segment *)

(** The character [c] occurs in [s]. *)
Definition occurs (c : ascii) (s : string) : Prop :=
  ∃ a b, s = a +:+ String c b.

(** ** The other registration helpers *)

(** [PUT], [DELETE], [PATCH], [OPTIONS] and [HEAD] differ from [GET] in the
    method token only. *)
Definition PUT (n : RouteNode) (p : string) (handler : HandlerFunc)
    (mws : list MiddlewareFunc) : RouteNode * option RouteError :=
  match RouteOn n "PUT" p handler mws with
  | (n', inl _) => (n', None)
  | (n', inr e) => (n', Some e)
  end.

Definition DELETE (n : RouteNode) (p : string) (handler : HandlerFunc)
    (mws : list MiddlewareFunc) : RouteNode * option RouteError :=
  match RouteOn n "DELETE" p handler mws with
  | (n', inl _) => (n', None)
  | (n', inr e) => (n', Some e)
  end.

Definition PATCH (n : RouteNode) (p : string) (handler : HandlerFunc)
    (mws : list MiddlewareFunc) : RouteNode * option RouteError :=
  match RouteOn n "PATCH" p handler mws with
  | (n', inl _) => (n', None)
  | (n', inr e) => (n', Some e)
  end.

Definition OPTIONS (n : RouteNode) (p : string) (handler : HandlerFunc)
    (mws : list MiddlewareFunc) : RouteNode * option RouteError :=
  match RouteOn n "OPTIONS" p handler mws with
  | (n', inl _) => (n', None)
  | (n', inr e) => (n', Some e)
  end.

Definition HEAD (n : RouteNode) (p : string) (handler : HandlerFunc)
    (mws : list MiddlewareFunc) : RouteNode * option RouteError :=
  match RouteOn n "HEAD" p handler mws with
  | (n', inl _) => (n', None)
  | (n', inr e) => (n', Some e)
  end.

(** ** The engine *)

Module Engine.

(** What the engine does to its route tree [e.routes]; its configuration and
    its server take no part in registration and dispatch.  The registration
    methods drop the error of the tree's method and return the engine. *)
Definition GET (routes : RouteNode) (p : string) (handler : HandlerFunc)
    : RouteNode := (GET routes p handler []).1.

Definition POST (routes : RouteNode) (p : string) (handler : HandlerFunc)
    : RouteNode := (POST routes p handler []).1.

Definition PUT (routes : RouteNode) (p : string) (handler : HandlerFunc)
    : RouteNode := (PUT routes p handler []).1.

Definition DELETE (routes : RouteNode) (p : string) (handler : HandlerFunc)
    : RouteNode := (DELETE routes p handler []).1.

Definition PATCH (routes : RouteNode) (p : string) (handler : HandlerFunc)
    : RouteNode := (PATCH routes p handler []).1.

(** What [ServeHTTP] does with a request: the response of
    [ctx.ErrorString(status, message)], or the call of a handler with the
    path parameters in its context ([route.Handler(ctx)]; the middleware of
    the route is not applied).  Calling the nil handler panics. *)
Inductive Served : Type :=
| ErrorString (status : nat) (message : string)
| Call (handler : string) (PathParams : gmap string string)
| Panic.

Definition ServeHTTP (routes : RouteNode) (method p : string) : Served :=
  match Find routes method p with
  | inr _ => ErrorString 404 "Not Found"
  | inl route =>
      match Handler route with
      | Func f => Call f (PathParams route)
      | NilFunc => Panic
      end
  end.

End Engine.

(** ** What registration leaves alone *)

(** The node [d'] is the node [d], later: the same text, kind and parameter
    name, and the middleware of [d] with more at the end. *)
Definition sameIdentity (d d' : RouteNode) : Prop :=
  path d' = path d ∧ routeType d' = routeType d ∧
  paramName d' = paramName d ∧ middlewares d `prefix_of` middlewares d'.

(** Every node of [n] is still in [n'], behind the same pointer, with its
    identity. *)
Definition stable (n n' : RouteNode) : Prop :=
  ∀ l d, nodeAt n l = Some d →
    ∃ d', nodeAt n' l = Some d' ∧ sameIdentity d d'.

(** [/users/{id}] under GET, then [/users/{uid}/posts]: the second
    registration names the parameter differently. *)
Definition renamedTree : RouteNode :=
  let t := (GET newRoot "/users/{id}" (Func "user") []).1 in
  (GET t "/users/{uid}/posts" (Func "posts") []).1.

(** ** Static paths *)

(** Every segment of the path is classified as static text. *)
Inductive allStatic : string → Prop :=
| allStatic_end p :
    consumed p = true →
    allStatic p
| allStatic_segment p segment remaining :
    consumed p = false →
    getPathSegment (stripSlash p) = (segment, remaining) →
    (getRouteTypeFromSegment segment).1 = RouteTypeStatic →
    allStatic remaining →
    allStatic p.

(** [leads n p l]: from [n], the segments of [p] are the texts of static
    children, one below the other, and [l] points to the last of them. *)
Inductive leads : RouteNode → string → Loc → Prop :=
| leads_end n p :
    consumed p = true →
    leads n p []
| leads_segment n p segment remaining i c l :
    consumed p = false →
    getPathSegment (stripSlash p) = (segment, remaining) →
    scanStatic segment (static n) = Some (i, c) →
    leads c remaining l →
    leads n p (InStatic i :: l).

(** The nodes that a pointer passes, from [n] on, as far as they exist. *)
Fixpoint chainAt (n : RouteNode) (l : Loc) : list RouteNode :=
  match l with
  | [] => [n]
  | s :: l' =>
      n :: match child n s with
           | Some c => chainAt c l'
           | None => []
           end
  end.

(** The trees that further calls of [Route] and [Use], on the root or on any
    node, make of a tree. *)
Inductive registrations : RouteNode → RouteNode → Prop :=
| registrations_none t : registrations t t
| registrations_route t t1 l method p handler mws t2 r :
    registrations t t1 →
    callAt (λ n, addRoute n method p handler mws) t1 l = Some (t2, r) →
    registrations t t2
| registrations_use t t1 l mws t2 :
    registrations t t1 →
    callAt (λ n, (Use n mws, ())) t1 l = Some (t2, ()) →
    registrations t t2.

(** ** Pointers and wildcards *)

(** A wildcard link, if the pointer has one, is its last link. *)
Fixpoint wildcardLast (l : Loc) : Prop :=
  match l with
  | [] => True
  | InWildcard :: l' => l' = []
  | _ :: l' => wildcardLast l'
  end.

(** [/files/*path/edit] under GET: a route that goes on after a wildcard. *)
Definition deadTree : RouteNode :=
  (GET newRoot "/files/*path/edit" (Func "edit") []).1.

(** ** Comparing routes *)

(** Two routes with the same method, path, handler and middleware; the path
    parameters may differ. *)
Definition sameButParams (r1 r2 : Route) : Prop :=
  Method r1 = Method r2 ∧ Path r1 = Path r2 ∧
  Handler r1 = Handler r2 ∧ Middlewares r1 = Middlewares r2.

(** Two results of [Find] with the same handler and middleware chain, or the
    same error. *)
Definition sameHandling (a b : Route + RouteError) : Prop :=
  match a, b with
  | inl r1, inl r2 =>
      Handler r1 = Handler r2 ∧ Middlewares r1 = Middlewares r2
  | inr e1, inr e2 => Err e1 = Err e2
  | _, _ => False
  end.

(** ** Trees without middleware *)

(** The tree with the middleware of every node removed. *)
Fixpoint stripMiddlewares (n : RouteNode) : RouteNode :=
  match n with
  | mkRouteNode p t nm h m s pa w =>
      mkRouteNode p t nm h []
        (List.map stripMiddlewares s)
        (option_map stripMiddlewares pa)
        (option_map stripMiddlewares w)
  end.

(** Two routes that differ in their middleware at most. *)
Definition sameButMiddlewares (r1 r2 : Route) : Prop :=
  Method r1 = Method r2 ∧ Path r1 = Path r2 ∧
  Handler r1 = Handler r2 ∧ PathParams r1 = PathParams r2.

(** ** The full path of a node *)

(** The method [Path] of a node ([Path] names a field of the match result
    here).  [up] is the chain of parents of [n], the nearest first; the node
    without a parent is the root. *)
Fixpoint NodePath (up : list RouteNode) (n : RouteNode) : string :=
  match up with
  | [] => "/"
  | parent :: up' =>
      let parentPath := NodePath up' parent in
      if (parentPath =? "/")%string then "/" +:+ path n
      else parentPath +:+ "/" +:+ path n
  end.

(** [Path] called on the node behind a pointer into the tree [n], whose own
    parents are [up]. *)
Fixpoint PathBelow (up : list RouteNode) (n : RouteNode) (l : Loc)
    : option string :=
  match l with
  | [] => Some (NodePath up n)
  | s :: l' =>
      match child n s with
      | Some c => PathBelow (n :: up) c l'
      | None => None
      end
  end.

Definition PathAt (root : RouteNode) (l : Loc) : option string :=
  PathBelow [] root l.

(** The path written with a slash before each of its segments. *)
Definition pathOf (segments : list string) : string :=
  foldr (λ segment rest, "/" +:+ segment +:+ rest) "" segments.

(** A segment of static text: not empty, without a slash, and not in the
    notation of a parameter or a wildcard. *)
Definition staticSegment (segment : string) : Prop :=
  segment ≠ "" ∧ noSlash segment = true ∧
  (getRouteTypeFromSegment segment).1 = RouteTypeStatic.

(** ** Patterns and requests *)

(** A segment of a registered path next to what a request has in its place:
    static text, which the request repeats, or a parameter [{name}] and the
    value that the request gives for it. *)
Inductive Segment : Type :=
| Fixed (text : string)
| Named (name value : string).

(** The segment as the registered path writes it. *)
Definition written (s : Segment) : string :=
  match s with
  | Fixed text => text
  | Named name _ => "{" +:+ name +:+ "}"
  end.

(** The segment as the request writes it. *)
Definition requested (s : Segment) : string :=
  match s with
  | Fixed text => text
  | Named _ value => value
  end.

(** A text that can stand between two slashes and is seen by
    [getPathSegment] as one segment: not empty, without a slash. *)
Definition plain (s : string) : Prop := s ≠ "" ∧ noSlash s = true.

Definition segmentOk (s : Segment) : Prop :=
  match s with
  | Fixed text => staticSegment text
  | Named name value =>
      ¬ occurs "}" name ∧ noSlash name = true ∧ plain value
  end.

(** The values of the parameters stored under their names, from the first
    segment to the last. *)
Definition captures (segments : list Segment) (m : gmap string string)
    : gmap string string :=
  foldl (λ m s, match s with
                | Fixed _ => m
                | Named name value => <[name := value]> m
                end) m segments.

(** ** Handlers that are called *)

(** No node of the tree binds the nil handler to a method, the empty method
    apart (under which [Group] binds nil). *)
Definition noNilHandler (t : RouteNode) : Prop :=
  ∀ l d method,
    nodeAt t l = Some d → method ≠ "" → handlers d !! method ≠ Some NilFunc.

(** The trees that an application builds when every handler it registers is
    a function: from the root of a new engine, by [Route] with a handler
    (and so by [GET], [POST], ...), by [Group] and by [Use], called on the
    root or on any node of the tree. *)
Inductive built : RouteNode → Prop :=
| built_new : built newRoot
| built_route t l method p handler mws t' r :
    built t →
    callAt (λ n, addRoute n method p (Func handler) mws) t l = Some (t', r) →
    built t'
| built_group t l prefix mws t' r :
    built t →
    callAt (λ n, Group n prefix mws) t l = Some (t', r) →
    built t'
| built_use t l mws t' :
    built t →
    callAt (λ n, (Use n mws, ())) t l = Some (t', ()) →
    built t'.

(** ** An example with a group *)

(** [api, _ := root.Group("/api", auth)], [api.Use(log)] and
    [api.GET("/status", status, json)] on a new root: the tree after each
    step. *)
Definition groupMade : RouteNode := (Group newRoot "/api" [Mw "auth"]).1.

Definition groupUsed : RouteNode :=
  attach groupMade (InStatic 0)
    (Use (nodeAt' groupMade [InStatic 0]) [Mw "log"]).

Definition groupTree : RouteNode :=
  attach groupUsed (InStatic 0)
    (GET (nodeAt' groupUsed [InStatic 0]) "/status" (Func "status")
       [Mw "json"]).1.

(** What may follow the segments: nothing, or a wildcard [*name] at the end
    of the registered path, next to the rest of the request that stands in
    its place. *)
Definition Ending : Type := option (string * string).

Definition endingOk (e : Ending) : Prop :=
  match e with
  | Some (name, rest) =>
      noSlash name = true ∧ rest ≠ "" ∧ endsWithSlash rest = false
  | None => True
  end.

(** The path that is registered, and the path of the request. *)
Definition registeredPath (segments : list Segment) (e : Ending) : string :=
  pathOf (written <$> segments)
  +:+ match e with Some (name, _) => "/*" +:+ name | None => "" end.

Definition requestPath (segments : list Segment) (e : Ending) : string :=
  pathOf (requested <$> segments)
  +:+ match e with Some (_, rest) => "/" +:+ rest | None => "" end.

(** The wildcard's capture, stored after the values of the parameters. *)
Definition capturesEnding (e : Ending) (m : gmap string string)
    : gmap string string :=
  match e with
  | Some (name, rest) => <[name := rest]> m
  | None => m
  end.

(** A path that a node is called with: empty, or a slash and more. *)
Definition slashed (p : string) : Prop :=
  p = "" ∨ ∃ r, r ≠ "" ∧ p = "/" +:+ r.

(** A node without children. *)
Definition childless (n : RouteNode) : Prop :=
  static n = [] ∧ param n = None ∧ wildcard n = None.

(** Registration and lookup from a node without children, for the paths
    [tailP] and [tailQ], with [K] the effect on the path parameters. *)
Definition roundTrip (method : string) (handler : HandlerFunc)
    (mws : list MiddlewareFunc) (tailP tailQ : string)
    (K : gmap string string → gmap string string) : Prop :=
  ∀ n, childless n → handlers n !! method = None →
    ∃ n' l,
      addRoute n method tailP handler mws = (n', inl l)
      ∧ ∀ anc route,
          find n' anc method tailQ route
          = (None,
             {| Method := method; Path := Path route; Handler := handler;
                Middlewares := Middlewares route
                               ++ concat (middlewares <$> anc)
                               ++ middlewares n ++ mws;
                PathParams := K (PathParams route) |}).

(** ** The requests that are served *)

(** The lookup of [p] for [method] from [n] finds a handler. *)
Definition succeeds (method : string) (n : RouteNode) (p : string) : Prop :=
  (find n [] method p (newRoute method p)).1 = None.

(** Every path that is found from [n1] is found from [n]. *)
Definition atMost (method : string) (n1 n : RouteNode) : Prop :=
  ∀ p, succeeds method n1 p → succeeds method n p.

(** The trees that calls of [Route] for other methods than [method], and of
    [Use], on the root or on any node, make of a tree. *)
Inductive registrationsBut (method : string) : RouteNode → RouteNode → Prop :=
| registrationsBut_none t : registrationsBut method t t
| registrationsBut_route t t1 l other p handler mws t2 r :
    registrationsBut method t t1 →
    other ≠ method →
    callAt (λ n, addRoute n other p handler mws) t1 l = Some (t2, r) →
    registrationsBut method t t2
| registrationsBut_use t t1 l mws t2 :
    registrationsBut method t t1 →
    callAt (λ n, (Use n mws, ())) t1 l = Some (t2, ()) →
    registrationsBut method t t2.

(** [GET /users/{id}], and then [POST /users/admin]. *)
Definition usersTree : RouteNode :=
  (GET newRoot "/users/{id}" (Func "user") []).1.

Definition shadowedTree : RouteNode :=
  (POST usersTree "/users/admin" (Func "create") []).1.

(** ** The order of registrations *)

(** What selects a child in [addRoute] and in [find]: the text of a static
    segment, or the kind of the segment for the parameter child and the
    wildcard child. *)
Inductive Key : Type :=
| KStatic (text : string)
| KParam
| KWildcard.

Definition Key_eqb (a b : Key) : bool :=
  match a, b with
  | KStatic x, KStatic y => (x =? y)%string
  | KParam, KParam => true
  | KWildcard, KWildcard => true
  | _, _ => false
  end.

(** The child that a key selects: the first static child with the text, the
    parameter child, or the wildcard child. *)
Definition sub (n : RouteNode) (k : Key) : option RouteNode :=
  match k with
  | KStatic text => snd <$> scanStatic text (static n)
  | KParam => param n
  | KWildcard => wildcard n
  end.

(** The key of the child that [addRoute] continues in for a segment, and the
    node that it creates when that child is missing. *)
Definition keyOf (segment : string) : Key :=
  match (getRouteTypeFromSegment segment).1 with
  | RouteTypeParam => KParam
  | RouteTypeWildcard => KWildcard
  | _ => KStatic segment
  end.

Definition freshFor (segment : string) : RouteNode :=
  let '(rt, name) := getRouteTypeFromSegment segment in
  match rt with
  | RouteTypeParam => NewRouteNode segment rt name
  | RouteTypeWildcard => NewRouteNode segment rt name
  | _ => NewRouteNode segment RouteTypeStatic ""
  end.

(** Two trees with the same handlers behind the same keys.  The order of
    the static children, the texts and names of the parameter and wildcard
    nodes and the middleware may differ. *)
Inductive similar : RouteNode → RouteNode → Prop :=
| similar_nodes n1 n2 :
    handlers n1 = handlers n2 →
    (∀ k, sub n1 k = None ↔ sub n2 k = None) →
    (∀ k c1 c2, sub n1 k = Some c1 → sub n2 k = Some c2 → similar c1 c2) →
    similar n1 n2.

(** The registration returned a node, not an error. *)
Definition ok (r : Loc + RouteErr) : bool :=
  match r with
  | inl _ => true
  | inr _ => false
  end.

(** Two results of [Find] with the same handler, or the same error. *)
Definition sameHandler (a b : Route + RouteError) : Prop :=
  match a, b with
  | inl r1, inl r2 => Handler r1 = Handler r2
  | inr e1, inr e2 => e1 = e2
  | _, _ => False
  end.

(** [GET /users/{id}] and [GET /users/{uid}/posts], in both orders. *)
Definition idFirst : RouteNode :=
  (GET usersTree "/users/{uid}/posts" (Func "posts") []).1.

Definition uidFirst : RouteNode :=
  (GET (GET newRoot "/users/{uid}/posts" (Func "posts") []).1
     "/users/{id}" (Func "user") []).1.

(** ** Where a prefix and a path meet *)

(** [prefix] and [p] meet with one slash between them: one of the two ends,
    or begins, with a slash and the other does not; or one of them is
    empty. *)
Definition junction (prefix p : string) : Prop :=
  p = "" ∨ prefix = "" ∨ endsWithSlash prefix ≠ beginsWithSlash p.

(** Two paths that a node treats alike: the same path, two paths that are
    both the end of the path, or a path with and without its leading
    slash. *)
Definition samePath (a b : string) : Prop :=
  a = b
  ∨ (consumed a = true ∧ consumed b = true)
  ∨ (a = "/" +:+ b ∧ beginsWithSlash b = false).

(** * Properties *)

(** ** Unfolding [find] *)

Lemma find_eq n anc method p route :
  find n anc method p route =
  if consumed p then
    match handlers n !! method with
    | None => (Some ErrRouteNotFound, route)
    | Some handler =>
        (None,
         {| Method := method; Path := Path route; Handler := handler;
            Middlewares := collectMiddlewares anc n (Middlewares route);
            PathParams := PathParams route |})
    end
  else
    let '(segment, remaining) := getPathSegment (stripSlash p) in
    match scanStatic segment (static n) with
    | Some (_, c) => find c (anc ++ [n]) method remaining route
    | None => afterStatic n anc method segment remaining route
    end.
Proof.
  destruct n as [np nt nn nh nm ns npa nw].
  cbn [find handlers static param wildcard].
  destruct (consumed p); [reflexivity|].
  destruct (getPathSegment (stripSlash p)) as [segment remaining].
  unfold afterStatic. cbn [param wildcard].
  set (n := mkRouteNode np nt nn nh nm ns npa nw). clearbody n.
  induction ns as [|c l IH]; [reflexivity|].
  cbn [scanStatic].
  destruct (path c =? segment)%string; [reflexivity|].
  rewrite IH. destruct (scanStatic segment l) as [[i c']|]; reflexivity.
Qed.

(** ** Strings *)

Lemma consumed_iff p : consumed p = true ↔ p = "" ∨ p = "/".
Proof.
  unfold consumed. rewrite orb_true_iff, !String.eqb_eq. reflexivity.
Qed.

Lemma consumed_false p : consumed p = false ↔ p ≠ "" ∧ p ≠ "/".
Proof.
  unfold consumed. rewrite orb_false_iff, !String.eqb_neq. reflexivity.
Qed.

Lemma append_cons c (s t : string) : String c s +:+ t = String c (s +:+ t).
Proof. reflexivity. Qed.

Lemma append_empty_l (s : string) : "" +:+ s = s.
Proof. reflexivity. Qed.

Lemma append_empty_r (s : string) : s +:+ "" = s.
Proof. induction s as [|c s IH]; [reflexivity|]. by rewrite append_cons, IH. Qed.

Lemma cutSlash_None s a : cutSlash s = (a, None) → s = a ∧ noSlash a = true.
Proof.
  revert a. induction s as [|c s IH]; intros a H; cbn in H.
  - by inversion H.
  - destruct (Ascii.eqb c "/") eqn:Hc; [discriminate|].
    destruct (cutSlash s) as [a' b']. inversion H; subst.
    destruct (IH a' eq_refl) as [-> Hn]. cbn. by rewrite Hc, Hn.
Qed.

Lemma cutSlash_Some s a b :
  cutSlash s = (a, Some b) → s = a +:+ "/" +:+ b ∧ noSlash a = true.
Proof.
  revert a. induction s as [|c s IH]; intros a H; cbn in H.
  - discriminate.
  - destruct (Ascii.eqb c "/") eqn:Hc.
    + apply Ascii.eqb_eq in Hc. inversion H; subst. done.
    + destruct (cutSlash s) as [a' b']. inversion H; subst.
      destruct (IH a' eq_refl) as [-> Hn]. cbn. by rewrite Hc, Hn.
Qed.

(** The two parts that [getPathSegment] returns spell the path again, up to
    one slash that ended it. *)
Lemma getPathSegment_join s seg rem :
  getPathSegment s = (seg, rem) →
  s = seg +:+ rem ∨ (s = seg +:+ "/" ∧ rem = "").
Proof.
  unfold getPathSegment, SplitN2. destruct (cutSlash s) as [a [b|]] eqn:Hc; intros H.
  - apply cutSlash_Some in Hc as [-> _]. inversion H; subst.
    destruct (b =? "")%string eqn:Hb.
    + apply String.eqb_eq in Hb as ->. by right.
    + by left.
  - apply cutSlash_None in Hc as [-> _]. inversion H; subst.
    left. by rewrite append_empty_r.
Qed.

(** ** The static scan *)

Lemma scanStatic_Some segment l i c :
  scanStatic segment l = Some (i, c) ↔
  l !! i = Some c ∧ path c = segment ∧
  ∀ j c', j < i → l !! j = Some c' → path c' ≠ segment.
Proof.
  revert i. induction l as [|x l IH]; intros i; cbn.
  - split; [discriminate|]. by intros [? _].
  - destruct (path x =? segment)%string eqn:Hx.
    + apply String.eqb_eq in Hx. split.
      * intros [= <- <-]. split; [done|split; [done|intros; lia]].
      * intros (Hi & Hc & Hlt). destruct i as [|i]; [by inversion Hi|].
        exfalso. apply (Hlt 0 x); [lia|done|done].
    + apply String.eqb_neq in Hx.
      assert (∀ i, (l !! i = Some c ∧ path c = segment ∧
                ∀ j c', j < i → l !! j = Some c' → path c' ≠ segment) ↔
              ((x :: l) !! S i = Some c ∧ path c = segment ∧
                ∀ j c', j < S i → (x :: l) !! j = Some c' → path c' ≠ segment))
        as Hshift.
      { intros k. split; intros (Hi & Hc & Hlt);
          (split; [done|split; [done|]]).
        - intros [|j] c' ? Hj; cbn in Hj.
          + by inversion Hj; subst.
          + apply (Hlt j); [lia|done].
        - intros j c' ? Hj. apply (Hlt (S j)); [lia|done]. }
      destruct (scanStatic segment l) as [[k d]|] eqn:Hs.
      * split.
        -- intros [= <- <-]. apply Hshift, IH. done.
        -- intros H. destruct i as [|i].
           ++ destruct H as (Hi & Hc & _). inversion Hi; subst. done.
           ++ apply Hshift, IH in H. congruence.
      * split; [discriminate|]. intros H. destruct i as [|i].
        -- destruct H as (Hi & Hc & _). inversion Hi; subst. done.
        -- apply Hshift, IH in H. congruence.
Qed.

Lemma scanStatic_None segment l :
  scanStatic segment l = None ↔ ∀ c, c ∈ l → path c ≠ segment.
Proof.
  induction l as [|x l IH]; cbn.
  - split; [|done]. intros _ c Hc. by apply elem_of_nil in Hc.
  - destruct (path x =? segment)%string eqn:Hx.
    + apply String.eqb_eq in Hx. split; [discriminate|].
      intros H. exfalso. apply (H x); [by left|done].
    + apply String.eqb_neq in Hx.
      destruct (scanStatic segment l) as [[k d]|] eqn:Hs.
      * split; [discriminate|]. intros H.
        assert (Some (k, d) = None) as HN; [|discriminate].
        apply IH. intros c Hc. apply H. by right.
      * split; [|done]. intros _ c Hc. apply elem_of_cons in Hc as [->|Hc]; [done|].
        by apply IH.
Qed.

Lemma scanStatic_elem segment l i c :
  scanStatic segment l = Some (i, c) → c ∈ l.
Proof.
  intros (Hi & _)%scanStatic_Some. by eapply list_elem_of_lookup_2.
Qed.

(** ** One step of [find] *)

Lemma maps_Copy_empty m : maps_Copy m ∅ = m.
Proof. unfold maps_Copy. by rewrite (left_id_L ∅ (∪)). Qed.

Lemma wildcardValue_eq (segment remaining : string) :
  (if (remaining =? "")%string then segment else segment +:+ remaining)
  = segment +:+ remaining.
Proof.
  destruct (remaining =? "")%string eqn:H; [|done].
  apply String.eqb_eq in H as ->. by rewrite append_empty_r.
Qed.

(** The wildcard part of [find], from the route state it starts with. *)
Lemma afterStatic_eq n anc method segment remaining route :
  afterStatic n anc method segment remaining route =
  let wild route :=
    match wildcard n with
    | Some w =>
        find w (anc ++ [n]) method ""
          (bound route (paramName w) (segment +:+ remaining))
    | None => (Some ErrRouteNotFound, route)
    end in
  match param n with
  | Some c =>
      match find c (anc ++ [n]) method remaining (bound route (paramName c) segment) with
      | (None, result) => (None, result)
      | (Some _, r) => wild (setPathParams r ∅)
      end
  | None => wild route
  end.
Proof.
  unfold afterStatic, bound. cbn zeta. rewrite wildcardValue_eq.
  destruct (param n) as [c|]; [|reflexivity].
  rewrite maps_Copy_empty. cbn [PathParams setPathParams].
  destruct route as [m pa h ms pp]; cbn [setPathParams Method Path Handler Middlewares PathParams].
  destruct (find c _ _ _ _) as [[e|] r]; reflexivity.
Qed.

Lemma find_consumed n anc method p route :
  consumed p = true →
  find n anc method p route =
  match handlers n !! method with
  | None => (Some ErrRouteNotFound, route)
  | Some handler =>
      (None,
       {| Method := method; Path := Path route; Handler := handler;
          Middlewares := collectMiddlewares anc n (Middlewares route);
          PathParams := PathParams route |})
  end.
Proof. intros H. by rewrite find_eq, H. Qed.

Lemma find_segment n anc method p route segment remaining :
  consumed p = false →
  getPathSegment (stripSlash p) = (segment, remaining) →
  find n anc method p route =
  match scanStatic segment (static n) with
  | Some (_, c) => find c (anc ++ [n]) method remaining route
  | None => afterStatic n anc method segment remaining route
  end.
Proof. intros H1 H2. by rewrite find_eq, H1, H2. Qed.

(** A failed [find] returns [ErrRouteNotFound] and has written nothing but
    path parameters into the route. *)
Lemma find_failed n : ∀ anc method p route e r,
  find n anc method p route = (Some e, r) →
  e = ErrRouteNotFound ∧ Method r = Method route ∧ Path r = Path route ∧
  Handler r = Handler route ∧ Middlewares r = Middlewares route.
Proof.
  induction n as [n IHs IHp IHw] using RouteNode_ind.
  intros anc method p route e r H. rewrite find_eq in H.
  destruct (consumed p).
  { destruct (handlers n !! method); by inversion H. }
  destruct (getPathSegment (stripSlash p)) as [segment remaining].
  destruct (scanStatic segment (static n)) as [[i c]|] eqn:Hs.
  { apply scanStatic_elem in Hs. rewrite Forall_forall in IHs. by eapply IHs. }
  rewrite afterStatic_eq in H. cbn zeta in H.
  assert (∀ route0 : Route,
    Method route0 = Method route → Path route0 = Path route →
    Handler route0 = Handler route → Middlewares route0 = Middlewares route →
    match wildcard n with
    | Some w => find w (anc ++ [n]) method "" (bound route0 (paramName w) (segment +:+ remaining))
    | None => (Some ErrRouteNotFound, route0)
    end = (Some e, r) →
    e = ErrRouteNotFound ∧ Method r = Method route ∧ Path r = Path route ∧
    Handler r = Handler route ∧ Middlewares r = Middlewares route) as Hwild.
  { intros route0 E1 E2 E3 E4 Hw. destruct (wildcard n) as [w|].
    - apply IHw in Hw as (-> & F1 & F2 & F3 & F4). cbn in *.
      rewrite F1, F2, F3, F4. done.
    - inversion Hw; subst. done. }
  destruct (param n) as [c|].
  - destruct (find c _ _ _ _) as [[e'|] r'] eqn:Hc; [|discriminate].
    apply IHp in Hc as (_ & F1 & F2 & F3 & F4). cbn in *.
    apply (Hwild (setPathParams r' ∅)); done.
  - by apply (Hwild route).
Qed.

(** ** Priority, commitment and the wildcard *)

(** C10. When a static child has the text of the current segment, [find]
    continues in the first such child and its result, failure included, is
    the result of the node: the parameter and wildcard children of the node
    are not tried for that segment. *)
Theorem find_commits_to_static n anc method p route segment remaining i c :
  consumed p = false →
  getPathSegment (stripSlash p) = (segment, remaining) →
  static n !! i = Some c →
  path c = segment →
  (∀ j c', j < i → static n !! j = Some c' → path c' ≠ segment) →
  find n anc method p route = find c (anc ++ [n]) method remaining route.
Proof.
  intros Hp Hseg Hi Hc Hfirst.
  rewrite (find_segment _ _ _ _ _ _ _ Hp Hseg).
  assert (scanStatic segment (static n) = Some (i, c)) as ->; [|done].
  by apply scanStatic_Some.
Qed.

(** Below [/users] of [commitTree], the lookup of [/admin/y] is the lookup
    of [/y] below [admin]. *)
Lemma find_commits_to_static_witness :
  let users := nodeAt' commitTree [InStatic 0] in
  let admin := nodeAt' commitTree [InStatic 0; InStatic 0] in
  find users [commitTree] "GET" "/admin/y" (newRoute "GET" "/users/admin/y")
  = find admin ([commitTree] ++ [users]) "GET" "/y" (newRoute "GET" "/users/admin/y").
Proof.
  cbv zeta.
  apply (find_commits_to_static _ _ _ _ _ "admin" "/y" 0);
    [reflexivity|reflexivity|reflexivity|reflexivity|intros; lia].
Defined.

(** [/users/admin/y] is not found in [commitTree], although [/users/{id}/y]
    and [/users/*rest] are registered. *)
Example find_commits_example :
  Find commitTree "GET" "/users/admin/y"
  = inr (NewRouteError "GET" "/users/admin/y" ErrRouteNotFound)
  ∧ Find commitTree "GET" "/users/bob/y"
    = inl {| Method := "GET"; Path := "/users/bob/y"; Handler := Func "y";
             Middlewares := []; PathParams := {[ "id" := "bob" ]} |}.
Proof. split; vm_compute; reflexivity. Qed.

Lemma cutSlash_closing_slash s :
  noSlash s = true → cutSlash (s +:+ "/") = (s, Some "").
Proof.
  induction s as [|c s IH]; [done|]. cbn [noSlash].
  intros [Hc Hs]%andb_true_iff. apply negb_true_iff in Hc.
  rewrite append_cons. cbn [cutSlash]. by rewrite Hc, (IH Hs).
Qed.

Lemma getPathSegment_closing_slash s :
  noSlash s = true → getPathSegment (s +:+ "/") = (s, "").
Proof.
  intros Hs. unfold getPathSegment, SplitN2.
  by rewrite (cutSlash_closing_slash _ Hs).
Qed.

(** C3 (amended).  When the lookup reaches the wildcard child [w] of a node
    (no static child has the text of the segment, and the parameter child,
    if there is one, has failed), the segment and everything after it are
    bound as one string to the name of [w], and the result is taken from
    the handlers of [w] itself, with no further descent.  The string is the
    rest of the path as it is written, slashes included, with one
    exception: when the rest of the path is a single segment closed by a
    slash, the string is that segment, without the slash.  In particular,
    with [/files/*path], [/files/a/b/c.txt] gives [path = a/b/c.txt]. *)
Theorem find_wildcard_captures :
  (∀ n anc method p route segment remaining w,
     consumed p = false →
     getPathSegment (stripSlash p) = (segment, remaining) →
     (∀ c, c ∈ static n → path c ≠ segment) →
     (∀ c, param n = Some c →
        ∃ e r, find c (anc ++ [n]) method remaining
                 (bound route (paramName c) segment) = (Some e, r)) →
     wildcard n = Some w →
     let value := segment +:+ remaining in
     let base := match param n with
                 | Some _ => ∅
                 | None => PathParams route
                 end in
     (((∀ s, noSlash s = true → stripSlash p ≠ s +:+ "/") →
       value = stripSlash p)
      ∧ (∀ s, noSlash s = true → stripSlash p = s +:+ "/" → value = s)) ∧
     find n anc method p route =
       match handlers w !! method with
       | Some h =>
           (None,
            {| Method := method; Path := Path route; Handler := h;
               Middlewares := collectMiddlewares (anc ++ [n]) w (Middlewares route);
               PathParams := <[paramName w := value]> base |})
       | None =>
           (Some ErrRouteNotFound,
            setPathParams route (<[paramName w := value]> base))
       end)
  ∧ Find filesTree "GET" "/files/a/b/c.txt"
    = inl {| Method := "GET"; Path := "/files/a/b/c.txt"; Handler := Func "files";
             Middlewares := []; PathParams := {[ "path" := "a/b/c.txt" ]} |}.
Proof.
  split; [|vm_compute; reflexivity].
  intros n anc method p route segment remaining w Hp Hseg Hstatic Hparam Hw.
  cbv zeta. split.
  { split.
    - intros Hnot. destruct (getPathSegment_join _ _ _ Hseg) as [H|[H ->]];
        [done|].
      destruct (Hnot segment); [|done].
      revert Hseg. unfold getPathSegment, SplitN2.
      destruct (cutSlash (stripSlash p)) as [a [b|]] eqn:Hc;
        intros E%(f_equal fst); cbn in E; subst a.
      + by apply cutSlash_Some in Hc as [_ ?].
      + by apply cutSlash_None in Hc as [_ ?].
    - intros s Hs E. rewrite E, (getPathSegment_closing_slash _ Hs) in Hseg.
      injection Hseg as <- <-. by rewrite append_empty_r. }
  rewrite (find_segment _ _ _ _ _ _ _ Hp Hseg).
  apply scanStatic_None in Hstatic as ->.
  rewrite afterStatic_eq. cbv zeta. rewrite Hw.
  assert (∀ route0 : Route,
    Method route0 = Method route → Path route0 = Path route →
    Handler route0 = Handler route → Middlewares route0 = Middlewares route →
    find w (anc ++ [n]) method "" (bound route0 (paramName w) (segment +:+ remaining))
    = match handlers w !! method with
      | Some h =>
          (None,
           {| Method := method; Path := Path route; Handler := h;
              Middlewares := collectMiddlewares (anc ++ [n]) w (Middlewares route);
              PathParams := <[paramName w := segment +:+ remaining]> (PathParams route0) |})
      | None =>
          (Some ErrRouteNotFound,
           setPathParams route
             (<[paramName w := segment +:+ remaining]> (PathParams route0)))
      end) as Hwild.
  { intros route0 E1 E2 E3 E4. rewrite find_consumed by reflexivity.
    destruct route0 as [m0 p0 h0 ms0 pp0], route as [m1 p1 h1 ms1 pp1].
    cbn in *. subst. reflexivity. }
  destruct (param n) as [c|].
  - destruct (Hparam c eq_refl) as (e & r & Hc). rewrite Hc.
    apply find_failed in Hc as (_ & F1 & F2 & F3 & F4). cbn in *.
    by rewrite (Hwild (setPathParams r ∅)).
  - by rewrite (Hwild route).
Qed.

(** Below [/files] of [filesTree], the lookup of [/a/b/c.txt]. *)
Lemma find_wildcard_captures_witness :
  find (nodeAt' filesTree [InStatic 0]) [filesTree] "GET" "/a/b/c.txt"
    (newRoute "GET" "/files/a/b/c.txt")
  = (None,
     {| Method := "GET"; Path := "/files/a/b/c.txt"; Handler := Func "files";
        Middlewares := []; PathParams := {[ "path" := "a/b/c.txt" ]} |}).
Proof.
  refine (proj2 (proj1 find_wildcard_captures
            (nodeAt' filesTree [InStatic 0]) [filesTree] "GET" "/a/b/c.txt"
            (newRoute "GET" "/files/a/b/c.txt") "a" "/b/c.txt"
            (nodeAt' filesTree [InStatic 0; InWildcard]) _ _ _ _ _)).
  - reflexivity.
  - reflexivity.
  - intros c Hc. vm_compute in Hc. by apply elem_of_nil in Hc.
  - intros c Hc. vm_compute in Hc. discriminate.
  - reflexivity.
Defined.

(** C3, as stated, fails: the slash that closes [/files/a/] is not in the
    captured string, which is [a]; in [/files/a/b/] the closing slash is
    kept. *)
Lemma find_wildcard_slash_counterexample :
  Find filesTree "GET" "/files/a/"
  = inl {| Method := "GET"; Path := "/files/a/"; Handler := Func "files";
           Middlewares := []; PathParams := {[ "path" := "a" ]} |}
  ∧ Find filesTree "GET" "/files/a/b/"
    = inl {| Method := "GET"; Path := "/files/a/b/"; Handler := Func "files";
             Middlewares := []; PathParams := {[ "path" := "a/b/" ]} |}.
Proof. split; vm_compute; reflexivity. Qed.

(** The order of the children in [find].  At every node the children are
    tried in the order static, parameter, wildcard: a static child with the
    text of the segment decides the result; otherwise a parameter child
    whose attempt succeeds decides it; otherwise the wildcard child does;
    otherwise the lookup fails.  With a parameter written in braces, as the
    recogniser of the builder wants it: with [/users/admin], [/users/{id}]
    and [/users/*rest] under GET, [/users/admin] gives the static handler
    and no parameters, [/users/42] gives the parameter handler and
    [id = 42], and [/users/a/b/c] gives the wildcard handler and
    [rest = a/b/c]. *)
Theorem find_priority_order :
  (∀ n anc method p route segment remaining,
     consumed p = false →
     getPathSegment (stripSlash p) = (segment, remaining) →
     (∀ i c, static n !! i = Some c → path c = segment →
        (∀ j c', j < i → static n !! j = Some c' → path c' ≠ segment) →
        find n anc method p route = find c (anc ++ [n]) method remaining route)
     ∧ ((∀ c, c ∈ static n → path c ≠ segment) →
        (∀ c result, param n = Some c →
           find c (anc ++ [n]) method remaining
             (bound route (paramName c) segment) = (None, result) →
           find n anc method p route = (None, result))
        ∧ ((∀ c, param n = Some c →
              ∃ e r, find c (anc ++ [n]) method remaining
                       (bound route (paramName c) segment) = (Some e, r)) →
           (∀ w, wildcard n = Some w →
              ∃ route', find n anc method p route
                        = find w (anc ++ [n]) method "" route'
                ∧ PathParams route' !! paramName w = Some (segment +:+ remaining))
           ∧ (wildcard n = None →
              (find n anc method p route).1 = Some ErrRouteNotFound))))
  ∧ Find priorityTree "GET" "/users/admin"
    = inl {| Method := "GET"; Path := "/users/admin"; Handler := Func "static";
             Middlewares := []; PathParams := ∅ |}
  ∧ Find priorityTree "GET" "/users/42"
    = inl {| Method := "GET"; Path := "/users/42"; Handler := Func "param";
             Middlewares := []; PathParams := {[ "id" := "42" ]} |}
  ∧ Find priorityTree "GET" "/users/a/b/c"
    = inl {| Method := "GET"; Path := "/users/a/b/c"; Handler := Func "wildcard";
             Middlewares := []; PathParams := {[ "rest" := "a/b/c" ]} |}.
Proof.
  split; [|split_and!; vm_compute; reflexivity].
  intros n anc method p route segment remaining Hp Hseg. split.
  { intros i c Hi Hc Hfirst.
    rewrite (find_segment _ _ _ _ _ _ _ Hp Hseg).
    assert (scanStatic segment (static n) = Some (i, c)) as ->; [|done].
    by apply scanStatic_Some. }
  intros Hstatic. apply scanStatic_None in Hstatic.
  rewrite (find_segment _ _ _ _ _ _ _ Hp Hseg), Hstatic, afterStatic_eq.
  cbv zeta. split.
  { intros c result -> Hc. by rewrite Hc. }
  intros Hparam. split.
  - intros w ->. destruct (param n) as [c|].
    + destruct (Hparam c eq_refl) as (e & r & ->).
      eexists. split; [reflexivity|]. cbn. by rewrite lookup_insert_eq.
    + eexists. split; [reflexivity|]. cbn. by rewrite lookup_insert_eq.
  - intros ->. destruct (param n) as [c|]; [|done].
    by destruct (Hparam c eq_refl) as (e & r & ->).
Qed.

(** Below [/users] of [priorityTree], the three kinds of child in turn. *)
Lemma find_priority_order_witness :
  find (nodeAt' priorityTree [InStatic 0]) [priorityTree] "GET" "/admin"
    (newRoute "GET" "/users/admin")
  = find (nodeAt' priorityTree [InStatic 0; InStatic 0])
      ([priorityTree] ++ [nodeAt' priorityTree [InStatic 0]]) "GET" ""
      (newRoute "GET" "/users/admin").
Proof.
  refine (proj1 (proj1 find_priority_order
            (nodeAt' priorityTree [InStatic 0]) [priorityTree] "GET" "/admin"
            (newRoute "GET" "/users/admin") "admin" "" _ _) 0 _ _ _ _).
  - reflexivity.
  - reflexivity.
  - reflexivity.
  - reflexivity.
  - intros; lia.
Defined.

(** C2 (not met by the code).  The lookup tries the children in the order
    of the claim, but the builder does not make [/users/:id] a parameter
    route: [getRouteTypeFromSegment] classifies every segment that begins
    with a colon as static text, because [isPathParam] accepts braces only,
    while the tests of the tree ([TestGetRouteTypeFromSegment],
    [TestRouteNode_Route_RoutePriority]) and the example program write
    parameters with a colon.  With [/users/admin], [/users/:id] and
    [/users/*rest] under GET, [/users/42] is answered by the wildcard with
    [rest = 42], not by the parameter route with [id = 42]; the route
    [/users/:id] answers the path [/users/:id] alone, and binds nothing. *)
Theorem colon_parameter_not_recognised :
  (∀ name, getRouteTypeFromSegment (":" +:+ name) = (RouteTypeStatic, ""))
  ∧ Find colonTree "GET" "/users/admin"
    = inl {| Method := "GET"; Path := "/users/admin"; Handler := Func "static";
             Middlewares := []; PathParams := ∅ |}
  ∧ Find colonTree "GET" "/users/42"
    = inl {| Method := "GET"; Path := "/users/42"; Handler := Func "wildcard";
             Middlewares := []; PathParams := {[ "rest" := "42" ]} |}
  ∧ Find colonTree "GET" "/users/a/b/c"
    = inl {| Method := "GET"; Path := "/users/a/b/c"; Handler := Func "wildcard";
             Middlewares := []; PathParams := {[ "rest" := "a/b/c" ]} |}
  ∧ Find colonTree "GET" "/users/:id"
    = inl {| Method := "GET"; Path := "/users/:id"; Handler := Func "param";
             Middlewares := []; PathParams := ∅ |}.
Proof.
  split; [|split_and!; vm_compute; reflexivity].
  intros name. by rewrite append_cons, append_empty_l.
Qed.

(** ** The restore after a failed parameter attempt *)

(** C1 (not met by the code).  After a failed attempt through the parameter
    child, the wildcard child is tried with the empty mapping, not with the
    mapping from before the attempt: [maps.Copy(route.PathParams,
    originalPathParams)] copies the empty snapshot into the live mapping, and
    the restore then installs the empty snapshot.  With [/{a}/x/{b}/y] and
    [/{a}/x/*w], the lookup of [/1/x/2/z] binds [a = 1] above [x], fails
    through [{b}], and ends with [w = 2/z] alone: the binding of [a] is
    lost. *)
Theorem find_restore_installs_empty_mapping :
  (∀ n anc method p route segment remaining c w e r,
     consumed p = false →
     getPathSegment (stripSlash p) = (segment, remaining) →
     (∀ c', c' ∈ static n → path c' ≠ segment) →
     param n = Some c →
     wildcard n = Some w →
     find c (anc ++ [n]) method remaining (bound route (paramName c) segment)
       = (Some e, r) →
     find n anc method p route
     = find w (anc ++ [n]) method ""
         (setPathParams r {[ paramName w := segment +:+ remaining ]}))
  ∧ Find nestedTree "GET" "/1/x/2/z"
    = inl {| Method := "GET"; Path := "/1/x/2/z"; Handler := Func "w";
             Middlewares := []; PathParams := {[ "w" := "2/z" ]} |}
  ∧ Find nestedTree "GET" "/1/x/2/y"
    = inl {| Method := "GET"; Path := "/1/x/2/y"; Handler := Func "y";
             Middlewares := [];
             PathParams := {[ "a" := "1"; "b" := "2" ]} |}.
Proof.
  split; [|split; vm_compute; reflexivity].
  intros n anc method p route segment remaining c w e r Hp Hseg Hstatic Hc Hw Hfail.
  apply scanStatic_None in Hstatic.
  rewrite (find_segment _ _ _ _ _ _ _ Hp Hseg), Hstatic, afterStatic_eq.
  cbv zeta. rewrite Hc, Hw, Hfail. reflexivity.
Qed.

(** Below [x] of [nestedTree], where [a = 1] is bound. *)
Lemma find_restore_installs_empty_mapping_witness :
  let x := nodeAt' nestedTree [InParam; InStatic 0] in
  let anc := [nestedTree; nodeAt' nestedTree [InParam]] in
  let route := bound (newRoute "GET" "/1/x/2/z") "a" "1" in
  PathParams route = {[ "a" := "1" ]}
  ∧ find x anc "GET" "/2/z" route
    = (None,
       {| Method := "GET"; Path := "/1/x/2/z"; Handler := Func "w";
          Middlewares := []; PathParams := {[ "w" := "2/z" ]} |}).
Proof.
  cbv zeta. split; [vm_compute; reflexivity|].
  rewrite (proj1 find_restore_installs_empty_mapping
             (nodeAt' nestedTree [InParam; InStatic 0])
             [nestedTree; nodeAt' nestedTree [InParam]] "GET" "/2/z"
             (bound (newRoute "GET" "/1/x/2/z") "a" "1") "2" "/z"
             (nodeAt' nestedTree [InParam; InStatic 0; InParam])
             (nodeAt' nestedTree [InParam; InStatic 0; InWildcard])
             ErrRouteNotFound
             (bound (bound (newRoute "GET" "/1/x/2/z") "a" "1") "b" "2")).
  - vm_compute; reflexivity.
  - reflexivity.
  - reflexivity.
  - intros c' Hc'. vm_compute in Hc'. by apply elem_of_nil in Hc'.
  - reflexivity.
  - reflexivity.
  - vm_compute; reflexivity.
Defined.

(** ** A node without a handler for the verb *)

Lemma collectMiddlewares_chain_eq anc ms :
  collectMiddlewares_chain anc ms = ms ++ concat (middlewares <$> anc).
Proof.
  revert ms. induction anc as [|a anc IH]; intros ms; cbn.
  - by rewrite app_nil_r.
  - by rewrite IH, <- app_assoc.
Qed.

Lemma settles_find method n p d o :
  settles method n p d o →
  handlers d !! method = None →
  ∀ anc route,
    match o with
    | None => (find n anc method p route).1 = Some ErrRouteNotFound
    | Some (up, w, value) =>
        ∃ h params,
          handlers w !! method = Some h
          ∧ params !! paramName w = Some value
          ∧ head up = Some n ∧ linked (up ++ [w])
          ∧ find n anc method p route
            = (None,
               {| Method := method; Path := Path route; Handler := h;
                  Middlewares := Middlewares route
                                 ++ concat (middlewares <$> (anc ++ up ++ [w]));
                  PathParams := params |})
    end.
Proof.
  intros Hl Hd.
  induction Hl as [n p Hp
                  |n p segment remaining i c d o Hp Hseg Hs _ IH
                  |n p segment remaining c d back Hp Hseg Hs Hc _ IH
                  |n p segment remaining c d Hp Hseg Hs Hc _ IH Hw
                  |n p segment remaining c d w Hp Hseg Hs Hc _ IH Hw Hh
                  |n p segment remaining w Hp Hseg Hs Hc Hw];
    intros anc route.
  - by rewrite find_consumed, Hd.
  - rewrite (find_segment _ _ _ _ _ _ _ Hp Hseg), Hs.
    specialize (IH Hd (anc ++ [n]) route).
    destruct o as [[[up w] value]|]; [|exact IH]. cbn [via].
    destruct IH as (h & params & Hh & Hv & Hup & Hlink & ->).
    exists h, params. split_and!; [done..| |].
    + destruct up as [|c0 up]; [done|]. injection Hup as ->.
      split; [|done]. left. by eapply scanStatic_elem.
    + by rewrite <- !app_assoc.
  - rewrite (find_segment _ _ _ _ _ _ _ Hp Hseg), Hs, afterStatic_eq.
    cbv zeta. rewrite Hc.
    specialize (IH Hd (anc ++ [n]) (bound route (paramName c) segment)).
    destruct back as [[up w] value]. cbn [via].
    destruct IH as (h & params & Hh & Hv & Hup & Hlink & ->).
    exists h, params. split_and!; [done..| |].
    + destruct up as [|c0 up]; [done|]. injection Hup as ->.
      split; [|done]. by right; left.
    + cbn [Path Middlewares bound setPathParams]. by rewrite <- !app_assoc.
  - rewrite (find_segment _ _ _ _ _ _ _ Hp Hseg), Hs, afterStatic_eq.
    cbv zeta. rewrite Hc.
    specialize (IH Hd (anc ++ [n]) (bound route (paramName c) segment)).
    destruct (find c _ _ _ _) as [[e|] r]; [|discriminate].
    destruct (wildcard n) as [w|]; [|done].
    rewrite find_consumed by reflexivity. by rewrite (Hw w eq_refl).
  - rewrite (find_segment _ _ _ _ _ _ _ Hp Hseg), Hs, afterStatic_eq.
    cbv zeta. rewrite Hc, Hw.
    specialize (IH Hd (anc ++ [n]) (bound route (paramName c) segment)).
    destruct (find c _ _ _ _) as [[e|] r] eqn:Hfind; [|discriminate].
    apply find_failed in Hfind as (_ & _ & F2 & _ & F4). cbn in F2, F4.
    destruct Hh as [h Hh].
    exists h, (<[paramName w := segment +:+ remaining]> ∅).
    split_and!; [done|by rewrite lookup_insert_eq|done|by split; [right; right|]|].
    rewrite find_consumed by reflexivity. rewrite Hh.
    cbn [Path Middlewares PathParams bound setPathParams].
    unfold collectMiddlewares. rewrite collectMiddlewares_chain_eq, F2, F4.
    rewrite !fmap_app, !concat_app. cbn. by rewrite !app_nil_r, <- !app_assoc.
  - rewrite (find_segment _ _ _ _ _ _ _ Hp Hseg), Hs, afterStatic_eq.
    cbv zeta. rewrite Hw.
    assert (∀ route0, (find w (anc ++ [n]) method "" route0).1
                      = Some ErrRouteNotFound) as Hwild.
    { intros route0. rewrite find_consumed by reflexivity. by rewrite Hd. }
    destruct (param n) as [c|]; [|apply Hwild].
    specialize (Hc c eq_refl (anc ++ [n]) (bound route (paramName c) segment)).
    destruct (find c _ _ _ _) as [[e|] r]; [apply Hwild|discriminate].
Qed.

(** C5 (amended).  When the structure of the tree consumes the whole path at
    a node that has no handler for the verb, there are two cases.  When no
    wildcard child passed over on the way (the wildcard sibling of a
    parameter child that was followed) has a handler for the verb, the
    lookup fails with [ErrRouteNotFound], and [Find] returns that error and
    no route.  When one has, the matcher goes back to the deepest of them,
    and [Find] returns the route of that wildcard child: its handler for the
    verb, the middleware of the nodes from the root down to it, and a
    mapping in which its name is bound to the rest of the path from its
    level. *)
Theorem find_without_handler method n p d o :
  settles method n p d o →
  handlers d !! method = None →
  match o with
  | None =>
      fails method n p
      ∧ Find n method p = inr (NewRouteError method p ErrRouteNotFound)
  | Some (up, w, value) =>
      ∃ h params,
        handlers w !! method = Some h
        ∧ params !! paramName w = Some value
        ∧ head up = Some n ∧ linked (up ++ [w])
        ∧ Find n method p
          = inl {| Method := method; Path := p; Handler := h;
                   Middlewares := concat (middlewares <$> (up ++ [w]));
                   PathParams := params |}
  end.
Proof.
  intros Hl Hd. pose proof (settles_find _ _ _ _ _ Hl Hd) as H.
  destruct o as [[[up w] value]|].
  - destruct (H [] (newRoute method p))
      as (h & params & Hh & Hv & Hup & Hlink & Hfind).
    exists h, params. split_and!; [done..|].
    unfold Find. unfold newRoute in Hfind. by rewrite Hfind.
  - split; [exact H|].
    unfold Find. specialize (H [] (newRoute method p)). unfold newRoute in H.
    destruct (find n [] method p _) as [[e|] r]; cbn in H; [|discriminate].
    by inversion H.
Qed.

(** In [verbTree], [GET /users/42] is consumed at the node of [{id}], which
    answers POST alone; the wildcard child [*rest] of [/users] was passed
    over and answers GET. *)
Lemma find_without_handler_witness :
  ∃ h params,
    handlers (nodeAt' verbTree [InStatic 0; InWildcard]) !! "GET" = Some h
    ∧ params !! paramName (nodeAt' verbTree [InStatic 0; InWildcard])
      = Some "42"
    ∧ head [verbTree; nodeAt' verbTree [InStatic 0]] = Some verbTree
    ∧ linked ([verbTree; nodeAt' verbTree [InStatic 0]]
              ++ [nodeAt' verbTree [InStatic 0; InWildcard]])
    ∧ Find verbTree "GET" "/users/42"
      = inl {| Method := "GET"; Path := "/users/42"; Handler := h;
               Middlewares :=
                 concat (middlewares <$>
                           ([verbTree; nodeAt' verbTree [InStatic 0]]
                            ++ [nodeAt' verbTree [InStatic 0; InWildcard]]));
               PathParams := params |}.
Proof.
  apply (find_without_handler "GET" verbTree "/users/42"
           (nodeAt' verbTree [InStatic 0; InParam])
           (Some ([verbTree; nodeAt' verbTree [InStatic 0]],
                  nodeAt' verbTree [InStatic 0; InWildcard], "42"))).
  - apply (settles_static "GET" verbTree "/users/42" "users" "/42" 0
             (nodeAt' verbTree [InStatic 0])
             (nodeAt' verbTree [InStatic 0; InParam])
             (Some ([nodeAt' verbTree [InStatic 0]],
                    nodeAt' verbTree [InStatic 0; InWildcard], "42")));
      [reflexivity|reflexivity|reflexivity|].
    apply (settles_param_back "GET" (nodeAt' verbTree [InStatic 0]) "/42"
             "42" "" (nodeAt' verbTree [InStatic 0; InParam])
             (nodeAt' verbTree [InStatic 0; InParam])
             (nodeAt' verbTree [InStatic 0; InWildcard]));
      [reflexivity|reflexivity|reflexivity|reflexivity| |reflexivity|].
    + apply settles_here. reflexivity.
    + by eexists.
  - reflexivity.
Defined.

(** C5, as stated, fails: in [verbTree] the path [/users/42] is consumed at
    the node of [{id}] (where POST is answered), that node has no handler for
    GET, and yet [Find] returns a route for GET, that of the wildcard child
    [*rest]. *)
Lemma find_no_handler_counterexample :
  Find verbTree "POST" "/users/42"
  = inl {| Method := "POST"; Path := "/users/42"; Handler := Func "create";
           Middlewares := []; PathParams := {[ "id" := "42" ]} |}
  ∧ handlers (nodeAt' verbTree [InStatic 0; InParam]) !! "GET" = None
  ∧ Find verbTree "GET" "/users/42"
    = inl {| Method := "GET"; Path := "/users/42"; Handler := Func "rest";
             Middlewares := []; PathParams := {[ "rest" := "42" ]} |}.
Proof. split_and!; vm_compute; reflexivity. Qed.

(** ** The recursion of [addRoute] *)

Lemma length_append (a b : string) :
  String.length (a +:+ b) = String.length a + String.length b.
Proof.
  induction a as [|c a IH]; [reflexivity|].
  rewrite append_cons. cbn. by rewrite IH.
Qed.

Lemma getPathSegment_length s segment remaining :
  getPathSegment s = (segment, remaining) →
  (String.length segment + String.length remaining ≤ String.length s)%nat.
Proof.
  intros [->|[-> ->]]%getPathSegment_join; rewrite length_append; cbn; lia.
Qed.

Lemma getPathSegment_first c s segment remaining :
  Ascii.eqb c "/" = false →
  getPathSegment (String c s) = (segment, remaining) →
  (0 < String.length segment)%nat.
Proof.
  unfold getPathSegment, SplitN2. cbn [cutSlash]. intros ->.
  destruct (cutSlash s) as [a [b|]]; intros [= <- _]; cbn; lia.
Qed.

(** The rest of the path is shorter than the path. *)
Lemma remaining_shorter p segment remaining :
  consumed p = false →
  getPathSegment (stripSlash p) = (segment, remaining) →
  (String.length remaining < String.length p)%nat.
Proof.
  intros [Hne _]%consumed_false Hseg.
  destruct p as [|c s]; [done|]. cbn [stripSlash] in Hseg.
  destruct (Ascii.eqb c "/") eqn:Hc.
  - apply getPathSegment_length in Hseg. cbn. lia.
  - pose proof (getPathSegment_first _ _ _ _ Hc Hseg).
    apply getPathSegment_length in Hseg. lia.
Qed.

Lemma addRoute_fuel_S fuel n method p handler mws :
  addRoute_fuel (S fuel) n method p handler mws =
  if consumed p then bindHandler n method handler mws
  else
    let '(segment, remaining) := getPathSegment (stripSlash p) in
    let '(c, s) := descend n segment in
    let '(c', r) := addRoute_fuel fuel c method remaining handler mws in
    (attach n s c', under s r).
Proof.
  cbn [addRoute_fuel]. destruct (consumed p); [reflexivity|].
  destruct (getPathSegment (stripSlash p)) as [segment remaining].
  unfold descend, attach.
  destruct (getRouteTypeFromSegment segment) as [[] name];
    try (destruct (scanStatic segment (static n)) as [[i c]|] eqn:Hs;
         [ apply scanStatic_Some in Hs as (Hi%lookup_lt_Some & _);
           destruct (addRoute_fuel fuel c _ _ _ _) as [c' r];
           by rewrite decide_True
         | destruct (addRoute_fuel fuel _ _ _ _ _) as [c' r];
           rewrite decide_False by lia; reflexivity ]).
  - destruct (param n) as [c|]; cbn [default];
      destruct (addRoute_fuel fuel _ _ _ _ _) as [c' r]; reflexivity.
  - destruct (wildcard n) as [c|]; cbn [default];
      destruct (addRoute_fuel fuel _ _ _ _ _) as [c' r]; reflexivity.
Qed.

(** Fuel beyond the length of the path changes nothing. *)
Lemma addRoute_fuel_enough fuel : ∀ fuel' n method p handler mws,
  (String.length p < fuel)%nat → (String.length p < fuel')%nat →
  addRoute_fuel fuel n method p handler mws
  = addRoute_fuel fuel' n method p handler mws.
Proof.
  induction fuel as [|fuel IH]; intros fuel' n method p handler mws H1 H2; [lia|].
  destruct fuel' as [|fuel']; [lia|].
  rewrite !addRoute_fuel_S. destruct (consumed p) eqn:Hp; [reflexivity|].
  destruct (getPathSegment (stripSlash p)) as [segment remaining] eqn:Hseg.
  pose proof (remaining_shorter _ _ _ Hp Hseg).
  destruct (descend n segment) as [c s].
  rewrite (IH fuel') by lia. reflexivity.
Qed.

(** The equation of [addRoute]: the body of the source, with [addRoute]
    itself in the place of the recursive call. *)
Lemma addRoute_eq n method p handler mws :
  addRoute n method p handler mws =
  if consumed p then bindHandler n method handler mws
  else
    let '(segment, remaining) := getPathSegment (stripSlash p) in
    let '(c, s) := descend n segment in
    let '(c', r) := addRoute c method remaining handler mws in
    (attach n s c', under s r).
Proof.
  unfold addRoute. rewrite addRoute_fuel_S.
  destruct (consumed p) eqn:Hp; [reflexivity|].
  destruct (getPathSegment (stripSlash p)) as [segment remaining] eqn:Hseg.
  pose proof (remaining_shorter _ _ _ Hp Hseg).
  destruct (descend n segment) as [c s].
  rewrite (addRoute_fuel_enough _ (S (String.length remaining))) by lia.
  reflexivity.
Qed.

(** Induction along the calls of [addRoute]. *)
Lemma addRoute_induction method handler mws
    (P : RouteNode → string → RouteNode * (Loc + RouteErr) → Prop) :
  (∀ n p, consumed p = true → P n p (bindHandler n method handler mws)) →
  (∀ n p segment remaining c s c' r,
     consumed p = false →
     getPathSegment (stripSlash p) = (segment, remaining) →
     descend n segment = (c, s) →
     addRoute c method remaining handler mws = (c', r) →
     P c remaining (c', r) →
     P n p (attach n s c', under s r)) →
  ∀ n p, P n p (addRoute n method p handler mws).
Proof.
  intros Hend Hstep n p.
  remember (String.length p) as k eqn:Hk.
  revert n p Hk. induction k as [k IH] using lt_wf_ind. intros n p ->.
  rewrite addRoute_eq. destruct (consumed p) eqn:Hp; [by apply Hend|].
  destruct (getPathSegment (stripSlash p)) as [segment remaining] eqn:Hseg.
  destruct (descend n segment) as [c s] eqn:Hd.
  destruct (addRoute c method remaining handler mws) as [c' r] eqn:Hc.
  eapply Hstep; [done..|].
  rewrite <- Hc. eapply IH; [|reflexivity].
  by eapply remaining_shorter.
Qed.

(** ** Links *)

Lemma setStatic_same n : setStatic n (static n) = n.
Proof. by destruct n. Qed.

Lemma setParam_same n : setParam n (param n) = n.
Proof. by destruct n. Qed.

Lemma setWildcard_same n : setWildcard n (wildcard n) = n.
Proof. by destruct n. Qed.

Lemma attach_same n s c : child n s = Some c → attach n s c = n.
Proof.
  destruct s as [i| |]; cbn; intros H.
  - rewrite decide_True by (by eapply lookup_lt_Some).
    rewrite list_insert_id by done. apply setStatic_same.
  - rewrite <- H. apply setParam_same.
  - rewrite <- H. apply setWildcard_same.
Qed.

(** What [descend] returns: a child that is there, or a new node for a link
    that is free. *)
Lemma descend_cases n segment c s :
  descend n segment = (c, s) →
  child n s = Some c
  ∨ (child n s = None ∧ fresh c ∧ path c = segment
     ∧ ∀ i, s = InStatic i → i = length (static n)).
Proof.
  unfold descend.
  destruct (getRouteTypeFromSegment segment) as [[] name];
    try (destruct (scanStatic segment (static n)) as [[i d]|] eqn:Hs;
         intros [= <- <-];
         [ left; by apply scanStatic_Some in Hs as (? & _)
         | right; cbn; split_and!;
           [by apply lookup_ge_None_2|done..|by intros ? [= <-]] ]).
  - destruct (param n) as [d|] eqn:Hp; intros [= <- <-]; [by left|right].
    by split_and!.
  - destruct (wildcard n) as [d|] eqn:Hp; intros [= <- <-]; [by left|right].
    by split_and!.
Qed.

Lemma descend_link n segment c s :
  descend n segment = (c, s) →
  ∀ i, s = InStatic i → i ≤ length (static n).
Proof.
  intros [H|(_ & _ & _ & H)]%descend_cases i ->.
  - apply lookup_lt_Some in H. lia.
  - by rewrite (H i eq_refl).
Qed.

Lemma child_attach n s c :
  (∀ i, s = InStatic i → i ≤ length (static n)) →
  child (attach n s c) s = Some c.
Proof.
  destruct s as [i| |]; cbn; intros H; [|done..].
  specialize (H i eq_refl). case_decide; cbn.
  - by apply list_lookup_insert_eq.
  - assert (i = length (static n)) as -> by lia.
    by rewrite lookup_app_r, Nat.sub_diag.
Qed.

Lemma attach_attach n s c c' :
  (∀ i, s = InStatic i → i ≤ length (static n)) →
  attach (attach n s c) s c' = attach n s c'.
Proof.
  destruct s as [i| |]; intros H; [|done..].
  specialize (H i eq_refl). unfold attach.
  destruct (decide (i < length (static n))) as [Hlt|Hge]; cbn [static setStatic].
  - rewrite length_insert, decide_True by done. cbn.
    by rewrite list_insert_insert_eq.
  - assert (i = length (static n)) as -> by lia.
    rewrite length_app, decide_True by (cbn; lia). cbn.
    by rewrite insert_app_r_alt, Nat.sub_diag by lia.
Qed.

Lemma path_attach n s c : path (attach n s c) = path n.
Proof. destruct s; cbn; [case_decide|..]; reflexivity. Qed.

Lemma scanStatic_insert segment l i c c' :
  scanStatic segment l = Some (i, c) →
  path c' = path c →
  scanStatic segment (<[i := c']> l) = Some (i, c').
Proof.
  intros (Hi & Hc & Hlt)%scanStatic_Some Hp. apply scanStatic_Some.
  split_and!.
  - apply list_lookup_insert_eq. by eapply lookup_lt_Some.
  - congruence.
  - intros j d Hj Hd. rewrite list_lookup_insert_ne in Hd by lia.
    by eapply Hlt.
Qed.

Lemma scanStatic_snoc segment l c' :
  scanStatic segment l = None →
  path c' = segment →
  scanStatic segment (l ++ [c']) = Some (length l, c').
Proof.
  intros Hn Hp. apply scanStatic_Some. split_and!.
  - by rewrite lookup_app_r, Nat.sub_diag.
  - done.
  - intros j d Hj Hd. rewrite lookup_app_l in Hd by done.
    rewrite scanStatic_None in Hn. apply Hn. by eapply list_elem_of_lookup_2.
Qed.

(** After the child has been put back, the same segment leads to it. *)
Lemma descend_attach n segment c s c' :
  descend n segment = (c, s) →
  path c' = path c →
  descend (attach n s c') segment = (c', s).
Proof.
  unfold descend.
  destruct (getRouteTypeFromSegment segment) as [[] name];
    try (destruct (scanStatic segment (static n)) as [[i d]|] eqn:Hs;
         intros [= <- <-] Hp; cbn [attach];
         [ rewrite decide_True
             by (apply scanStatic_Some in Hs as (?%lookup_lt_Some & _); done);
           cbn [static setStatic];
           by rewrite (scanStatic_insert _ _ _ _ _ Hs Hp)
         | rewrite decide_False by lia; cbn [static setStatic];
           by rewrite (scanStatic_snoc _ _ _ Hs Hp) ]).
  - by intros [= <- <-] _.
  - by intros [= <- <-] _.
Qed.

(** ** Registering twice *)

Lemma addRoute_path n method p handler mws :
  path (addRoute n method p handler mws).1 = path n.
Proof.
  rewrite addRoute_eq. destruct (consumed p).
  - unfold bindHandler. by destruct (handlers n !! method).
  - destruct (getPathSegment (stripSlash p)) as [segment remaining].
    destruct (descend n segment) as [c s].
    destruct (addRoute c method remaining handler mws) as [c' r].
    apply path_attach.
Qed.

(** Below a new node every registration succeeds. *)
Lemma addRoute_fresh method handler mws n p :
  fresh n → ∃ l, (addRoute n method p handler mws).2 = inl l.
Proof.
  revert n p. apply (addRoute_induction method handler mws
    (λ n p res, fresh n → ∃ l, res.2 = inl l)).
  - intros n p _ (Hh & _). unfold bindHandler. rewrite Hh, lookup_empty.
    by eexists.
  - intros n p segment remaining c s c' r _ _ Hd _ IH (_ & Hs & Hp & Hw).
    apply descend_cases in Hd as [Hc|(_ & Hf & _)].
    + destruct s; cbn in Hc; [by rewrite Hs in Hc|congruence..].
    + destruct (IH Hf) as [l Hl]. cbn in *. subst r. by eexists.
Qed.

(** A registration that fails has changed nothing, and its error is
    [ErrRouteAlreadyExists]. *)
Lemma addRoute_error method handler mws n p n' e :
  addRoute n method p handler mws = (n', inr e) →
  n' = n ∧ e = ErrRouteAlreadyExists.
Proof.
  revert n p n' e. apply (addRoute_induction method handler mws
    (λ n p res, ∀ n' e, res = (n', inr e) → n' = n ∧ e = ErrRouteAlreadyExists)).
  - intros n p _ n' e. unfold bindHandler.
    destruct (handlers n !! method); by intros [= <- <-].
  - intros n p segment remaining c s c' r _ _ Hd Hc IH n' e [= <- Hr].
    destruct r as [l|e']; [discriminate|]. cbn in Hr. inversion Hr; subst e'.
    destruct (IH c' e eq_refl) as [-> ->].
    apply descend_cases in Hd as [Hch|(_ & Hf & _)].
    + by rewrite attach_same.
    + destruct (addRoute_fresh method handler mws c remaining Hf) as [l Hl].
      rewrite Hc in Hl. discriminate.
Qed.

(** The pointer that a registration returns designates a node that holds
    the handler. *)
Lemma addRoute_destination method handler mws n p n' l :
  addRoute n method p handler mws = (n', inl l) →
  ∃ d, nodeAt n' l = Some d ∧ handlers d !! method = Some handler.
Proof.
  revert n p n' l. apply (addRoute_induction method handler mws
    (λ n p res, ∀ n' l, res = (n', inl l) →
       ∃ d, nodeAt n' l = Some d ∧ handlers d !! method = Some handler)).
  - intros n p _ n' l. unfold bindHandler.
    destruct (handlers n !! method); intros [= <- <-].
    eexists. split; [reflexivity|]. cbn. by rewrite lookup_insert_eq.
  - intros n p segment remaining c s c' r _ _ Hd _ IH n' l [= <- Hr].
    destruct r as [l'|]; [|discriminate]. cbn in Hr. inversion Hr; subst l.
    destruct (IH c' l' eq_refl) as (d & Hn & Hh). exists d. split; [|done].
    cbn [nodeAt]. by rewrite (child_attach _ _ _ (descend_link _ _ _ _ Hd)).
Qed.

Lemma addRoute_again method h1 m1 h2 m2 n p n1 l :
  addRoute n method p h1 m1 = (n1, inl l) →
  addRoute n1 method p h2 m2 = (n1, inr ErrRouteAlreadyExists).
Proof.
  revert n p n1 l. apply (addRoute_induction method h1 m1
    (λ n p res, ∀ n1 l, res = (n1, inl l) →
       addRoute n1 method p h2 m2 = (n1, inr ErrRouteAlreadyExists))).
  - intros n p Hp n1 l. unfold bindHandler.
    destruct (handlers n !! method) eqn:Hh; intros [= <- <-].
    rewrite addRoute_eq, Hp. unfold bindHandler. cbn.
    by rewrite lookup_insert_eq.
  - intros n p segment remaining c s c' r Hp Hseg Hd Hc IH n1 l [= <- Hr].
    destruct r as [l'|]; [|discriminate].
    rewrite addRoute_eq, Hp, Hseg.
    assert (path c' = path c) as Hpath.
    { change c' with (c', @inl Loc RouteErr l').1. rewrite <- Hc.
      apply addRoute_path. }
    rewrite (descend_attach _ _ _ _ _ Hd Hpath), (IH c' l' eq_refl).
    cbn [under].
    by rewrite (attach_attach _ _ _ _ (descend_link _ _ _ _ Hd)).
Qed.

(** A registration succeeds only at a node where the method was not
    bound. *)
Lemma addRoute_success_unbound method handler mws n p n' l d :
  addRoute n method p handler mws = (n', inl l) →
  nodeAt n l = Some d →
  handlers d !! method = None.
Proof.
  revert n p n' l d. apply (addRoute_induction method handler mws
    (λ n p res, ∀ n' l d, res = (n', inl l) → nodeAt n l = Some d →
       handlers d !! method = None)).
  - intros n p _ n' l d. unfold bindHandler.
    destruct (handlers n !! method) eqn:Hh; intros [= <- <-] [= <-]. done.
  - intros n p segment remaining c s c' r _ _ Hd _ IH n' l d [= <- Hr] Hn.
    destruct r as [l'|]; [|discriminate]. cbn in Hr. inversion Hr; subst l.
    cbn in Hn. destruct (child n s) as [x|] eqn:Hx; [|discriminate].
    destruct (descend_cases _ _ _ _ Hd) as [Hc|(Hnone & _)]; [|congruence].
    assert (x = c) as -> by congruence. by eapply IH.
Qed.

(** C4. A second registration of the same method and path returns
    [ErrRouteAlreadyExists] and leaves the tree as it was: the node that the
    first registration returned still holds the first handler.  A
    registration succeeds only where the destination node had no handler for
    the method, and one that returns an error has changed nothing in the
    tree (no node created, no middleware appended, no handler written); its
    error is [ErrRouteAlreadyExists]. *)
Theorem addRoute_duplicate_rejected n method p h1 m1 n1 l :
  addRoute n method p h1 m1 = (n1, inl l) →
  (∀ h2 m2,
     addRoute n1 method p h2 m2 = (n1, inr ErrRouteAlreadyExists)
     ∧ RouteOn n1 method p h2 m2
       = (n1, inr (NewRouteError method p ErrRouteAlreadyExists)))
  ∧ (∃ d, nodeAt n1 l = Some d ∧ handlers d !! method = Some h1)
  ∧ (∀ d, nodeAt n l = Some d → handlers d !! method = None)
  ∧ (∀ n0 method' p' h' m' n' e,
       addRoute n0 method' p' h' m' = (n', inr e) →
       n' = n0 ∧ e = ErrRouteAlreadyExists).
Proof.
  intros H. split_and!.
  - intros h2 m2. unfold RouteOn.
    by rewrite (addRoute_again _ _ _ h2 m2 _ _ _ _ H).
  - by eapply addRoute_destination.
  - intros d. by eapply addRoute_success_unbound.
  - intros n0 method' p' h' m' n' e. apply addRoute_error.
Qed.

(** [(GET, "/users")] registered twice on a new root. *)
Lemma addRoute_duplicate_rejected_witness :
  let n1 := (addRoute newRoot "GET" "/users" (Func "first") []).1 in
  addRoute n1 "GET" "/users" (Func "second") [Mw "m"]
  = (n1, inr ErrRouteAlreadyExists)
  ∧ Find n1 "GET" "/users"
    = inl {| Method := "GET"; Path := "/users"; Handler := Func "first";
             Middlewares := []; PathParams := ∅ |}.
Proof.
  cbv zeta. split; [|vm_compute; reflexivity].
  refine (proj1 (proj1 (addRoute_duplicate_rejected newRoot "GET" "/users"
                   (Func "first") [] _ [InStatic 0] _) (Func "second") [Mw "m"])).
  vm_compute; reflexivity.
Defined.

(** ** The leading slash *)

(** The path recorded in the route is carried along and decides nothing. *)
Lemma find_setPath n : ∀ anc method p route x,
  find n anc method p (setPath route x)
  = ((find n anc method p route).1, setPath (find n anc method p route).2 x).
Proof.
  induction n as [n IHs IHp IHw] using RouteNode_ind.
  intros anc method p route x. rewrite !find_eq.
  destruct (consumed p).
  { by destruct (handlers n !! method). }
  destruct (getPathSegment (stripSlash p)) as [segment remaining].
  destruct (scanStatic segment (static n)) as [[i c]|] eqn:Hs.
  { apply scanStatic_elem in Hs. rewrite Forall_forall in IHs. by apply IHs. }
  rewrite !afterStatic_eq. cbv zeta.
  assert (∀ route0,
    match wildcard n with
    | Some w => find w (anc ++ [n]) method ""
                  (bound (setPath route0 x) (paramName w) (segment +:+ remaining))
    | None => (Some ErrRouteNotFound, setPath route0 x)
    end
    = (match wildcard n with
       | Some w => find w (anc ++ [n]) method ""
                     (bound route0 (paramName w) (segment +:+ remaining))
       | None => (Some ErrRouteNotFound, route0)
       end.1,
       setPath (match wildcard n with
                | Some w => find w (anc ++ [n]) method ""
                              (bound route0 (paramName w) (segment +:+ remaining))
                | None => (Some ErrRouteNotFound, route0)
                end.2) x)) as Hwild.
  { intros route0. destruct (wildcard n) as [w|]; [|done].
    change (bound (setPath route0 x) (paramName w) (segment +:+ remaining))
      with (setPath (bound route0 (paramName w) (segment +:+ remaining)) x).
    apply IHw. }
  destruct (param n) as [c|]; [|apply Hwild].
  change (bound (setPath route x) (paramName c) segment)
    with (setPath (bound route (paramName c) segment) x).
  cbn in IHp. rewrite IHp.
  destruct (find c (anc ++ [n]) method remaining (bound route (paramName c) segment))
    as [[e|] r]; cbn [fst snd]; [|done].
  change (setPathParams (setPath r x) ∅) with (setPath (setPathParams r ∅) x).
  apply Hwild.
Qed.

Lemma Find_find n method p :
  Find n method p =
  match find n [] method p (newRoute method "") with
  | (None, r) => inl (setPath r p)
  | (Some e, _) => inr (NewRouteError method p e)
  end.
Proof.
  unfold Find. change {| Method := method; Path := p; Handler := NilFunc;
                         Middlewares := []; PathParams := ∅ |}
    with (setPath (newRoute method "") p).
  rewrite find_setPath. by destruct (find n [] method p _) as [[e|] r].
Qed.

Lemma find_leading_slash n anc method p route :
  beginsWithSlash p = false →
  find n anc method ("/" +:+ p) route = find n anc method p route.
Proof.
  intros Hb. destruct p as [|c s]; [by rewrite !find_eq|].
  cbn in Hb. rewrite (find_eq _ _ _ (String c s)), (find_eq _ _ _ ("/" +:+ _)).
  assert (consumed (String c s) = false) as ->.
  { apply consumed_false. split; [done|]. intros [= -> _]. done. }
  assert (consumed ("/" +:+ String c s) = false) as -> by done.
  change (stripSlash ("/" +:+ String c s)) with (String c s).
  cbn [stripSlash]. by rewrite Hb.
Qed.

Lemma addRoute_leading_slash n method p handler mws :
  beginsWithSlash p = false →
  addRoute n method ("/" +:+ p) handler mws = addRoute n method p handler mws.
Proof.
  intros Hb. destruct p as [|c s]; [by rewrite !addRoute_eq|].
  cbn in Hb.
  rewrite (addRoute_eq _ _ (String c s)), (addRoute_eq _ _ ("/" +:+ _)).
  assert (consumed (String c s) = false) as ->.
  { apply consumed_false. split; [done|]. intros [= -> _]. done. }
  assert (consumed ("/" +:+ String c s) = false) as -> by done.
  change (stripSlash ("/" +:+ String c s)) with (String c s).
  cbn [stripSlash]. by rewrite Hb.
Qed.

(** C6. A path that does not begin with a slash is inserted and looked up
    as the path with the slash in front: insertion gives the same tree and
    the same result, the matcher returns the same state, and [Find] resolves
    to the same handler, middleware chain and parameter mapping (or to the
    same error). *)
Theorem leading_slash_is_optional n method p :
  beginsWithSlash p = false →
  (∀ handler mws,
     addRoute n method p handler mws = addRoute n method ("/" +:+ p) handler mws)
  ∧ (∀ anc route,
       find n anc method p route = find n anc method ("/" +:+ p) route)
  ∧ sameResolution (Find n method p) (Find n method ("/" +:+ p)).
Proof.
  intros Hb. split_and!.
  - intros handler mws. by rewrite addRoute_leading_slash.
  - intros anc route. by rewrite find_leading_slash.
  - rewrite !Find_find, find_leading_slash by done.
    by destruct (find n [] method p _) as [[e|] r].
Qed.

(** [users] and [/users] on a new root. *)
Lemma leading_slash_is_optional_witness :
  addRoute newRoot "GET" "users" (Func "users") []
  = addRoute newRoot "GET" ("/" +:+ "users") (Func "users") []
  ∧ sameResolution
      (Find (addRoute newRoot "GET" "users" (Func "users") []).1 "GET" "users")
      (Find (addRoute newRoot "GET" "users" (Func "users") []).1 "GET"
         ("/" +:+ "users")).
Proof.
  split.
  - apply (proj1 (leading_slash_is_optional newRoot "GET" "users" eq_refl)).
  - apply (proj2 (proj2 (leading_slash_is_optional _ "GET" "users" eq_refl))).
Defined.

(** ** The middleware chain *)

Lemma linked_cons a b ns : isChild a b → linked (b :: ns) → linked (a :: b :: ns).
Proof. by split. Qed.

(** A successful [find] ends at a node below [n] that holds the handler, and
    has appended to the chain the middleware of the ancestors and of the
    nodes from [n] down to that node. *)
Lemma find_found n : ∀ anc method p route result,
  find n anc method p route = (None, result) →
  ∃ ns d, linked (n :: ns) ∧ last (n :: ns) = Some d ∧
    handlers d !! method = Some (Handler result) ∧
    Middlewares result
    = Middlewares route ++ concat (middlewares <$> anc)
      ++ concat (middlewares <$> (n :: ns)).
Proof.
  induction n as [n IHs IHp IHw] using RouteNode_ind.
  intros anc method p route result H. rewrite find_eq in H.
  assert (∀ c route0 q,
    isChild n c →
    Middlewares route0 = Middlewares route →
    (∀ anc method p route result,
       find c anc method p route = (None, result) →
       ∃ ns d, linked (c :: ns) ∧ last (c :: ns) = Some d ∧
         handlers d !! method = Some (Handler result) ∧
         Middlewares result
         = Middlewares route ++ concat (middlewares <$> anc)
           ++ concat (middlewares <$> (c :: ns))) →
    find c (anc ++ [n]) method q route0 = (None, result) →
    ∃ ns d, linked (n :: ns) ∧ last (n :: ns) = Some d ∧
      handlers d !! method = Some (Handler result) ∧
      Middlewares result
      = Middlewares route ++ concat (middlewares <$> anc)
        ++ concat (middlewares <$> (n :: ns))) as Hchild.
  { intros c route0 q Hch Hm IH Hc.
    destruct (IH _ _ _ _ _ Hc) as (ns & d & Hl & Hlast & Hh & Hmw).
    exists (c :: ns), d. split_and!; [by apply linked_cons|done..|].
    rewrite Hmw, Hm, fmap_app, concat_app. cbn.
    by rewrite app_nil_r, <- !app_assoc. }
  destruct (consumed p).
  { destruct (handlers n !! method) as [h|] eqn:Hh; [|discriminate].
    inversion H; subst result. exists [], n. cbn.
    split_and!; [done..|].
    unfold collectMiddlewares. rewrite collectMiddlewares_chain_eq.
    by rewrite app_nil_r, <- app_assoc. }
  destruct (getPathSegment (stripSlash p)) as [segment remaining].
  destruct (scanStatic segment (static n)) as [[i c]|] eqn:Hs.
  { apply scanStatic_elem in Hs. rewrite Forall_forall in IHs.
    eapply (Hchild c); [by left|reflexivity|by apply IHs|done]. }
  rewrite afterStatic_eq in H. cbv zeta in H.
  destruct (param n) as [c|] eqn:Hp.
  - destruct (find c _ _ _ _) as [[e|] r] eqn:Hc.
    + apply find_failed in Hc as (_ & _ & _ & _ & Hm). cbn in Hm.
      destruct (wildcard n) as [w|] eqn:Hw; [|discriminate].
      eapply (Hchild w); [by right; right| |exact IHw|exact H]. done.
    + inversion H; subst r.
      eapply (Hchild c); [by right; left| |exact IHp|exact Hc]. done.
  - destruct (wildcard n) as [w|] eqn:Hw; [|discriminate].
    eapply (Hchild w); [by right; right| |exact IHw|exact H]. done.
Qed.

(** C8. The middleware chain of a route that [Find] returns is the
    concatenation of the local middleware of the nodes on the path from the
    root to the matched node, root first: the middleware of a node comes
    before that of the nodes below it, in whatever order the routes were
    registered.  In [mwTree], [/api/users] gets the middleware of the root,
    then of the group, then of the route, and that of the sibling [/other]
    is not in it. *)
Theorem Find_middleware_chain :
  (∀ n method p route,
     Find n method p = inl route →
     ∃ ns d, linked (n :: ns) ∧ last (n :: ns) = Some d ∧
       handlers d !! method = Some (Handler route) ∧
       Middlewares route = concat (middlewares <$> (n :: ns)))
  ∧ Find mwTree "GET" "/api/users"
    = inl {| Method := "GET"; Path := "/api/users"; Handler := Func "users";
             Middlewares := [Mw "root"; Mw "api"; Mw "users"];
             PathParams := ∅ |}.
Proof.
  split; [|vm_compute; reflexivity].
  intros n method p route H. unfold Find in H.
  destruct (find n [] method p _) as [[e|] r] eqn:Hf; [discriminate|].
  inversion H; subst r.
  destruct (find_found _ _ _ _ _ _ Hf) as (ns & d & Hl & Hlast & Hh & Hm).
  exists ns, d. split_and!; [done..|]. by rewrite Hm.
Qed.

(** The chain of [/api/users] in [mwTree], node by node. *)
Lemma Find_middleware_chain_witness :
  ∃ ns d, linked (mwTree :: ns) ∧ last (mwTree :: ns) = Some d ∧
    handlers d !! "GET" = Some (Func "users") ∧
    [Mw "root"; Mw "api"; Mw "users"] = concat (middlewares <$> (mwTree :: ns)).
Proof.
  apply (proj1 Find_middleware_chain mwTree "GET" "/api/users"
           {| Method := "GET"; Path := "/api/users"; Handler := Func "users";
              Middlewares := [Mw "root"; Mw "api"; Mw "users"];
              PathParams := ∅ |}).
  vm_compute; reflexivity.
Defined.

(** ** Invariants under registration *)

Lemma routeType_attach n s c : routeType (attach n s c) = routeType n.
Proof. destruct s; cbn; [case_decide|..]; reflexivity. Qed.

Lemma handlers_attach n s c : handlers (attach n s c) = handlers n.
Proof. destruct s; cbn; [case_decide|..]; reflexivity. Qed.

Lemma addRoute_routeType n method p handler mws :
  routeType (addRoute n method p handler mws).1 = routeType n.
Proof.
  rewrite addRoute_eq. destruct (consumed p).
  - unfold bindHandler. by destruct (handlers n !! method).
  - destruct (getPathSegment (stripSlash p)) as [segment remaining].
    destruct (descend n segment) as [c s].
    destruct (addRoute c method remaining handler mws) as [c' r].
    apply routeType_attach.
Qed.

Lemma wellFormed_inv n :
  wellFormed n →
  nodeOk n ∧ Forall wellFormed (static n) ∧
  (∀ c, param n = Some c → wellFormed c) ∧
  (∀ c, wildcard n = Some c → wellFormed c).
Proof. by intros []. Qed.

Lemma wellFormed_child n s c : wellFormed n → child n s = Some c → wellFormed c.
Proof.
  intros (_ & Hs & Hp & Hw)%wellFormed_inv Hc. destruct s as [i| |]; cbn in Hc.
  - rewrite Forall_forall in Hs. apply Hs. by eapply list_elem_of_lookup_2.
  - by apply Hp.
  - by apply Hw.
Qed.

Lemma wellFormed_nodeAt n l d : wellFormed n → nodeAt n l = Some d → wellFormed d.
Proof.
  revert n. induction l as [|s l IH]; intros n Hn H; cbn in H.
  - inversion H; subst. exact Hn.
  - destruct (child n s) as [c|] eqn:Hc; [|discriminate].
    eapply IH; [|exact H]. by eapply wellFormed_child.
Qed.

Lemma wellFormed_fresh n : fresh n → wellFormed n.
Proof.
  intros (_ & Hs & Hp & Hw). constructor.
  - unfold nodeOk. rewrite Hs, Hp, Hw. split_and!; [constructor|done..].
  - rewrite Hs. constructor.
  - by rewrite Hp.
  - by rewrite Hw.
Qed.

(** The kind of the node that [descend] returns is that of its link. *)
Lemma descend_kind n segment c s :
  nodeOk n →
  descend n segment = (c, s) →
  routeType c = match s with
                | InStatic _ => RouteTypeStatic
                | InParam => RouteTypeParam
                | InWildcard => RouteTypeWildcard
                end.
Proof.
  intros (_ & Hs & Hp & Hw). unfold descend.
  destruct (getRouteTypeFromSegment segment) as [[] name];
    try (destruct (scanStatic segment (static n)) as [[i d]|] eqn:Hscan;
         intros [= <- <-]; [|done];
         apply scanStatic_elem in Hscan; rewrite Forall_forall in Hs;
         by apply Hs).
  - destruct (param n) as [d|] eqn:E; intros [= <- <-]; [by apply Hp|done].
  - destruct (wildcard n) as [d|] eqn:E; intros [= <- <-]; [by apply Hw|done].
Qed.

(** Replacing a child by a well-formed node of the same text and kind keeps
    the tree well formed. *)
Lemma wellFormed_replace n s c c' :
  wellFormed n →
  child n s = Some c →
  path c' = path c → routeType c' = routeType c →
  wellFormed c' →
  wellFormed (attach n s c').
Proof.
  intros ((Hnd & Hst & Hpk & Hwk) & Hs & Hp & Hw)%wellFormed_inv Hc Hpath Hkind Hc'.
  destruct s as [i| |]; cbn in Hc; cbn [attach].
  - rewrite decide_True by (by eapply lookup_lt_Some).
    constructor; cbn [static param wildcard setStatic].
    + unfold nodeOk; cbn [static param wildcard setStatic].
      split; [|split; [|split]]; [| |exact Hpk|exact Hwk].
      * rewrite list_fmap_insert, Hpath, list_insert_id; [exact Hnd|].
        by rewrite list_lookup_fmap, Hc.
      * apply Forall_insert; [exact Hst|]. rewrite Hkind.
        rewrite Forall_forall in Hst. apply Hst. by eapply list_elem_of_lookup_2.
    + by apply Forall_insert.
    + exact Hp.
    + exact Hw.
  - constructor; cbn [static param wildcard setParam].
    + unfold nodeOk; cbn [static param wildcard setParam].
      split; [|split; [|split]]; [exact Hnd|exact Hst| |exact Hwk].
      intros d [= <-]. rewrite Hkind. by apply Hpk.
    + exact Hs.
    + by intros d [= <-].
    + exact Hw.
  - constructor; cbn [static param wildcard setWildcard].
    + unfold nodeOk; cbn [static param wildcard setWildcard].
      split; [|split; [|split]]; [exact Hnd|exact Hst|exact Hpk|].
      intros d [= <-]. rewrite Hkind. by apply Hwk.
    + exact Hs.
    + exact Hp.
    + by intros d [= <-].
Qed.

Lemma descend_new_static n segment c i :
  descend n segment = (c, InStatic i) →
  child n (InStatic i) = None →
  scanStatic segment (static n) = None.
Proof.
  unfold descend. cbn [child]. intros Hd Hnone.
  destruct (getRouteTypeFromSegment segment) as [[] name]; try discriminate;
    (destruct (scanStatic segment (static n)) as [[j e]|] eqn:E; [|reflexivity]);
    inversion Hd; subst; apply scanStatic_Some in E as (E & _); congruence.
Qed.

Lemma wellFormed_attach n segment c s c' :
  wellFormed n →
  descend n segment = (c, s) →
  path c' = path c → routeType c' = routeType c →
  wellFormed c' →
  wellFormed (attach n s c').
Proof.
  intros Hn Hd Hpath Hkind Hc'.
  destruct (descend_cases _ _ _ _ Hd) as [Hc|(Hnone & Hf & Hseg & Hi)].
  { by eapply wellFormed_replace. }
  pose proof (wellFormed_inv _ Hn) as (Hok & Hs & Hp & Hw).
  pose proof (descend_kind _ _ _ _ Hok Hd) as Hk.
  destruct Hok as (Hnd & Hst & Hpk & Hwk).
  destruct s as [i| |]; cbn [attach].
  - pose proof (descend_new_static _ _ _ _ Hd Hnone) as Hscan.
    rewrite (Hi i eq_refl), decide_False by lia.
    constructor; cbn [static param wildcard setStatic].
    + unfold nodeOk; cbn [static param wildcard setStatic].
      split; [|split; [|split]]; [| |exact Hpk|exact Hwk].
      * rewrite fmap_app. cbn [fmap list_fmap]. apply NoDup_app.
        split; [exact Hnd|split; [|apply NoDup_singleton]].
        intros x Hx Hx'. apply list_elem_of_singleton in Hx'. subst x.
        apply list_elem_of_fmap in Hx as (d & Hd1 & Hd2).
        rewrite scanStatic_None in Hscan. apply (Hscan d Hd2). congruence.
      * apply Forall_app. split; [exact Hst|]. apply Forall_singleton. congruence.
    + apply Forall_app. split; [exact Hs|]. by apply Forall_singleton.
    + exact Hp.
    + exact Hw.
  - cbn in Hnone. constructor; cbn [static param wildcard setParam].
    + unfold nodeOk; cbn [static param wildcard setParam].
      split; [|split; [|split]]; [exact Hnd|exact Hst| |exact Hwk].
      intros d [= <-]. congruence.
    + exact Hs.
    + by intros d [= <-].
    + exact Hw.
  - cbn in Hnone. constructor; cbn [static param wildcard setWildcard].
    + unfold nodeOk; cbn [static param wildcard setWildcard].
      split; [|split; [|split]]; [exact Hnd|exact Hst|exact Hpk|].
      intros d [= <-]. congruence.
    + exact Hs.
    + exact Hp.
    + by intros d [= <-].
Qed.

Lemma addRoute_wellFormed method handler mws n p :
  wellFormed n → wellFormed (addRoute n method p handler mws).1.
Proof.
  revert n p. apply (addRoute_induction method handler mws
    (λ n p res, wellFormed n → wellFormed res.1)).
  - intros n p _ Hn. pose proof (wellFormed_inv _ Hn) as (Hok & Hs & Hp & Hw).
    unfold bindHandler. destruct (handlers n !! method); [exact Hn|].
    constructor; [exact Hok|exact Hs|exact Hp|exact Hw].
  - intros n p segment remaining c s c' r _ _ Hd Hc IH Hn. cbn [fst].
    assert (wellFormed c) as Hcwf.
    { destruct (descend_cases _ _ _ _ Hd) as [Hch|(_ & Hf & _)].
      - by eapply wellFormed_child.
      - by apply wellFormed_fresh. }
    eapply wellFormed_attach; [done..| | |by apply IH].
    + change c' with (c', r).1. rewrite <- Hc. apply addRoute_path.
    + change c' with (c', r).1. rewrite <- Hc. apply addRoute_routeType.
Qed.

Lemma callAt_wellFormed {R} (f : RouteNode → RouteNode * R) :
  (∀ n, wellFormed n →
        wellFormed (f n).1 ∧ path (f n).1 = path n
        ∧ routeType (f n).1 = routeType n) →
  ∀ l t t' r,
    wellFormed t → callAt f t l = Some (t', r) →
    wellFormed t' ∧ path t' = path t ∧ routeType t' = routeType t.
Proof.
  intros Hf. induction l as [|s l IH]; intros t t' r Ht H; cbn in H.
  - inversion H as [E]. change t' with (t', r).1. rewrite <- E. by apply Hf.
  - destruct (child t s) as [c|] eqn:Hc; [|discriminate].
    destruct (callAt f c l) as [[c' r']|] eqn:Hcall; [|discriminate].
    inversion H; subst t' r'.
    destruct (IH c c' r (wellFormed_child _ _ _ Ht Hc) Hcall) as (Hwf & Hp & Hk).
    split; [|split].
    + by eapply wellFormed_replace.
    + apply path_attach.
    + apply routeType_attach.
Qed.

Lemma reachable_wellFormed t : reachable t → wellFormed t.
Proof.
  induction 1 as [|t l method p handler mws t' r _ IH H|t l mws t' _ IH H].
  - by apply wellFormed_fresh.
  - eapply (callAt_wellFormed (λ n, addRoute n method p handler mws)); [|done..].
    intros n Hn. split; [|split].
    + by apply addRoute_wellFormed.
    + apply addRoute_path.
    + apply addRoute_routeType.
  - eapply (callAt_wellFormed (λ n, (Use n mws, ()))); [|done..].
    intros n Hn. cbn. split; [|done].
    pose proof (wellFormed_inv _ Hn) as (Hok & Hs & Hp & Hw).
    constructor; [exact Hok|exact Hs|exact Hp|exact Hw].
Qed.

(** ** Bindings are kept *)

Lemma keeps_refl n : keeps n n.
Proof. intros l d v h H1 H2. by exists d. Qed.

Lemma child_attach_other n s s0 c x :
  s0 ≠ s → child n s0 = Some x → child (attach n s c) s0 = Some x.
Proof.
  intros Hne Hx. destruct s as [i| |], s0 as [j| |]; cbn in *;
    try done; try (case_decide; done).
  assert (i ≠ j) by congruence.
  case_decide; cbn.
  - by rewrite list_lookup_insert_ne.
  - rewrite lookup_app_l; [done|]. by eapply lookup_lt_Some.
Qed.

Lemma keeps_attach n s c' :
  (∀ c, child n s = Some c → keeps c c') →
  (∀ i, s = InStatic i → i ≤ length (static n)) →
  keeps n (attach n s c').
Proof.
  intros Hk Hlink [|s0 l] d v h Hn Hh; cbn in Hn.
  - inversion Hn; subst d. exists (attach n s c'). split; [done|].
    by rewrite handlers_attach.
  - destruct (child n s0) as [x|] eqn:Hx; [|discriminate].
    destruct (decide (s0 = s)) as [->|Hne].
    + destruct (Hk x Hx l d v h Hn Hh) as (d' & Hd' & Hh').
      exists d'. split; [|done]. cbn. by rewrite child_attach.
    + exists d. split; [|done]. cbn.
      by rewrite (child_attach_other _ _ _ _ _ Hne Hx).
Qed.

Lemma addRoute_keeps method handler mws n p :
  keeps n (addRoute n method p handler mws).1.
Proof.
  revert n p. apply (addRoute_induction method handler mws
    (λ n p res, keeps n res.1)).
  - intros n p _. unfold bindHandler.
    destruct (handlers n !! method) eqn:Hm; [apply keeps_refl|].
    intros [|s0 l] d v h Hn Hh; cbn in Hn.
    + inversion Hn; subst d. eexists. split; [reflexivity|]. cbn.
      rewrite lookup_insert_ne; [done|]. congruence.
    + exists d. split; [|done]. by destruct s0.
  - intros n p segment remaining c s c' r _ _ Hd _ IH. cbn [fst].
    apply keeps_attach; [|by eapply descend_link].
    intros x Hx. destruct (descend_cases _ _ _ _ Hd) as [Hc|(Hnone & _)];
      [|congruence].
    assert (x = c) as -> by congruence. exact IH.
Qed.

Lemma callAt_keeps {R} (f : RouteNode → RouteNode * R) :
  (∀ n, keeps n (f n).1) →
  ∀ l t t' r, callAt f t l = Some (t', r) → keeps t t'.
Proof.
  intros Hf. induction l as [|s l IH]; intros t t' r H; cbn in H.
  - inversion H as [E]. change t' with (t', r).1. rewrite <- E. apply Hf.
  - destruct (child t s) as [c|] eqn:Hc; [|discriminate].
    destruct (callAt f c l) as [[c' r']|] eqn:Hcall; [|discriminate].
    inversion H; subst t' r'. apply keeps_attach.
    + intros x Hx. assert (x = c) as -> by congruence. by eapply IH.
    + intros i ->. cbn in Hc. apply lookup_lt_Some in Hc. lia.
Qed.

(** ** The invariants at every node *)

Lemma filter_kind_other (k k' : RouteType) (l : list RouteNode) :
  k ≠ k' →
  Forall (λ c, routeType c = k') l →
  filter (λ c, routeType c = k) l = [].
Proof.
  intros Hne. induction 1 as [|x l Hx _ IH]; [done|].
  rewrite filter_cons_False by congruence. exact IH.
Qed.

Lemma nodeOk_kinds n k :
  nodeOk n →
  k = RouteTypeParam ∨ k = RouteTypeWildcard →
  length (filter (λ c, routeType c = k) (children n)) ≤ 1.
Proof.
  intros (_ & Hst & Hp & Hw) Hk. unfold children.
  rewrite !filter_app, !length_app.
  rewrite (filter_kind_other k RouteTypeStatic) by (destruct Hk; by subst).
  cbn [length].
  destruct Hk as [->| ->].
  - rewrite (filter_kind_other _ RouteTypeWildcard (option_list (wildcard n)))
      by (done || destruct (wildcard n); repeat constructor; by apply Hw).
    pose proof (length_filter (λ c, routeType c = RouteTypeParam)
                  (option_list (param n))) as Hl.
    destruct (param n); cbn in *; lia.
  - rewrite (filter_kind_other _ RouteTypeParam (option_list (param n)))
      by (done || destruct (param n); repeat constructor; by apply Hp).
    pose proof (length_filter (λ c, routeType c = RouteTypeWildcard)
                  (option_list (wildcard n))) as Hl.
    destruct (wildcard n); cbn in *; lia.
Qed.

(** C7. In every tree that registrations build, at every node: at most one
    child is a parameter node and at most one is a wildcard node, the static
    children have pairwise distinct texts, and the handlers have one entry
    per method; and a registration never replaces a binding: every handler
    bound before it is bound after it, at the same node and method. *)
Theorem reachable_invariants t :
  reachable t →
  (∀ l n, nodeAt t l = Some n →
     length (filter (λ c, routeType c = RouteTypeParam) (children n)) ≤ 1 ∧
     length (filter (λ c, routeType c = RouteTypeWildcard) (children n)) ≤ 1 ∧
     NoDup (path <$> static n) ∧
     NoDup (map_to_list (handlers n)).*1)
  ∧ (∀ l method p handler mws t' r,
       callAt (λ n, addRoute n method p handler mws) t l = Some (t', r) →
       keeps t t').
Proof.
  intros Ht%reachable_wellFormed. split.
  - intros l n Hn.
    pose proof (wellFormed_nodeAt _ _ _ Ht Hn) as Hwf.
    apply wellFormed_inv in Hwf as (Hok & _).
    split; [|split; [|split]].
    + apply nodeOk_kinds; [done|by left].
    + apply nodeOk_kinds; [done|by right].
    + by destruct Hok.
    + apply NoDup_fst_map_to_list.
  - intros l method p handler mws t' r H.
    eapply (callAt_keeps (λ n, addRoute n method p handler mws)); [|exact H].
    intros n. apply addRoute_keeps.
Qed.

(** [priorityTree] is built by three registrations on a new root; the
    invariants at its node [/users], and the bindings that a fourth
    registration keeps. *)
Lemma reachable_invariants_witness :
  reachable priorityTree
  ∧ (let n := nodeAt' priorityTree [InStatic 0] in
     length (filter (λ c, routeType c = RouteTypeParam) (children n)) ≤ 1 ∧
     length (filter (λ c, routeType c = RouteTypeWildcard) (children n)) ≤ 1 ∧
     NoDup (path <$> static n) ∧
     NoDup (map_to_list (handlers n)).*1)
  ∧ keeps priorityTree
      (addRoute priorityTree "GET" "/users/{id}" (Func "again") []).1.
Proof.
  assert (reachable priorityTree) as H.
  { set (t1 := (GET newRoot "/users/admin" (Func "static") []).1).
    set (t2 := (GET t1 "/users/{id}" (Func "param") []).1).
    apply (reachable_route t2 [] "GET" "/users/*rest" (Func "wildcard") []
             priorityTree (inl [InStatic 0; InWildcard]));
      [|vm_compute; reflexivity].
    apply (reachable_route t1 [] "GET" "/users/{id}" (Func "param") []
             t2 (inl [InStatic 0; InParam]));
      [|vm_compute; reflexivity].
    apply (reachable_route newRoot [] "GET" "/users/admin" (Func "static") []
             t1 (inl [InStatic 0; InStatic 0]));
      [|vm_compute; reflexivity].
    apply reachable_new. }
  split; [exact H|]. split.
  - cbv zeta.
    apply (proj1 (reachable_invariants priorityTree H) [InStatic 0]).
    reflexivity.
  - apply (proj2 (reachable_invariants priorityTree H) [] "GET" "/users/{id}"
             (Func "again") [] _ (inr ErrRouteAlreadyExists)).
    vm_compute; reflexivity.
Defined.

(** ** Paths put together *)

Lemma endsWithSlash_cons c s :
  s ≠ "" → endsWithSlash (String c s) = endsWithSlash s.
Proof. by destruct s. Qed.

Lemma endsWithSlash_app a b :
  b ≠ "" → endsWithSlash (a +:+ b) = endsWithSlash b.
Proof.
  intros Hb. induction a as [|c a IH]; [done|].
  rewrite append_cons, endsWithSlash_cons; [done|].
  destruct a; [done|by rewrite append_cons].
Qed.

Lemma cutSlash_app_Some u a b p :
  cutSlash u = (a, Some b) → cutSlash (u +:+ p) = (a, Some (b +:+ p)).
Proof.
  revert a. induction u as [|c u IH]; intros a H; cbn in H; [discriminate|].
  rewrite append_cons. cbn [cutSlash].
  destruct (Ascii.eqb c "/"); [by inversion H|].
  destruct (cutSlash u) as [a' b']. inversion H; subst.
  by rewrite (IH a' eq_refl).
Qed.

Lemma cutSlash_app_None u a p :
  cutSlash u = (a, None) →
  cutSlash (u +:+ p) = ((a +:+ (cutSlash p).1), (cutSlash p).2).
Proof.
  revert a. induction u as [|c u IH]; intros a H; cbn in H.
  - inversion H; subst. rewrite !append_empty_l. by destruct (cutSlash p).
  - rewrite append_cons. cbn [cutSlash].
    destruct (Ascii.eqb c "/"); [discriminate|].
    destruct (cutSlash u) as [a' b']. inversion H; subst.
    by rewrite (IH a' eq_refl).
Qed.

Lemma stripSlash_app prefix p :
  prefix ≠ "" → stripSlash (prefix +:+ p) = stripSlash prefix +:+ p.
Proof.
  destruct prefix as [|c s]; [done|]. intros _.
  rewrite append_cons. cbn [stripSlash]. by destruct (Ascii.eqb c "/").
Qed.

Lemma consumed_app prefix p : consumed prefix = false → consumed (prefix +:+ p) = false.
Proof.
  intros [H1 H2]%consumed_false. apply consumed_false.
  destruct prefix as [|c [|c' s]]; [done| |done].
  rewrite append_cons, append_empty_l. split; [done|].
  intros [= -> ->]. done.
Qed.

(** The first segment of [prefix + p] is that of [prefix], and the rest is
    the rest of [prefix] followed by [p], when [prefix] does not end with a
    slash and [p] is empty or begins with one. *)
Lemma getPathSegment_app prefix p segment remaining :
  consumed prefix = false →
  endsWithSlash prefix = false →
  p = "" ∨ beginsWithSlash p = true →
  getPathSegment (stripSlash prefix) = (segment, remaining) →
  endsWithSlash remaining = false ∧
  ∃ remaining',
    getPathSegment (stripSlash (prefix +:+ p)) = (segment, remaining') ∧
    (remaining' = remaining +:+ p
     ∨ (consumed remaining' = true ∧ consumed (remaining +:+ p) = true)).
Proof.
  intros Hc He Hp Hseg.
  pose proof Hc as [Hne Hns]%consumed_false.
  rewrite stripSlash_app by done.
  assert (endsWithSlash (stripSlash prefix) = false) as Heu.
  { destruct prefix as [|c s]; [done|]. cbn [stripSlash].
    destruct (Ascii.eqb c "/") eqn:E; [|done].
    apply Ascii.eqb_eq in E as ->.
    rewrite endsWithSlash_cons in He; [done|]. by intros ->. }
  revert Hseg Heu. generalize (stripSlash prefix) as u. intros u Hseg Heu.
  unfold getPathSegment, SplitN2 in *.
  destruct (cutSlash u) as [a [b|]] eqn:Hu.
  - rewrite (cutSlash_app_Some _ _ _ p Hu).
    apply cutSlash_Some in Hu as [-> _].
    assert (b ≠ "") as Hb.
    { intros ->. rewrite endsWithSlash_app in Heu; done. }
    assert ((b =? "")%string = false) as Hb' by by apply String.eqb_neq.
    rewrite Hb' in Hseg. inversion Hseg; subst. split.
    + rewrite endsWithSlash_app in Heu; [exact Heu|done].
    + eexists. split; [reflexivity|]. left.
      assert ((b +:+ p =? "")%string = false) as ->.
      { apply String.eqb_neq. destruct b; [done|by rewrite append_cons]. }
      by rewrite append_cons, append_empty_l.
  - rewrite (cutSlash_app_None _ _ p Hu). inversion Hseg; subst.
    split; [done|].
    destruct Hp as [->|Hp].
    + cbn. rewrite append_empty_r. eexists. split; [reflexivity|]. by left.
    + destruct p as [|c p']; [done|]. cbn in Hp. cbn [cutSlash]. rewrite Hp.
      apply Ascii.eqb_eq in Hp as ->. cbn [fst snd]. rewrite append_empty_r.
      eexists. split; [reflexivity|].
      destruct (p' =? "")%string eqn:E.
      * apply String.eqb_eq in E as ->. by right.
      * left. by rewrite append_empty_l.
Qed.

(** ** Paths that meet with one slash *)

Lemma noSlash_endsWithSlash a : noSlash a = true → endsWithSlash a = false.
Proof.
  induction a as [|c a IH]; [done|]. cbn [noSlash].
  intros [Hc Ha]%andb_true_iff. apply negb_true_iff in Hc.
  destruct a as [|c' a']; [exact Hc|].
  rewrite endsWithSlash_cons by done. by apply IH.
Qed.

Lemma junction_consumed prefix p :
  consumed prefix = true → junction prefix p → samePath (prefix +:+ p) p.
Proof.
  intros [->| ->]%consumed_iff Hj.
  - left. by rewrite append_empty_l.
  - destruct Hj as [->|[?|Hj]]; [by right; left|done|].
    right. right. split; [done|].
    cbn in Hj. by destruct (beginsWithSlash p).
Qed.

(** The first segment of [prefix + p] is that of [prefix], and what is left
    is treated as what is left of [prefix], followed by [p], which meet with
    one slash again. *)
Lemma getPathSegment_junction prefix p segment remaining :
  consumed prefix = false →
  junction prefix p →
  getPathSegment (stripSlash prefix) = (segment, remaining) →
  junction remaining p ∧
  ∃ remaining',
    getPathSegment (stripSlash (prefix +:+ p)) = (segment, remaining') ∧
    samePath remaining' (remaining +:+ p).
Proof.
  intros Hc Hj Hseg.
  pose proof Hc as [Hne Hns]%consumed_false.
  destruct Hj as [->|[->|Hj]]; [|done|].
  { split; [by left|]. exists remaining. rewrite !append_empty_r.
    split; [done|by left]. }
  destruct (endsWithSlash prefix) eqn:He.
  - (* the prefix ends with the slash *)
    assert (beginsWithSlash p = false) as Hb by by destruct (beginsWithSlash p).
    rewrite stripSlash_app by done.
    assert (endsWithSlash (stripSlash prefix) = true) as Heu.
    { destruct prefix as [|c s]; [done|]. cbn [stripSlash].
      destruct (Ascii.eqb c "/") eqn:E; [|done].
      apply Ascii.eqb_eq in E as ->.
      rewrite endsWithSlash_cons in He; [done|]. by intros ->. }
    revert Hseg Heu. generalize (stripSlash prefix) as u. intros u Hseg Heu.
    unfold getPathSegment, SplitN2 in *.
    destruct (cutSlash u) as [a [b|]] eqn:Hu.
    + rewrite (cutSlash_app_Some _ _ _ p Hu).
      apply cutSlash_Some in Hu as [-> _].
      destruct (b =? "")%string eqn:Eb.
      * apply String.eqb_eq in Eb as ->. inversion Hseg; subst.
        split; [by right; left|]. rewrite !append_empty_l.
        eexists. split; [reflexivity|].
        destruct (p =? "")%string eqn:Ep.
        -- apply String.eqb_eq in Ep as ->. by left.
        -- right. right. done.
      * apply String.eqb_neq in Eb. inversion Hseg; subst. split.
        -- right. right. rewrite Hb.
           rewrite append_cons, append_empty_l, endsWithSlash_cons by done.
           rewrite !endsWithSlash_app in Heu; [|done|by destruct b].
           by rewrite Heu.
        -- eexists. split; [reflexivity|]. left.
           assert ((b +:+ p =? "")%string = false) as ->.
           { apply String.eqb_neq. destruct b; [done|by rewrite append_cons]. }
           by rewrite !append_cons, !append_empty_l.
    + apply cutSlash_None in Hu as [-> Hn].
      by rewrite (noSlash_endsWithSlash _ Hn) in Heu.
  - (* the path begins with the slash *)
    assert (beginsWithSlash p = true) as Hb by by destruct (beginsWithSlash p).
    destruct (getPathSegment_app prefix p segment remaining Hc He
                (or_intror Hb) Hseg) as (He' & remaining' & Hseg' & Hcase).
    split.
    + right. right. by rewrite He', Hb.
    + exists remaining'. split; [done|].
      destruct Hcase as [->|?]; [by left|by right; left].
Qed.

Lemma addRoute_samePath n method a b handler mws :
  samePath a b →
  addRoute n method a handler mws = addRoute n method b handler mws.
Proof.
  intros [->|[[Ha Hb]|[-> Hb]]]; [done| |].
  - by rewrite !addRoute_eq, Ha, Hb.
  - by apply addRoute_leading_slash.
Qed.

(** ** Trees that agree for a method *)

Lemma agree_inv method n1 n2 :
  agree method n1 n2 →
  path n1 = path n2 ∧ paramName n1 = paramName n2 ∧
  middlewares n1 = middlewares n2 ∧
  handlers n1 !! method = handlers n2 !! method ∧
  Forall2 (agree method) (static n1) (static n2) ∧
  option_Forall2 (agree method) (param n1) (param n2) ∧
  option_Forall2 (agree method) (wildcard n1) (wildcard n2).
Proof. by intros []. Qed.

Lemma agree_refl method n : agree method n n.
Proof.
  induction n as [n IHs IHp IHw] using RouteNode_ind.
  constructor; try reflexivity.
  - induction IHs; constructor; assumption.
  - destruct (param n); constructor. exact IHp.
  - destruct (wildcard n); constructor. exact IHw.
Qed.

Lemma scanStatic_agree method segment l1 l2 :
  Forall2 (agree method) l1 l2 →
  match scanStatic segment l1, scanStatic segment l2 with
  | Some (i1, c1), Some (i2, c2) => i1 = i2 ∧ agree method c1 c2
  | None, None => True
  | _, _ => False
  end.
Proof.
  induction 1 as [|x y l1 l2 Hxy _ IH]; cbn; [done|].
  pose proof (agree_inv _ _ _ Hxy) as (Hp & _). rewrite <- Hp.
  destruct (path x =? segment)%string; [done|].
  destruct (scanStatic segment l1) as [[i1 c1]|],
           (scanStatic segment l2) as [[i2 c2]|]; try done.
  destruct IH as [-> ?]. done.
Qed.

(** [find] gives the same result in trees that agree for the method. *)
Lemma find_agree method n1 : ∀ n2 anc1 anc2 p route,
  agree method n1 n2 →
  middlewares <$> anc1 = middlewares <$> anc2 →
  find n1 anc1 method p route = find n2 anc2 method p route.
Proof.
  induction n1 as [n1 IHs IHp IHw] using RouteNode_ind.
  intros n2 anc1 anc2 p route Hagree Hanc.
  pose proof (agree_inv _ _ _ Hagree) as (_ & _ & Hm & Hh & Hs & Hp & Hw).
  assert (middlewares <$> (anc1 ++ [n1]) = middlewares <$> (anc2 ++ [n2])) as Hanc'.
  { rewrite !fmap_app, Hanc. cbn. by rewrite Hm. }
  rewrite !find_eq. destruct (consumed p).
  { rewrite Hh. destruct (handlers n2 !! method); [|done].
    unfold collectMiddlewares. by rewrite !collectMiddlewares_chain_eq, Hanc, Hm. }
  destruct (getPathSegment (stripSlash p)) as [segment remaining].
  pose proof (scanStatic_agree method segment _ _ Hs) as Hscan.
  destruct (scanStatic segment (static n1)) as [[i1 c1]|] eqn:E1,
           (scanStatic segment (static n2)) as [[i2 c2]|] eqn:E2; try done.
  { destruct Hscan as [_ Hc]. apply scanStatic_elem in E1.
    rewrite Forall_forall in IHs. by apply IHs. }
  rewrite !afterStatic_eq. cbv zeta.
  assert (∀ route0,
    match wildcard n1 with
    | Some w => find w (anc1 ++ [n1]) method ""
                  (bound route0 (paramName w) (segment +:+ remaining))
    | None => (Some ErrRouteNotFound, route0)
    end
    = match wildcard n2 with
      | Some w => find w (anc2 ++ [n2]) method ""
                    (bound route0 (paramName w) (segment +:+ remaining))
      | None => (Some ErrRouteNotFound, route0)
      end) as Hwild.
  { intros route0. destruct Hw as [w1 w2 Hw12|]; [|done].
    pose proof (agree_inv _ _ _ Hw12) as (_ & -> & _). cbn in IHw.
    by apply IHw. }
  destruct Hp as [c1 c2 Hc12|]; [|apply Hwild].
  pose proof (agree_inv _ _ _ Hc12) as (_ & -> & _). cbn in IHp.
  rewrite (IHp c2 _ (anc2 ++ [n2])) by done.
  destruct (find c2 _ _ _ _) as [[e|] r]; [apply Hwild|done].
Qed.

Lemma Find_agree method n1 n2 p :
  agree method n1 n2 → Find n1 method p = Find n2 method p.
Proof. intros H. unfold Find. by rewrite (find_agree _ _ n2 [] []). Qed.

Lemma descend_agree method n1 n2 segment c1 s :
  agree method n1 n2 →
  descend n1 segment = (c1, s) →
  ∃ c2, descend n2 segment = (c2, s) ∧ agree method c1 c2.
Proof.
  intros (_ & _ & _ & _ & Hs & Hp & Hw)%agree_inv. unfold descend.
  pose proof (scanStatic_agree method segment _ _ Hs) as Hscan.
  pose proof (Forall2_length _ _ _ Hs) as Hlen.
  destruct (getRouteTypeFromSegment segment) as [[] name];
    try (destruct (scanStatic segment (static n1)) as [[i1 d1]|],
                  (scanStatic segment (static n2)) as [[i2 d2]|]; try done;
         intros [= <- <-];
         [ destruct Hscan as [-> ?]; by eexists
         | rewrite Hlen; eexists; split; [reflexivity|apply agree_refl] ]).
  - destruct Hp as [d1 d2 H12|]; intros [= <- <-]; cbn; eexists;
      (split; [reflexivity|]); [done|apply agree_refl].
  - destruct Hw as [d1 d2 H12|]; intros [= <- <-]; cbn; eexists;
      (split; [reflexivity|]); [done|apply agree_refl].
Qed.

Lemma agree_attach method n1 n2 s c1 c2 :
  agree method n1 n2 → agree method c1 c2 →
  agree method (attach n1 s c1) (attach n2 s c2).
Proof.
  intros (Hpa & Hn & Hm & Hh & Hs & Hp & Hw)%agree_inv Hc.
  pose proof (Forall2_length _ _ _ Hs) as Hlen.
  destruct s as [i| |]; cbn [attach].
  - rewrite <- Hlen. destruct (decide (i < length (static n1))).
    + constructor; cbn; try done. by apply Forall2_insert.
    + constructor; cbn; try done. apply Forall2_app; [done|].
      by constructor.
  - constructor; cbn; try done. by constructor.
  - constructor; cbn; try done. by constructor.
Qed.

(** The same registration in trees that agree gives trees that agree, and
    the same result. *)
Lemma addRoute_agree method handler mws n1 p :
  ∀ n2, agree method n1 n2 →
    agree method (addRoute n1 method p handler mws).1
                 (addRoute n2 method p handler mws).1
    ∧ (addRoute n1 method p handler mws).2 = (addRoute n2 method p handler mws).2.
Proof.
  revert n1 p. apply (addRoute_induction method handler mws
    (λ n1 p res, ∀ n2, agree method n1 n2 →
       agree method res.1 (addRoute n2 method p handler mws).1
       ∧ res.2 = (addRoute n2 method p handler mws).2)).
  - intros n1 p Hp n2 Hagree. rewrite addRoute_eq, Hp. unfold bindHandler.
    pose proof (agree_inv _ _ _ Hagree) as (Hpa & Hn & Hm & Hh & Hs & Hpar & Hw).
    rewrite Hh. destruct (handlers n2 !! method); [done|]. split; [|done].
    constructor; cbn; try done.
    + by rewrite Hm.
    + by rewrite !lookup_insert_eq.
  - intros n1 p segment remaining c1 s c1' r Hp Hseg Hd Hc IH n2 Hagree.
    rewrite (addRoute_eq n2), Hp, Hseg.
    destruct (descend_agree _ _ _ _ _ _ Hagree Hd) as (c2 & -> & Hc12).
    destruct (IH c2 Hc12) as [Ha Hr]. cbn [fst snd] in *.
    destruct (addRoute c2 method remaining handler mws) as [c2' r2].
    cbn [fst snd] in *. subst r2. split; [|done].
    by apply agree_attach.
Qed.

(** ** Registration on a group *)

Lemma addRoute_consumed_any n method a b handler mws :
  consumed a = true → consumed b = true →
  addRoute n method a handler mws = addRoute n method b handler mws.
Proof. intros Ha Hb. by rewrite !addRoute_eq, Ha, Hb. Qed.

(** The registration of [p] on the node that the registration of [prefix]
    for the empty method returned, against the registration of [prefix + p]
    on the tree from before. *)
Lemma addRoute_on_group method handler mws p :
  method ≠ "" →
  ∀ t prefix t1 g,
    junction prefix p →
    addRoute t "" prefix NilFunc [] = (t1, inl g) →
    ∃ t1' r1,
      callAt (λ n, addRoute n method p handler mws) t1 g = Some (t1', r1) ∧
      agree method t1' (addRoute t method (prefix +:+ p) handler mws).1 ∧
      (addRoute t method (prefix +:+ p) handler mws).2 = underLoc g r1.
Proof.
  intros Hmethod t prefix.
  apply (addRoute_induction "" NilFunc []
    (λ t prefix res, ∀ t1 g,
       junction prefix p → res = (t1, inl g) →
       ∃ t1' r1,
         callAt (λ n, addRoute n method p handler mws) t1 g = Some (t1', r1) ∧
         agree method t1' (addRoute t method (prefix +:+ p) handler mws).1 ∧
         (addRoute t method (prefix +:+ p) handler mws).2 = underLoc g r1)).
  - clear t prefix. intros t prefix Hc t1 g Hj.
    rewrite (addRoute_samePath t method _ p handler mws
               (junction_consumed _ _ Hc Hj)).
    unfold bindHandler. destruct (handlers t !! "") eqn:Hh; [discriminate|].
    intros [= <- <-]. cbn [callAt].
    set (t1 := setHandlers _ _).
    assert (agree method t1 t) as Hagree.
    { pose proof (agree_inv _ _ _ (agree_refl method t))
        as (_ & _ & _ & _ & Hs & Hpar & Hw).
      constructor; subst t1; cbn; try done.
      - by rewrite app_nil_r.
      - by rewrite lookup_insert_ne. }
    destruct (addRoute_agree method handler mws t1 p t Hagree) as [Ha Hr].
    destruct (addRoute t1 method p handler mws) as [t1' r1].
    exists t1', r1. split; [reflexivity|]. cbn [fst snd] in *.
    split; [done|]. rewrite <- Hr. by destruct r1.
  - clear t prefix.
    intros t prefix segment remaining c s c1 r Hc Hseg Hd Hcall IH t1 g Hj Hres.
    inversion Hres as [[Ht1 Hr]]. destruct r as [g'|]; [|discriminate].
    cbn in Hr. inversion Hr; subst g. clear Hr Hres.
    destruct (getPathSegment_junction _ p _ _ Hc Hj Hseg)
      as (Hj' & remaining' & Hseg' & Hrem).
    destruct (IH c1 g' Hj' eq_refl) as (c1' & r1 & Hcall1 & Hagree & Hr1).
    exists (attach t s c1'), r1.
    pose proof (descend_link _ _ _ _ Hd) as Hlink.
    split; [|].
    { cbn [callAt]. rewrite (child_attach _ _ _ Hlink), Hcall1.
      by rewrite attach_attach. }
    rewrite addRoute_eq, (consumed_app _ _ Hc), Hseg', Hd.
    rewrite (addRoute_samePath c method remaining' (remaining +:+ p)
               handler mws Hrem).
    destruct (addRoute c method (remaining +:+ p) handler mws) as [c2' r2].
    cbn [fst snd] in *. subst r2. split.
    + apply agree_attach; [apply agree_refl|done].
    + by destruct r1.
Qed.

(** The registration of [p] on the node that a registration of [prefix]
    returned, against the registration of [prefix + p] on the root of the
    same tree: the walk along [prefix] finds the nodes that the first
    registration went through, and goes on with [p] at the node it
    returned. *)
Lemma addRoute_through_group method handler mws p m0 h0 w0 :
  ∀ t prefix t1 g,
    junction prefix p →
    addRoute t m0 prefix h0 w0 = (t1, inl g) →
    ∃ t1' r1,
      callAt (λ n, addRoute n method p handler mws) t1 g = Some (t1', r1) ∧
      addRoute t1 method (prefix +:+ p) handler mws = (t1', underLoc g r1).
Proof.
  intros t prefix.
  apply (addRoute_induction m0 h0 w0
    (λ t prefix res, ∀ t1 g,
       junction prefix p → res = (t1, inl g) →
       ∃ t1' r1,
         callAt (λ n, addRoute n method p handler mws) t1 g = Some (t1', r1) ∧
         addRoute t1 method (prefix +:+ p) handler mws
         = (t1', underLoc g r1))).
  - clear t prefix. intros t prefix Hc t1 g Hj.
    unfold bindHandler. destruct (handlers t !! m0); [discriminate|].
    intros [= <- <-]. cbn [callAt].
    set (t1 := setHandlers _ _).
    rewrite (addRoute_samePath t1 method _ p handler mws
               (junction_consumed _ _ Hc Hj)).
    destruct (addRoute t1 method p handler mws) as [t1' r1].
    exists t1', r1. split; [done|]. by destruct r1.
  - clear t prefix.
    intros t prefix segment remaining c s c1 r Hc Hseg Hd Hcall IH t1 g Hj Hres.
    inversion Hres as [[Ht1 Hr]]. destruct r as [g'|]; [|discriminate].
    cbn in Hr. inversion Hr; subst g. clear Hr Hres.
    destruct (getPathSegment_junction _ p _ _ Hc Hj Hseg)
      as (Hj' & remaining' & Hseg' & Hrem).
    destruct (IH c1 g' Hj' eq_refl) as (c1' & r1 & Hcall1 & Hdirect).
    pose proof (descend_link _ _ _ _ Hd) as Hlink.
    assert (path c1 = path c) as Hpath.
    { change c1 with (c1, @inl Loc RouteErr g').1. rewrite <- Hcall.
      apply addRoute_path. }
    exists (attach t s c1'), r1. split.
    { cbn [callAt]. rewrite (child_attach _ _ _ Hlink), Hcall1.
      by rewrite attach_attach. }
    rewrite addRoute_eq, (consumed_app _ _ Hc), Hseg'.
    rewrite (descend_attach _ _ _ _ c1 Hd Hpath).
    rewrite (addRoute_samePath c1 method remaining' (remaining +:+ p)
               handler mws Hrem), Hdirect.
    rewrite attach_attach by done. by destruct r1.
Qed.

(** C9 (amended).  For a prefix and a path [p] that meet with one slash
    between them (one of them is empty, or exactly one of: the prefix ends
    with a slash, [p] begins with one): when [e.Group(prefix)] returns a
    node, registering [p] on that node, for any method, gives the very tree
    and returns the very node that registering [prefix + p] on the root of
    the tree does, once the group is made; so [Find] resolves [prefix + p],
    and every path, alike.  For a method that is not the empty string,
    [Find] also resolves [prefix + p] (and every path) for the method as in
    the tree that registering [prefix + p] on the root gives without the
    group: the same handler, middleware chain and parameter mapping, or the
    same error; and the two registrations succeed or fail alike. *)
Theorem group_is_prefixed_insertion t prefix method p handler mws t1 g :
  junction prefix p →
  EngineGroup t prefix = (t1, Some g) →
  ∃ t1' r1,
    callAt (λ n, addRoute n method p handler mws) t1 g = Some (t1', r1) ∧
    addRoute t1 method (prefix +:+ p) handler mws = (t1', underLoc g r1) ∧
    (method ≠ "" →
     (addRoute t method (prefix +:+ p) handler mws).2 = underLoc g r1 ∧
     Find t1' method (prefix +:+ p)
     = Find (addRoute t method (prefix +:+ p) handler mws).1 method
         (prefix +:+ p) ∧
     ∀ q, Find t1' method q
          = Find (addRoute t method (prefix +:+ p) handler mws).1 method q).
Proof.
  intros Hj Hg. unfold EngineGroup, Group, RouteOn in Hg.
  destruct (addRoute t "" prefix NilFunc []) as [t1' [g'|e]] eqn:Hadd;
    [|discriminate].
  inversion Hg; subst t1' g'.
  destruct (addRoute_through_group method handler mws p _ _ _ _ _ _ _ Hj Hadd)
    as (t1' & r1 & Hcall & Hdirect).
  exists t1', r1. split; [done|]. split; [done|].
  intros Hmethod.
  destruct (addRoute_on_group method handler mws p Hmethod _ _ _ _ Hj Hadd)
    as (t1'' & r1' & Hcall' & Hagree & Hr).
  rewrite Hcall in Hcall'. injection Hcall' as <- <-.
  split; [done|]. split; [by apply Find_agree|].
  intros q. by apply Find_agree.
Qed.

(** The group [/api/] and the path [status]: the prefix ends with the
    slash. *)
Lemma group_is_prefixed_insertion_witness :
  ∃ t1' r1,
    callAt (λ n, addRoute n "GET" "status" (Func "status") [])
      (EngineGroup newRoot "/api/").1 [InStatic 0]
    = Some (t1', r1) ∧
    addRoute (EngineGroup newRoot "/api/").1 "GET" ("/api/" +:+ "status")
      (Func "status") []
    = (t1', underLoc [InStatic 0] r1) ∧
    ("GET" ≠ "" →
     (addRoute newRoot "GET" ("/api/" +:+ "status") (Func "status") []).2
     = underLoc [InStatic 0] r1 ∧
     Find t1' "GET" ("/api/" +:+ "status")
     = Find (addRoute newRoot "GET" ("/api/" +:+ "status")
               (Func "status") []).1 "GET" ("/api/" +:+ "status") ∧
     ∀ q, Find t1' "GET" q
          = Find (addRoute newRoot "GET" ("/api/" +:+ "status")
                    (Func "status") []).1 "GET" q).
Proof.
  apply (group_is_prefixed_insertion newRoot "/api/" "GET" "status"
           (Func "status") []).
  - right. right. discriminate.
  - vm_compute; reflexivity.
Defined.

(** C9, as stated, fails in three ways.  A path without a leading slash is
    put below the group as a segment of its own, while [prefix + p] glues it
    to the last segment of a prefix that does not end with a slash; a
    prefix that ends with a slash and a path that begins with one give
    [prefix + p] an empty segment that the group does not have; and, against
    the tree without the group, the empty method differs, because the group
    node is bound to the nil handler under it: the registration on the group
    node fails, and where the group node is a wildcard node the lookup of a
    longer path ends at that binding. *)
Lemma group_counterexample :
  ((λ t, Find t "GET" "/apistatus")
     <$> viaGroup newRoot "/api" "GET" "status" (Func "h") [])
   = Some (inr (NewRouteError "GET" "/apistatus" ErrRouteNotFound))
  ∧ Find (direct newRoot "/api" "GET" "status" (Func "h") []) "GET" "/apistatus"
    = inl {| Method := "GET"; Path := "/apistatus"; Handler := Func "h";
             Middlewares := []; PathParams := ∅ |}
  ∧ ((λ t, Find t "GET" "/api//status")
       <$> viaGroup newRoot "/api/" "GET" "/status" (Func "h") [])
    = Some (inr (NewRouteError "GET" "/api//status" ErrRouteNotFound))
  ∧ Find (direct newRoot "/api/" "GET" "/status" (Func "h") []) "GET" "/api//status"
    = inl {| Method := "GET"; Path := "/api//status"; Handler := Func "h";
             Middlewares := []; PathParams := ∅ |}
  ∧ ((λ t, Find t "" "/api")
       <$> viaGroup newRoot "/api" "" "" (Func "h") [])
    = Some (inl {| Method := ""; Path := "/api"; Handler := NilFunc;
                   Middlewares := []; PathParams := ∅ |})
  ∧ Find (direct newRoot "/api" "" "" (Func "h") []) "" "/api"
    = inl {| Method := ""; Path := "/api"; Handler := Func "h";
             Middlewares := []; PathParams := ∅ |}
  ∧ ((λ t, Find t "" "/files/*rest/x")
       <$> viaGroup newRoot "/files/*rest" "" "/x" (Func "h") [])
    = Some (inl {| Method := ""; Path := "/files/*rest/x"; Handler := NilFunc;
                   Middlewares := [];
                   PathParams := {[ "rest" := "*rest/x" ]} |})
  ∧ Find (direct newRoot "/files/*rest" "" "/x" (Func "h") []) ""
      "/files/*rest/x"
    = inr (NewRouteError "" "/files/*rest/x" ErrRouteNotFound).
Proof. split_and!; vm_compute; reflexivity. Qed.

(** * Further properties of the code *)

(** ** The segment classifier *)

Lemma occurs_cons c x s : occurs c (String x s) ↔ x = c ∨ occurs c s.
Proof.
  split.
  - intros (a & b & H). destruct a as [|y a].
    + rewrite append_empty_l in H. inversion H. by left.
    + rewrite append_cons in H. inversion H; subst. right. by exists a, b.
  - intros [->|(a & b & ->)].
    + by exists "", s.
    + exists (String x a), b. by rewrite append_cons.
Qed.

Lemma occurs_empty c : ¬ occurs c "".
Proof. intros (a & b & H). by destruct a. Qed.

Lemma noSlash_occurs s : noSlash s = true ↔ ¬ occurs "/" s.
Proof.
  induction s as [|x s IH]; cbn.
  - split; [intros _; apply occurs_empty|done].
  - rewrite occurs_cons, andb_true_iff, negb_true_iff, IH, Ascii.eqb_neq.
    split; [intros [? ?] [?|?]; done|].
    intros H. split; [intros ->; apply H; by left|intros ?; apply H; by right].
Qed.

Lemma closesAtEnd_iff r :
  closesAtEnd r = true ↔ ∃ name, r = name +:+ "}" ∧ ¬ occurs "}" name.
Proof.
  induction r as [|x r IH]; cbn.
  - split; [done|]. intros (name & H & _). by destruct name.
  - destruct (Ascii.eqb x "}") eqn:Hx.
    + apply Ascii.eqb_eq in Hx as ->. rewrite String.eqb_eq. split.
      * intros ->. exists "". split; [done|apply occurs_empty].
      * intros (name & H & Hn). destruct name as [|y name].
        -- rewrite append_empty_l in H. by inversion H.
        -- rewrite append_cons in H. inversion H; subst.
           exfalso. apply Hn, occurs_cons. by left.
    + apply Ascii.eqb_neq in Hx. rewrite IH. split.
      * intros (name & -> & Hn). exists (String x name). split; [done|].
        rewrite occurs_cons. intros [?|?]; done.
      * intros (name & H & Hn). destruct name as [|y name].
        -- rewrite append_empty_l in H. inversion H. done.
        -- rewrite append_cons in H. inversion H; subst. exists name.
           split; [done|]. intros ?. apply Hn, occurs_cons. by right.
Qed.

Lemma substring_prefix (a b : string) :
  substring 0 (String.length a) (a +:+ b) = a.
Proof.
  induction a as [|x a IH]; cbn.
  - by destruct b.
  - rewrite append_cons. cbn. by rewrite IH.
Qed.

Lemma substring_all (a : string) : substring 0 (String.length a) a = a.
Proof. rewrite <- (append_empty_r a) at 2. apply substring_prefix. Qed.

Lemma isPathParam_iff s :
  isPathParam s = true ↔ ∃ name, s = "{" +:+ name +:+ "}" ∧ ¬ occurs "}" name.
Proof.
  destruct s as [|x r]; cbn.
  - split; [done|]. by intros (name & H & _).
  - rewrite andb_true_iff, Ascii.eqb_eq, closesAtEnd_iff. split.
    + intros [-> (name & -> & Hn)]. by exists name.
    + intros (name & H & Hn). rewrite append_cons, append_empty_l in H.
      inversion H; subst. split; [done|]. by exists name.
Qed.

Lemma isWildcard_iff s :
  isWildcard s = true ↔ ∃ name, s = "*" +:+ name ∧ ¬ occurs "/" name.
Proof.
  destruct s as [|x r]; cbn.
  - split; [done|]. by intros (name & H & _).
  - rewrite andb_true_iff, Ascii.eqb_eq, noSlash_occurs. split.
    + intros [-> Hn]. by exists r.
    + intros (name & H & Hn). rewrite append_cons, append_empty_l in H.
      inversion H; subst. done.
Qed.

Lemma braces_name (name : string) :
  substring 1 (String.length ("{" +:+ name +:+ "}") - 2) ("{" +:+ name +:+ "}")
  = name.
Proof.
  rewrite append_cons, append_empty_l.
  replace (String.length (String "{" (name +:+ "}")) - 2)
    with (String.length name) by (cbn; rewrite length_append; cbn; lia).
  cbn [substring]. apply substring_prefix.
Qed.

Lemma star_name (name : string) :
  substring 1 (String.length ("*" +:+ name) - 1) ("*" +:+ name) = name.
Proof.
  rewrite append_cons, append_empty_l.
  replace (String.length (String "*" name) - 1) with (String.length name)
    by (cbn; lia).
  cbn [substring]. apply substring_all.
Qed.

(** X1. A segment is classified as a parameter named [name] exactly when it
    is [name] between braces and [name] holds no closing brace; the name may
    be empty ([{}]). *)
Theorem getRouteTypeFromSegment_param segment name :
  getRouteTypeFromSegment segment = (RouteTypeParam, name)
  ↔ segment = "{" +:+ name +:+ "}" ∧ ¬ occurs "}" name.
Proof.
  unfold getRouteTypeFromSegment. split.
  - destruct (isPathParam segment) eqn:Hp.
    + apply isPathParam_iff in Hp as (nm & -> & Hn).
      rewrite braces_name. by intros [= <-].
    + by destruct (isWildcard segment).
  - intros [-> Hn].
    assert (isPathParam ("{" +:+ name +:+ "}") = true) as ->.
    { apply isPathParam_iff. by exists name. }
    by rewrite braces_name.
Qed.

(** X2. A segment is classified as a wildcard named [name] exactly when it
    is a star followed by [name] and [name] holds no slash; and no segment is
    accepted by both recognisers, so the parameter and wildcard notations
    never overlap. *)
Theorem getRouteTypeFromSegment_wildcard segment name :
  (getRouteTypeFromSegment segment = (RouteTypeWildcard, name)
   ↔ segment = "*" +:+ name ∧ ¬ occurs "/" name)
  ∧ (isPathParam segment = true → isWildcard segment = false).
Proof.
  split.
  - unfold getRouteTypeFromSegment. split.
    + destruct (isPathParam segment) eqn:Hp; [done|].
      destruct (isWildcard segment) eqn:Hw; [|done].
      apply isWildcard_iff in Hw as (nm & -> & Hn).
      rewrite star_name. by intros [= <-].
    + intros [-> Hn].
      assert (isWildcard ("*" +:+ name) = true) as ->.
      { apply isWildcard_iff. by exists name. }
      assert (isPathParam ("*" +:+ name) = false) as -> by done.
      by rewrite star_name.
  - destruct segment as [|x r]; [done|]. cbn.
    intros [->%Ascii.eqb_eq _]%andb_true_iff. done.
Qed.

(** ** The path segment utility *)

(** X3. [getPathSegment] cuts the path at its first slash: the segment holds
    no slash, the rest is empty or a slash followed by at least one
    character, and segment and rest spell the path again, except that a
    path ending right after the first slash gives the empty rest. *)
Theorem getPathSegment_spec s :
  let '(segment, remaining) := getPathSegment s in
  ¬ occurs "/" segment
  ∧ (remaining = "" ∨ ∃ r, r ≠ "" ∧ remaining = "/" +:+ r)
  ∧ (s = segment +:+ remaining ∨ (s = segment +:+ "/" ∧ remaining = "")).
Proof.
  destruct (getPathSegment s) as [segment remaining] eqn:H.
  split; [|split].
  - apply noSlash_occurs. revert H. unfold getPathSegment, SplitN2.
    destruct (cutSlash s) as [a [b|]] eqn:Hc; intros [= <- _].
    + by apply cutSlash_Some in Hc as [_ ?].
    + by apply cutSlash_None in Hc as [_ ?].
  - revert H. unfold getPathSegment, SplitN2.
    destruct (cutSlash s) as [a [b|]] eqn:Hc; intros [= _ <-]; [|by left].
    destruct (b =? "")%string eqn:Hb; [by left|right].
    apply String.eqb_neq in Hb. by exists b.
  - by apply getPathSegment_join.
Qed.

(** ** The trailing slash in registration *)

(** X4. One slash at the end of a path is ignored by registration: for a
    path [p] that does not end with a slash, registering [p/] does what
    registering [p] does, with the same tree and the same result; so after
    one of them the other is rejected as a duplicate. *)
Theorem addRoute_trailing_slash method handler mws n p :
  endsWithSlash p = false →
  addRoute n method (p +:+ "/") handler mws = addRoute n method p handler mws
  ∧ ∀ n1 l h2 m2,
      addRoute n method p handler mws = (n1, inl l) →
      addRoute n1 method (p +:+ "/") h2 m2 = (n1, inr ErrRouteAlreadyExists).
Proof.
  intros He.
  assert (∀ h ms n p, endsWithSlash p = false →
            addRoute n method (p +:+ "/") h ms = addRoute n method p h ms) as Heq.
  { clear. intros h ms n p. symmetry. revert H.
    apply (addRoute_induction method h ms
      (λ n p res, endsWithSlash p = false →
                  res = addRoute n method (p +:+ "/") h ms)).
    - clear n p. intros n p Hc He.
      assert (p = "") as ->.
      { apply consumed_iff in Hc as [->| ->]; [done|discriminate]. }
      by rewrite addRoute_eq.
    - clear n p. intros n p segment remaining c s c' r Hc Hseg Hd Hcall IH He.
      destruct (getPathSegment_app p "/" _ _ Hc He (or_intror eq_refl) Hseg)
        as (He' & remaining' & Hseg' & Hrem).
      rewrite (addRoute_eq _ _ (p +:+ "/")), (consumed_app _ _ Hc), Hseg', Hd.
      assert (addRoute c method remaining' h ms
              = addRoute c method (remaining +:+ "/") h ms) as ->.
      { destruct Hrem as [->|[H1 H2]]; [done|]. by apply addRoute_consumed_any. }
      by rewrite <- (IH He'). }
  split; [by apply Heq|].
  intros n1 l h2 m2 H. rewrite Heq by done.
  by eapply addRoute_again.
Qed.

(** [/users/] after [/users] on a new root. *)
Lemma addRoute_trailing_slash_witness :
  addRoute newRoot "GET" ("/users" +:+ "/") (Func "users") []
  = addRoute newRoot "GET" "/users" (Func "users") []
  ∧ addRoute (addRoute newRoot "GET" "/users" (Func "users") []).1 "GET"
      ("/users" +:+ "/") (Func "again") []
    = ((addRoute newRoot "GET" "/users" (Func "users") []).1,
       inr ErrRouteAlreadyExists).
Proof.
  pose proof (addRoute_trailing_slash "GET" (Func "users") [] newRoot "/users"
                eq_refl) as [H1 H2].
  split; [exact H1|].
  apply (H2 _ [InStatic 0]). vm_compute; reflexivity.
Defined.

(** ** The errors that are returned *)

Lemma find_error n anc method p route e r :
  find n anc method p route = (Some e, r) → e = ErrRouteNotFound.
Proof. by intros (-> & _)%find_failed. Qed.

(** X5. The error of [Find] is always [ErrRouteNotFound] and that of [Route]
    always [ErrRouteAlreadyExists], each wrapped with the method and the path
    of the call; [ErrRouteMalformedPath] is returned by neither, whatever the
    path. *)
Theorem errors_returned n method p :
  (∀ e, Find n method p = inr e →
        e = NewRouteError method p ErrRouteNotFound)
  ∧ (∀ handler mws n' e,
       RouteOn n method p handler mws = (n', inr e) →
       e = NewRouteError method p ErrRouteAlreadyExists ∧ n' = n).
Proof.
  split.
  - intros e. unfold Find.
    destruct (find n [] method p _) as [[e'|] r] eqn:H; [|discriminate].
    apply find_error in H as ->. by intros [= <-].
  - intros handler mws n' e. unfold RouteOn.
    destruct (addRoute n method p handler mws) as [n1 [l|e1]] eqn:H;
      intros [= <- <-].
    by apply addRoute_error in H as [-> ->].
Qed.

(** ** Groups and the engine's registration *)

(** The outcome of a registration does not depend on the handler and the
    middleware: one that fails, fails with any. *)
Lemma addRoute_error_any method h1 m1 h2 m2 n p e :
  addRoute n method p h1 m1 = (n, inr e) →
  addRoute n method p h2 m2 = (n, inr e).
Proof.
  revert n p. apply (addRoute_induction method h1 m1
    (λ n p res, res = (n, inr e) → addRoute n method p h2 m2 = (n, inr e))).
  - intros n p Hc. rewrite addRoute_eq, Hc. unfold bindHandler.
    destruct (handlers n !! method); [done|discriminate].
  - intros n p segment remaining c s c' r Hc Hseg Hd Hcall IH [= Hn Hr].
    destruct r as [|e']; [discriminate|]. inversion Hr; subst e'.
    pose proof (addRoute_error _ _ _ _ _ _ _ Hcall) as [-> _].
    rewrite addRoute_eq, Hc, Hseg, Hd, (IH eq_refl). cbn [under].
    by rewrite Hn.
Qed.

(** X6. A group can be made once: after [Group(prefix)] has returned a node,
    a second [Group(prefix)] on the tree returns [ErrRouteAlreadyExists]
    (the first call has bound the empty method at the node), [e.Group]
    returns the nil pointer, the tree is as it was, and a registration
    through that pointer has no node to act on. *)
Theorem Group_twice t prefix mws t1 g :
  Group t prefix mws = (t1, inl g) →
  (∀ mws', Group t1 prefix mws'
           = (t1, inr (NewRouteError "" prefix ErrRouteAlreadyExists)))
  ∧ EngineGroup t1 prefix = (t1, None)
  ∧ ∀ method p handler mws', viaGroup t1 prefix method p handler mws' = None.
Proof.
  intros H. unfold Group, RouteOn in H.
  destruct (addRoute t "" prefix NilFunc mws) as [t' [l|e]] eqn:Hadd;
    inversion H; subst t' l. clear H.
  assert (∀ mws', Group t1 prefix mws'
            = (t1, inr (NewRouteError "" prefix ErrRouteAlreadyExists))) as HG.
  { intros mws'. unfold Group, RouteOn.
    by rewrite (addRoute_again _ _ _ NilFunc mws' _ _ _ _ Hadd). }
  split; [exact HG|]. split.
  - unfold EngineGroup. by rewrite HG.
  - intros method p handler mws'. unfold viaGroup, EngineGroup. by rewrite HG.
Qed.

(** [e.Group("/api")] twice on a new root. *)
Lemma Group_twice_witness :
  EngineGroup (EngineGroup newRoot "/api").1 "/api"
  = ((EngineGroup newRoot "/api").1, None).
Proof.
  refine (proj1 (proj2 (Group_twice newRoot "/api" []
                          (EngineGroup newRoot "/api").1 [InStatic 0] _))).
  vm_compute; reflexivity.
Defined.

(** X7. Through the engine the first registration of a method and path
    wins and later ones are dropped without a sign: [e.GET(p, h2)] after
    [e.GET(p, h1)] leaves the tree as [e.GET(p, h1)] made it, whether or not
    that first call had itself been a duplicate; likewise for the other
    methods. *)
Theorem Engine_first_registration_wins routes p h1 h2 :
  Engine.GET (Engine.GET routes p h1) p h2 = Engine.GET routes p h1
  ∧ Engine.POST (Engine.POST routes p h1) p h2 = Engine.POST routes p h1
  ∧ Engine.PUT (Engine.PUT routes p h1) p h2 = Engine.PUT routes p h1
  ∧ Engine.DELETE (Engine.DELETE routes p h1) p h2 = Engine.DELETE routes p h1
  ∧ Engine.PATCH (Engine.PATCH routes p h1) p h2 = Engine.PATCH routes p h1.
Proof.
  assert (∀ method,
    (addRoute (addRoute routes method p h1 []).1 method p h2 []).1
    = (addRoute routes method p h1 []).1) as H.
  { intros method.
    destruct (addRoute routes method p h1 []) as [n1 [l|e]] eqn:H1; cbn [fst].
    - by rewrite (addRoute_again _ _ _ h2 [] _ _ _ _ H1).
    - pose proof (addRoute_error _ _ _ _ _ _ _ H1) as [-> _].
      by rewrite (addRoute_error_any _ _ _ h2 [] _ _ _ H1). }
  assert (∀ method n h,
    (match RouteOn n method p h [] with
     | (n', inl _) => (n', None)
     | (n', inr e) => (n', Some e)
     end).1 = (addRoute n method p h []).1) as HR.
  { intros method n h. unfold RouteOn.
    by destruct (addRoute n method p h []) as [n' [l|e]]. }
  unfold Engine.GET, Engine.POST, Engine.PUT, Engine.DELETE, Engine.PATCH,
    GET, POST, PUT, DELETE, PATCH.
  rewrite !HR, !H. done.
Qed.

(** ** Nodes keep their identity *)

Lemma sameIdentity_refl d : sameIdentity d d.
Proof. by split_and!. Qed.

Lemma paramName_attach n s c : paramName (attach n s c) = paramName n.
Proof. destruct s; cbn; [case_decide|..]; reflexivity. Qed.

Lemma middlewares_attach n s c : middlewares (attach n s c) = middlewares n.
Proof. destruct s; cbn; [case_decide|..]; reflexivity. Qed.

Lemma stable_attach n s c' :
  (∀ c, child n s = Some c → stable c c') →
  (∀ i, s = InStatic i → i ≤ length (static n)) →
  stable n (attach n s c').
Proof.
  intros Hk Hlink [|s0 l] d Hn; cbn in Hn.
  - inversion Hn; subst d. exists (attach n s c'). split; [done|].
    unfold sameIdentity.
    by rewrite path_attach, routeType_attach, paramName_attach,
      middlewares_attach.
  - destruct (child n s0) as [x|] eqn:Hx; [|discriminate].
    destruct (decide (s0 = s)) as [->|Hne].
    + destruct (Hk x Hx l d Hn) as (d' & Hd' & Hid).
      exists d'. split; [|done]. cbn. by rewrite child_attach.
    + exists d. split; [|apply sameIdentity_refl]. cbn.
      by rewrite (child_attach_other _ _ _ _ _ Hne Hx).
Qed.

(** X8. A registration changes no node that is there: behind every pointer
    that designated a node there is a node with the same text, kind and
    parameter name, and the same middleware with at most more appended.  So
    the name that the first registration gave a parameter position stays:
    after [/users/{id}], the route [/users/{uid}/posts] binds [id]. *)
Theorem addRoute_stable :
  (∀ method handler mws n p,
     stable n (addRoute n method p handler mws).1)
  ∧ Find renamedTree "GET" "/users/7/posts"
    = inl {| Method := "GET"; Path := "/users/7/posts"; Handler := Func "posts";
             Middlewares := []; PathParams := {[ "id" := "7" ]} |}.
Proof.
  split; [|vm_compute; reflexivity].
  intros method handler mws.
  apply (addRoute_induction method handler mws (λ n p res, stable n res.1)).
  - intros n p _. unfold bindHandler.
    destruct (handlers n !! method) eqn:Hm.
    { intros l d Hd. exists d. split; [done|apply sameIdentity_refl]. }
    intros [|s0 l] d Hn; cbn in Hn.
    + inversion Hn; subst d. eexists. split; [reflexivity|].
      unfold sameIdentity. cbn. split_and!; [done..|]. by apply prefix_app_r.
    + exists d. split; [by destruct s0|apply sameIdentity_refl].
  - intros n p segment remaining c s c' r _ _ Hd _ IH. cbn [fst].
    apply stable_attach; [|by eapply descend_link].
    intros x Hx. destruct (descend_cases _ _ _ _ Hd) as [Hc|(Hnone & _)];
      [|congruence].
    assert (x = c) as -> by congruence. exact IH.
Qed.

(** ** Static routes *)

Lemma find_consumed_any n anc method a b route :
  consumed a = true → consumed b = true →
  find n anc method a route = find n anc method b route.
Proof. intros Ha Hb. by rewrite !find_eq, Ha, Hb. Qed.

Lemma leads_nodeAt n p l : leads n p l → is_Some (nodeAt n l).
Proof.
  induction 1 as [n p Hc|n p segment remaining i c l Hc Hseg Hs _ IH]; [done|].
  apply scanStatic_Some in Hs as (Hi & _). cbn. by rewrite Hi.
Qed.

Lemma leads_unique n p l1 l2 : leads n p l1 → leads n p l2 → l1 = l2.
Proof.
  intros H. revert l2.
  induction H as [n p Hc|n p segment remaining i c l Hc Hseg Hs _ IH];
    intros l2 H2; inversion H2; subst; try congruence.
  assert (segment0 = segment ∧ remaining0 = remaining) as [-> ->]
    by (split; congruence).
  assert (i0 = i ∧ c0 = c) as [-> ->] by (split; congruence).
  f_equal. by apply IH.
Qed.

(** Along static segments the lookup goes where the pointer goes, binds no
    parameter, and collects the middleware of the nodes it passes. *)
Lemma find_leads n p l :
  leads n p l →
  ∀ d anc method route,
    nodeAt n l = Some d →
    find n anc method p route =
    match handlers d !! method with
    | Some h =>
        (None,
         {| Method := method; Path := Path route; Handler := h;
            Middlewares := Middlewares route
                           ++ concat (middlewares <$> (anc ++ chainAt n l));
            PathParams := PathParams route |})
    | None => (Some ErrRouteNotFound, route)
    end.
Proof.
  induction 1 as [n p Hc|n p segment remaining i c l Hc Hseg Hs _ IH];
    intros d anc method route Hd.
  - cbn in Hd. inversion Hd; subst d. rewrite find_consumed by done.
    destruct (handlers n !! method); [|done].
    unfold collectMiddlewares. rewrite collectMiddlewares_chain_eq.
    cbn [chainAt]. rewrite fmap_app, concat_app. cbn.
    by rewrite app_nil_r, <- app_assoc.
  - rewrite (find_segment _ _ _ _ _ _ _ Hc Hseg), Hs.
    pose proof Hs as (Hi & _)%scanStatic_Some.
    cbn in Hd. rewrite Hi in Hd. rewrite (IH d _ _ _ Hd).
    cbn [chainAt child]. rewrite Hi.
    destruct (handlers d !! method); [|done].
    by rewrite <- app_assoc.
Qed.

Lemma descend_static n segment c s c' :
  (getRouteTypeFromSegment segment).1 = RouteTypeStatic →
  descend n segment = (c, s) →
  path c' = path c →
  ∃ i, s = InStatic i ∧
       scanStatic segment (static (attach n s c')) = Some (i, c').
Proof.
  unfold descend.
  destruct (getRouteTypeFromSegment segment) as [rt name]. cbn. intros ->.
  destruct (scanStatic segment (static n)) as [[i d]|] eqn:Hs;
    intros [= <- <-] Hp; eexists; (split; [reflexivity|]); cbn [attach].
  - rewrite decide_True
      by (apply scanStatic_Some in Hs as (?%lookup_lt_Some & _); done).
    cbn [static setStatic]. by apply (scanStatic_insert _ _ _ d).
  - rewrite decide_False by lia. cbn [static setStatic].
    by apply scanStatic_snoc.
Qed.

(** The pointer that the registration of a static path returns is where the
    path leads in the new tree. *)
Lemma addRoute_leads method handler mws n p n' l :
  allStatic p →
  addRoute n method p handler mws = (n', inl l) →
  leads n' p l.
Proof.
  intros Hp. revert n n' l.
  induction Hp as [p Hc|p segment remaining Hc Hseg Hk _ IH]; intros n n' l.
  - rewrite addRoute_eq, Hc. unfold bindHandler.
    destruct (handlers n !! method); intros [= <- <-]. by apply leads_end.
  - rewrite addRoute_eq, Hc, Hseg.
    destruct (descend n segment) as [c s] eqn:Hd.
    destruct (addRoute c method remaining handler mws) as [c' r] eqn:Hcall.
    intros [= <- Hr]. destruct r as [l'|]; [|discriminate].
    cbn in Hr. inversion Hr; subst l.
    assert (path c' = path c) as Hpath.
    { change c' with (c', @inl Loc RouteErr l').1. rewrite <- Hcall.
      apply addRoute_path. }
    destruct (descend_static _ _ _ _ c' Hk Hd Hpath) as (i & -> & Hs).
    eapply leads_segment; [done..|]. by eapply IH.
Qed.

Lemma descend_new_middlewares n segment c s :
  descend n segment = (c, s) → child n s = None → middlewares c = [].
Proof.
  unfold descend.
  destruct (getRouteTypeFromSegment segment) as [[] name];
    try (destruct (scanStatic segment (static n)) as [[i d]|] eqn:Hs;
         intros [= <- <-]; [|done];
         apply scanStatic_Some in Hs as (Hi & _); cbn; congruence).
  - destruct (param n) as [d|] eqn:E; intros [= <- <-]; cbn;
      [congruence|done].
  - destruct (wildcard n) as [d|] eqn:E; intros [= <- <-]; cbn;
      [congruence|done].
Qed.

(** A registration appends its middleware at the end of the chain of its
    destination, and nothing else to it. *)
Lemma addRoute_chain method handler mws n p n' l :
  addRoute n method p handler mws = (n', inl l) →
  concat (middlewares <$> chainAt n' l)
  = concat (middlewares <$> chainAt n l) ++ mws.
Proof.
  revert n p n' l. apply (addRoute_induction method handler mws
    (λ n p res, ∀ n' l, res = (n', inl l) →
       concat (middlewares <$> chainAt n' l)
       = concat (middlewares <$> chainAt n l) ++ mws)).
  - intros n p _ n' l. unfold bindHandler.
    destruct (handlers n !! method); intros [= <- <-]. cbn.
    by rewrite !app_nil_r.
  - intros n p segment remaining c s c' r _ _ Hd Hcall IH n' l [= <- Hr].
    destruct r as [l'|]; [|discriminate]. cbn in Hr. inversion Hr; subst l.
    cbn [chainAt]. rewrite (child_attach _ _ _ (descend_link _ _ _ _ Hd)).
    rewrite !fmap_cons, !concat_cons, middlewares_attach, (IH c' l' eq_refl).
    rewrite <- app_assoc. f_equal.
    destruct (descend_cases _ _ _ _ Hd) as [Hc|(Hnone & Hf & _)].
    + by rewrite Hc.
    + rewrite Hnone. cbn.
      assert (concat (middlewares <$> chainAt c l') = []) as ->; [|done].
      destruct Hf as (_ & Hs & Hp & Hw).
      pose proof (descend_new_middlewares _ _ _ _ Hd Hnone) as Hm.
      destruct l' as [|s' l'']; cbn; rewrite Hm; [done|].
      destruct s'; cbn; rewrite ?Hs, ?Hp, ?Hw; done.
Qed.

(** X9. Insertion and lookup of a static path: after a registration that
    succeeds, [Find] with the same method and path returns the handler, no
    path parameters, and as middleware that of the nodes on the way (as it
    was before) followed by the middleware given with the route. *)
Theorem Find_after_addRoute n method p handler mws n' l :
  allStatic p →
  addRoute n method p handler mws = (n', inl l) →
  Find n' method p
  = inl {| Method := method; Path := p; Handler := handler;
           Middlewares := concat (middlewares <$> chainAt n l) ++ mws;
           PathParams := ∅ |}.
Proof.
  intros Hp H.
  pose proof (addRoute_leads _ _ _ _ _ _ _ Hp H) as Hl.
  destruct (addRoute_destination _ _ _ _ _ _ _ H) as (d & Hd & Hh).
  unfold Find. rewrite (find_leads _ _ _ Hl d _ _ _ Hd), Hh.
  cbn [app]. by rewrite (addRoute_chain _ _ _ _ _ _ _ H).
Qed.

(** [/users/profile] on a new root, with middleware. *)
Lemma Find_after_addRoute_witness :
  Find (addRoute newRoot "GET" "/users/profile" (Func "profile") [Mw "auth"]).1
    "GET" "/users/profile"
  = inl {| Method := "GET"; Path := "/users/profile"; Handler := Func "profile";
           Middlewares := concat (middlewares <$>
                            chainAt newRoot [InStatic 0; InStatic 0])
                          ++ [Mw "auth"];
           PathParams := ∅ |}.
Proof.
  apply Find_after_addRoute.
  - eapply (allStatic_segment _ "users" "/profile");
      [reflexivity|reflexivity|reflexivity|].
    eapply (allStatic_segment _ "profile" "");
      [reflexivity|reflexivity|reflexivity|].
    by apply allStatic_end.
  - vm_compute; reflexivity.
Defined.

(** ** Static routes under further registrations *)

Lemma scanStatic_insert_other segment l i x j y y' :
  scanStatic segment l = Some (i, x) →
  l !! j = Some y → path y' = path y → j ≠ i →
  scanStatic segment (<[j := y']> l) = Some (i, x).
Proof.
  intros (Hi & Hx & Hlt)%scanStatic_Some Hj Hp Hne. apply scanStatic_Some.
  split; [|split].
  - by rewrite list_lookup_insert_ne.
  - done.
  - intros k d Hk Hd. destruct (decide (k = j)) as [->|Hkj].
    + rewrite list_lookup_insert_eq in Hd by (by eapply lookup_lt_Some).
      inversion Hd; subst d. rewrite Hp. by eapply Hlt.
    + rewrite list_lookup_insert_ne in Hd by done. by eapply Hlt.
Qed.

Lemma scanStatic_app_l segment l l2 i x :
  scanStatic segment l = Some (i, x) →
  scanStatic segment (l ++ l2) = Some (i, x).
Proof.
  intros (Hi & Hx & Hlt)%scanStatic_Some. apply scanStatic_Some.
  pose proof (lookup_lt_Some _ _ _ Hi).
  split; [|split].
  - by rewrite lookup_app_l.
  - done.
  - intros k d Hk Hd. rewrite lookup_app_l in Hd by lia. by eapply Hlt.
Qed.

Lemma leads_static_eq n n' p l :
  static n' = static n → leads n p l → leads n' p l.
Proof.
  intros Hs H. destruct H as [n p Hc|n p segment remaining i c l Hc Hseg Hscan H].
  - by apply leads_end.
  - eapply leads_segment; [done..| |done]. by rewrite Hs.
Qed.

(** Putting a child back, or a new child in, moves no static path that was
    there. *)
Lemma leads_attach n s c' :
  (∀ c, child n s = Some c →
        path c' = path c ∧ ∀ p l, leads c p l → leads c' p l) →
  (∀ i, s = InStatic i → i ≤ length (static n)) →
  ∀ p l, leads n p l → leads (attach n s c') p l.
Proof.
  intros Hc Hlink p l H.
  destruct H as [n p Hp|n p segment remaining i x l Hp Hseg Hscan H].
  { by apply leads_end. }
  destruct s as [j| |]; cbn [attach];
    [|eapply leads_segment; by eauto..].
  pose proof Hscan as (Hi & _)%scanStatic_Some.
  destruct (decide (j < length (static n))) as [Hlt|Hge].
  - destruct (lookup_lt_is_Some_2 _ _ Hlt) as [y Hy].
    destruct (Hc y Hy) as [Hpath Hkeep].
    destruct (decide (j = i)) as [->|Hne].
    + assert (y = x) as -> by congruence.
      eapply leads_segment; [done..| |by apply Hkeep].
      cbn [static setStatic]. by eapply scanStatic_insert.
    + eapply leads_segment; [done..| |done].
      cbn [static setStatic]. by eapply scanStatic_insert_other.
  - eapply leads_segment; [done..| |done].
    cbn [static setStatic]. by apply scanStatic_app_l.
Qed.

Lemma addRoute_leads_kept method handler mws n q :
  ∀ p l, leads n p l → leads (addRoute n method q handler mws).1 p l.
Proof.
  revert n q. apply (addRoute_induction method handler mws
    (λ n q res, ∀ p l, leads n p l → leads res.1 p l)).
  - intros n q _ p l. apply leads_static_eq. unfold bindHandler.
    by destruct (handlers n !! method).
  - intros n q segment remaining c s c' r _ _ Hd Hcall IH. cbn [fst].
    apply leads_attach; [|by eapply descend_link].
    intros x Hx.
    destruct (descend_cases _ _ _ _ Hd) as [Hc|(Hnone & _)]; [|congruence].
    assert (x = c) as -> by congruence. split; [|exact IH].
    change c' with (c', r).1. rewrite <- Hcall. apply addRoute_path.
Qed.

Lemma callAt_leads_kept {R} (f : RouteNode → RouteNode * R) :
  (∀ n, path (f n).1 = path n ∧ ∀ p l, leads n p l → leads (f n).1 p l) →
  ∀ l0 t t' r, callAt f t l0 = Some (t', r) →
    path t' = path t ∧ ∀ p l, leads t p l → leads t' p l.
Proof.
  intros Hf. induction l0 as [|s l0 IH]; intros t t' r H; cbn in H.
  - inversion H as [E]. change t' with (t', r).1. rewrite <- E. apply Hf.
  - destruct (child t s) as [c|] eqn:Hc; [|discriminate].
    destruct (callAt f c l0) as [[c' r']|] eqn:Hcall; [|discriminate].
    inversion H; subst t' r'. split; [apply path_attach|].
    apply leads_attach.
    + intros x Hx. assert (x = c) as -> by congruence. by eapply IH.
    + intros i ->. cbn in Hc. apply lookup_lt_Some in Hc. lia.
Qed.

Lemma keeps_trans a b c : keeps a b → keeps b c → keeps a c.
Proof.
  intros Hab Hbc l d v h Hd Hh.
  destruct (Hab l d v h Hd Hh) as (d' & Hd' & Hh'). by eapply Hbc.
Qed.

Lemma registrations_kept t t' :
  registrations t t' →
  keeps t t' ∧ ∀ p l, leads t p l → leads t' p l.
Proof.
  induction 1 as [t|t t1 l method q handler mws t2 r _ [IHk IHl] H
                  |t t1 l mws t2 _ [IHk IHl] H].
  - split; [apply keeps_refl|done].
  - split.
    + eapply keeps_trans; [exact IHk|].
      eapply (callAt_keeps (λ n, addRoute n method q handler mws)); [|exact H].
      intros n. apply addRoute_keeps.
    + intros p l0 Hl.
      eapply (callAt_leads_kept (λ n, addRoute n method q handler mws));
        [|exact H|by apply IHl].
      intros n. split; [apply addRoute_path|apply addRoute_leads_kept].
  - split.
    + eapply keeps_trans; [exact IHk|].
      eapply (callAt_keeps (λ n, (Use n mws, ()))); [|exact H].
      intros n [|s0 l0] d v h Hd Hh; cbn in Hd.
      * inversion Hd; subst d. by exists (Use n mws).
      * by exists d.
    + intros p l0 Hl.
      eapply (callAt_leads_kept (λ n, (Use n mws, ()))); [|exact H|by apply IHl].
      intros n. split; [done|]. intros p' l'. by apply leads_static_eq.
Qed.

(** X10. A static route stays found: after a registration of a static path
    that succeeds, and whatever is registered afterwards (parameter or
    wildcard routes beside it, other routes, middleware), [Find] with that
    method and path returns the handler of that registration and no path
    parameters. *)
Theorem static_route_stays_found t method p handler mws t1 l t' :
  allStatic p →
  addRoute t method p handler mws = (t1, inl l) →
  registrations t1 t' →
  ∃ chain,
    Find t' method p
    = inl {| Method := method; Path := p; Handler := handler;
             Middlewares := chain; PathParams := ∅ |}.
Proof.
  intros Hp H Hreg.
  pose proof (addRoute_leads _ _ _ _ _ _ _ Hp H) as Hl.
  destruct (addRoute_destination _ _ _ _ _ _ _ H) as (d & Hd & Hh).
  destruct (registrations_kept _ _ Hreg) as [Hk Hkl].
  destruct (Hk l d method handler Hd Hh) as (d' & Hd' & Hh').
  eexists. unfold Find.
  rewrite (find_leads _ _ _ (Hkl _ _ Hl) d' _ _ _ Hd'), Hh'. reflexivity.
Qed.

(** [/users/admin] in [priorityTree], where [/users/{id}] and [/users/*rest]
    were registered after it. *)
Lemma static_route_stays_found_witness :
  ∃ chain,
    Find priorityTree "GET" "/users/admin"
    = inl {| Method := "GET"; Path := "/users/admin"; Handler := Func "static";
             Middlewares := chain; PathParams := ∅ |}.
Proof.
  set (t1 := (GET newRoot "/users/admin" (Func "static") []).1).
  set (t2 := (GET t1 "/users/{id}" (Func "param") []).1).
  apply (static_route_stays_found newRoot "GET" "/users/admin" (Func "static")
           [] t1 [InStatic 0; InStatic 0] priorityTree).
  - eapply (allStatic_segment _ "users" "/admin");
      [reflexivity|reflexivity|reflexivity|].
    eapply (allStatic_segment _ "admin" "");
      [reflexivity|reflexivity|reflexivity|].
    by apply allStatic_end.
  - vm_compute; reflexivity.
  - apply (registrations_route t1 t2 [] "GET" "/users/*rest" (Func "wildcard") []
             priorityTree (inl [InStatic 0; InWildcard]));
      [|vm_compute; reflexivity].
    apply (registrations_route t1 t1 [] "GET" "/users/{id}" (Func "param") []
             t2 (inl [InStatic 0; InParam]));
      [|vm_compute; reflexivity].
    apply registrations_none.
Defined.

(** X11. Middleware belongs to the node, not to the method: when a static
    path is registered for one method and then for another, both
    registrations end at the same node, and [Find] returns for either
    method its own handler with the same chain, which ends with the
    middleware of the first registration followed by that of the second. *)
Theorem methods_share_middleware n p m1 h1 ms1 n1 l m2 h2 ms2 n2 l2 :
  allStatic p →
  addRoute n m1 p h1 ms1 = (n1, inl l) →
  addRoute n1 m2 p h2 ms2 = (n2, inl l2) →
  l2 = l
  ∧ Find n2 m1 p
    = inl {| Method := m1; Path := p; Handler := h1;
             Middlewares := concat (middlewares <$> chainAt n l) ++ ms1 ++ ms2;
             PathParams := ∅ |}
  ∧ Find n2 m2 p
    = inl {| Method := m2; Path := p; Handler := h2;
             Middlewares := concat (middlewares <$> chainAt n l) ++ ms1 ++ ms2;
             PathParams := ∅ |}.
Proof.
  intros Hp H1 H2.
  pose proof (addRoute_leads _ _ _ _ _ _ _ Hp H1) as Hl1.
  pose proof (addRoute_leads _ _ _ _ _ _ _ Hp H2) as Hl2.
  pose proof (addRoute_leads_kept m2 h2 ms2 n1 p _ _ Hl1) as Hl1'.
  rewrite H2 in Hl1'. cbn [fst] in Hl1'.
  pose proof (leads_unique _ _ _ _ Hl2 Hl1') as ->.
  destruct (addRoute_destination _ _ _ _ _ _ _ H1) as (d1 & Hd1 & Hh1).
  destruct (addRoute_destination _ _ _ _ _ _ _ H2) as (d2 & Hd2 & Hh2).
  pose proof (addRoute_keeps m2 h2 ms2 n1 p l d1 m1 h1 Hd1 Hh1)
    as (d2' & Hd2' & Hh1').
  rewrite H2 in Hd2'. cbn [fst] in Hd2'.
  assert (d2' = d2) as -> by congruence.
  assert (concat (middlewares <$> chainAt n2 l)
          = concat (middlewares <$> chainAt n l) ++ ms1 ++ ms2) as Hchain.
  { rewrite (addRoute_chain _ _ _ _ _ _ _ H2), (addRoute_chain _ _ _ _ _ _ _ H1).
    by rewrite <- app_assoc. }
  split; [done|]. unfold Find.
  rewrite !(find_leads _ _ _ Hl2 d2 _ _ _ Hd2), Hh1', Hh2. cbn [app].
  by rewrite Hchain.
Qed.

(** [GET /users] with [auth], then [POST /users] with [log], on a new
    root. *)
Lemma methods_share_middleware_witness :
  Find (addRoute (addRoute newRoot "GET" "/users" (Func "list") [Mw "auth"]).1
          "POST" "/users" (Func "create") [Mw "log"]).1 "GET" "/users"
  = inl {| Method := "GET"; Path := "/users"; Handler := Func "list";
           Middlewares := concat (middlewares <$> chainAt newRoot [InStatic 0])
                          ++ [Mw "auth"] ++ [Mw "log"];
           PathParams := ∅ |}.
Proof.
  refine (proj1 (proj2 (methods_share_middleware newRoot "/users"
            "GET" (Func "list") [Mw "auth"] _ [InStatic 0]
            "POST" (Func "create") [Mw "log"] _ [InStatic 0] _ _ _))).
  - eapply (allStatic_segment _ "users" "");
      [reflexivity|reflexivity|reflexivity|].
    by apply allStatic_end.
  - vm_compute; reflexivity.
  - vm_compute; reflexivity.
Defined.

(** ** Below a wildcard *)

Lemma find_found_at n : ∀ anc method p route result,
  find n anc method p route = (None, result) →
  ∃ l d, nodeAt n l = Some d ∧ handlers d !! method = Some (Handler result)
         ∧ wildcardLast l.
Proof.
  induction n as [n IHs IHp IHw] using RouteNode_ind.
  intros anc method p route result H. rewrite find_eq in H.
  destruct (consumed p).
  { destruct (handlers n !! method) as [h|] eqn:Hh; [|discriminate].
    inversion H; subst result. by exists [], n. }
  destruct (getPathSegment (stripSlash p)) as [segment remaining].
  destruct (scanStatic segment (static n)) as [[i c]|] eqn:Hs.
  { pose proof Hs as (Hi & _)%scanStatic_Some.
    apply scanStatic_elem in Hs. rewrite Forall_forall in IHs.
    destruct (IHs c Hs _ _ _ _ _ H) as (l & d & Hd & Hh & Hl).
    exists (InStatic i :: l), d. cbn. by rewrite Hi. }
  rewrite afterStatic_eq in H. cbv zeta in H.
  assert (∀ route0,
    match wildcard n with
    | Some w => find w (anc ++ [n]) method ""
                  (bound route0 (paramName w) (segment +:+ remaining))
    | None => (Some ErrRouteNotFound, route0)
    end = (None, result) →
    ∃ l d, nodeAt n l = Some d ∧ handlers d !! method = Some (Handler result)
           ∧ wildcardLast l) as Hwild.
  { intros route0 Hw. destruct (wildcard n) as [w|] eqn:Ew; [|discriminate].
    rewrite find_consumed in Hw by reflexivity.
    destruct (handlers w !! method) as [h|] eqn:Hh; [|discriminate].
    inversion Hw; subst result. exists [InWildcard], w. cbn. by rewrite Ew. }
  destruct (param n) as [c|] eqn:Hp; [|by eapply Hwild].
  destruct (find c _ _ _ _) as [[e|] r] eqn:Hc; [by eapply Hwild|].
  inversion H; subst r. cbn in IHp.
  destruct (IHp _ _ _ _ _ Hc) as (l & d & Hd & Hh & Hl).
  exists (InParam :: l), d. cbn. by rewrite Hp.
Qed.

(** X12. A wildcard ends the match: the handler that [Find] returns is held
    by a node whose pointer has no link after a wildcard link, so what is
    registered below a wildcard node is never returned.  Registration does
    not refuse such a path: [/files/*path/edit] is registered without an
    error, two links below the wildcard, and is found under no path it could
    stand for. *)
Theorem wildcard_ends_match :
  (∀ n method p route,
     Find n method p = inl route →
     ∃ l d, nodeAt n l = Some d ∧ handlers d !! method = Some (Handler route)
            ∧ wildcardLast l)
  ∧ (addRoute newRoot "GET" "/files/*path/edit" (Func "edit") []).2
    = inl [InStatic 0; InWildcard; InStatic 0]
  ∧ Find deadTree "GET" "/files/x/edit"
    = inr (NewRouteError "GET" "/files/x/edit" ErrRouteNotFound)
  ∧ Find deadTree "GET" "/files/*path/edit"
    = inr (NewRouteError "GET" "/files/*path/edit" ErrRouteNotFound).
Proof.
  split; [|split_and!; vm_compute; reflexivity].
  intros n method p route H. unfold Find in H.
  destruct (find n [] method p _) as [[e|] r] eqn:Hf; [discriminate|].
  inversion H; subst r. by eapply find_found_at.
Qed.

(** ** The trailing slash in lookup *)

Lemma sameButParams_bound r1 r2 name v1 v2 :
  sameButParams r1 r2 → sameButParams (bound r1 name v1) (bound r2 name v2).
Proof. by intros (? & ? & ? & ?). Qed.

Lemma sameButParams_reset r1 r2 :
  sameButParams r1 r2 → sameButParams (setPathParams r1 ∅) (setPathParams r2 ∅).
Proof. by intros (? & ? & ? & ?). Qed.

(** The matcher never reads the path parameters: they decide neither the
    outcome nor the handler and middleware. *)
Lemma find_sameButParams n : ∀ anc method p r1 r2,
  sameButParams r1 r2 →
  (find n anc method p r1).1 = (find n anc method p r2).1
  ∧ sameButParams (find n anc method p r1).2 (find n anc method p r2).2.
Proof.
  induction n as [n IHs IHp IHw] using RouteNode_ind.
  intros anc method p r1 r2 HR. rewrite !find_eq.
  destruct (consumed p).
  { destruct HR as (E1 & E2 & E3 & E4).
    destruct (handlers n !! method); cbn; [|done].
    unfold sameButParams. cbn. by rewrite E2, E4. }
  destruct (getPathSegment (stripSlash p)) as [segment remaining].
  destruct (scanStatic segment (static n)) as [[i c]|] eqn:Hs.
  { apply scanStatic_elem in Hs. rewrite Forall_forall in IHs. by apply IHs. }
  rewrite !afterStatic_eq. cbv zeta.
  assert (∀ a b, sameButParams a b →
    (match wildcard n with
     | Some w => find w (anc ++ [n]) method ""
                   (bound a (paramName w) (segment +:+ remaining))
     | None => (Some ErrRouteNotFound, a)
     end).1
    = (match wildcard n with
       | Some w => find w (anc ++ [n]) method ""
                     (bound b (paramName w) (segment +:+ remaining))
       | None => (Some ErrRouteNotFound, b)
       end).1
    ∧ sameButParams
        (match wildcard n with
         | Some w => find w (anc ++ [n]) method ""
                       (bound a (paramName w) (segment +:+ remaining))
         | None => (Some ErrRouteNotFound, a)
         end).2
        (match wildcard n with
         | Some w => find w (anc ++ [n]) method ""
                       (bound b (paramName w) (segment +:+ remaining))
         | None => (Some ErrRouteNotFound, b)
         end).2) as Hwild.
  { intros a b Hab. destruct (wildcard n) as [w|]; [|done].
    cbn in IHw. apply IHw. by apply sameButParams_bound. }
  destruct (param n) as [c|]; [|by apply Hwild].
  cbn in IHp.
  destruct (IHp (anc ++ [n]) method remaining
              (bound r1 (paramName c) segment) (bound r2 (paramName c) segment)
              (sameButParams_bound _ _ _ _ _ HR)) as [E HR'].
  destruct (find c _ _ _ (bound r1 _ _)) as [[e1|] a],
           (find c _ _ _ (bound r2 _ _)) as [[e2|] b]; cbn in E, HR';
    try discriminate; [|done].
  apply Hwild. by apply sameButParams_reset.
Qed.

Lemma find_trailing_slash n : ∀ anc method p r1 r2,
  endsWithSlash p = false →
  sameButParams r1 r2 →
  (find n anc method (p +:+ "/") r1).1 = (find n anc method p r2).1
  ∧ sameButParams (find n anc method (p +:+ "/") r1).2 (find n anc method p r2).2.
Proof.
  induction n as [n IHs IHp IHw] using RouteNode_ind.
  intros anc method p r1 r2 He HR.
  destruct (consumed p) eqn:Hc.
  { assert (p = "") as ->.
    { apply consumed_iff in Hc as [->| ->]; [done|discriminate]. }
    rewrite (find_consumed_any _ _ _ ("" +:+ "/") "") by done.
    by apply find_sameButParams. }
  destruct (getPathSegment (stripSlash p)) as [segment remaining] eqn:Hseg.
  destruct (getPathSegment_app p "/" _ _ Hc He (or_intror eq_refl) Hseg)
    as (He' & remaining' & Hseg' & Hrem).
  rewrite (find_segment _ _ _ _ _ _ _ (consumed_app _ "/" Hc) Hseg').
  rewrite (find_segment _ _ _ _ _ _ _ Hc Hseg).
  assert (∀ c, (∀ anc method p r1 r2,
                  endsWithSlash p = false → sameButParams r1 r2 →
                  (find c anc method (p +:+ "/") r1).1 = (find c anc method p r2).1
                  ∧ sameButParams (find c anc method (p +:+ "/") r1).2
                                  (find c anc method p r2).2) →
    ∀ a b, sameButParams a b →
      (find c (anc ++ [n]) method remaining' a).1
      = (find c (anc ++ [n]) method remaining b).1
      ∧ sameButParams (find c (anc ++ [n]) method remaining' a).2
                      (find c (anc ++ [n]) method remaining b).2) as Hchild.
  { intros c IH a b Hab. destruct Hrem as [->|[H1 H2]]; [by apply IH|].
    assert (remaining = "") as ->.
    { destruct remaining as [|x [|y s]]; [done|..]; by destruct x as [[][][][][][][][]]. }
    rewrite (find_consumed_any _ _ _ remaining' "") by done.
    by apply find_sameButParams. }
  destruct (scanStatic segment (static n)) as [[i c]|] eqn:Hs.
  { apply scanStatic_elem in Hs. rewrite Forall_forall in IHs.
    apply Hchild; [by apply IHs|done]. }
  rewrite !afterStatic_eq. cbv zeta.
  assert (∀ a b, sameButParams a b →
    (match wildcard n with
     | Some w => find w (anc ++ [n]) method ""
                   (bound a (paramName w) (segment +:+ remaining'))
     | None => (Some ErrRouteNotFound, a)
     end).1
    = (match wildcard n with
       | Some w => find w (anc ++ [n]) method ""
                     (bound b (paramName w) (segment +:+ remaining))
       | None => (Some ErrRouteNotFound, b)
       end).1
    ∧ sameButParams
        (match wildcard n with
         | Some w => find w (anc ++ [n]) method ""
                       (bound a (paramName w) (segment +:+ remaining'))
         | None => (Some ErrRouteNotFound, a)
         end).2
        (match wildcard n with
         | Some w => find w (anc ++ [n]) method ""
                       (bound b (paramName w) (segment +:+ remaining))
         | None => (Some ErrRouteNotFound, b)
         end).2) as Hwild.
  { intros a b Hab. destruct (wildcard n) as [w|]; [|done].
    apply find_sameButParams. by apply sameButParams_bound. }
  destruct (param n) as [c|]; [|by apply Hwild].
  cbn in IHp.
  destruct (Hchild c IHp (bound r1 (paramName c) segment)
              (bound r2 (paramName c) segment)
              (sameButParams_bound _ _ _ _ _ HR)) as [E HR'].
  destruct (find c _ _ remaining' _) as [[e1|] a],
           (find c _ _ remaining _) as [[e2|] b]; cbn in E, HR';
    try discriminate; [|done].
  apply Hwild. by apply sameButParams_reset.
Qed.

(** X13. One slash at the end of the path decides nothing in a lookup: for a
    path [p] that does not end with a slash, [Find] returns for [p/] the
    handler and middleware chain that it returns for [p], or fails as it
    does for [p].  The path parameters can differ: a wildcard that has taken
    more than one segment keeps the slash. *)
Theorem Find_trailing_slash :
  (∀ n method p,
     endsWithSlash p = false →
     sameHandling (Find n method (p +:+ "/")) (Find n method p))
  ∧ Find filesTree "GET" ("/files/a/b" +:+ "/")
    = inl {| Method := "GET"; Path := "/files/a/b/"; Handler := Func "files";
             Middlewares := []; PathParams := {[ "path" := "a/b/" ]} |}
  ∧ Find filesTree "GET" "/files/a/b"
    = inl {| Method := "GET"; Path := "/files/a/b"; Handler := Func "files";
             Middlewares := []; PathParams := {[ "path" := "a/b" ]} |}.
Proof.
  split; [|split; vm_compute; reflexivity].
  intros n method p He. rewrite !Find_find.
  destruct (find_trailing_slash n [] method p (newRoute method "")
              (newRoute method "") He)
    as [E HR]; [done|].
  destruct (find n [] method (p +:+ "/") _) as [[e1|] a],
           (find n [] method p _) as [[e2|] b]; cbn in E, HR;
    try discriminate; cbn.
  - by inversion E.
  - by destruct HR as (_ & _ & ? & ?).
Qed.

(** [/users/42/] in [priorityTree]. *)
Lemma Find_trailing_slash_witness :
  sameHandling (Find priorityTree "GET" ("/users/42" +:+ "/"))
               (Find priorityTree "GET" "/users/42").
Proof. apply (proj1 Find_trailing_slash priorityTree "GET" "/users/42" eq_refl). Defined.

(** ** Dispatch and middleware *)

Lemma stripMiddlewares_fields n :
  path (stripMiddlewares n) = path n
  ∧ paramName (stripMiddlewares n) = paramName n
  ∧ handlers (stripMiddlewares n) = handlers n
  ∧ static (stripMiddlewares n) = List.map stripMiddlewares (static n)
  ∧ param (stripMiddlewares n) = option_map stripMiddlewares (param n)
  ∧ wildcard (stripMiddlewares n) = option_map stripMiddlewares (wildcard n).
Proof. by destruct n. Qed.

Lemma scanStatic_strip segment l :
  scanStatic segment (List.map stripMiddlewares l)
  = match scanStatic segment l with
    | Some (i, c) => Some (i, stripMiddlewares c)
    | None => None
    end.
Proof.
  induction l as [|x l IH]; [done|]. cbn.
  destruct (stripMiddlewares_fields x) as (-> & _).
  destruct (path x =? segment)%string; [done|].
  rewrite IH. by destruct (scanStatic segment l) as [[i c]|].
Qed.

Lemma sameButMiddlewares_bound r1 r2 name v :
  sameButMiddlewares r1 r2 →
  sameButMiddlewares (bound r1 name v) (bound r2 name v).
Proof. intros (? & ? & ? & E). unfold sameButMiddlewares. cbn. by rewrite E. Qed.

Lemma sameButMiddlewares_reset r1 r2 :
  sameButMiddlewares r1 r2 →
  sameButMiddlewares (setPathParams r1 ∅) (setPathParams r2 ∅).
Proof. by intros (? & ? & ? & ?). Qed.

(** The middleware in the tree decides nothing in the matcher but the chain
    that it returns. *)
Lemma find_stripMiddlewares n : ∀ anc1 anc2 method p r1 r2,
  sameButMiddlewares r1 r2 →
  (find (stripMiddlewares n) anc1 method p r1).1 = (find n anc2 method p r2).1
  ∧ sameButMiddlewares (find (stripMiddlewares n) anc1 method p r1).2
                       (find n anc2 method p r2).2.
Proof.
  induction n as [n IHs IHp IHw] using RouteNode_ind.
  intros anc1 anc2 method p r1 r2 HR. rewrite !find_eq.
  destruct (stripMiddlewares_fields n) as (_ & _ & Hh & Hst & Hpa & Hw).
  rewrite Hh, Hst. clear Hh Hst.
  set (n' := stripMiddlewares n) in *.
  destruct (consumed p).
  { destruct HR as (E1 & E2 & E3 & E4).
    destruct (handlers n !! method); cbn; [|done].
    unfold sameButMiddlewares. cbn. by rewrite E2, E4. }
  destruct (getPathSegment (stripSlash p)) as [segment remaining].
  rewrite scanStatic_strip.
  destruct (scanStatic segment (static n)) as [[i c]|] eqn:Hs.
  { apply scanStatic_elem in Hs. rewrite Forall_forall in IHs. by apply IHs. }
  rewrite !afterStatic_eq. cbv zeta.
  rewrite Hpa, Hw. clear Hpa Hw.
  assert (∀ a b, sameButMiddlewares a b →
    (match option_map stripMiddlewares (wildcard n) with
     | Some w => find w (anc1 ++ [n']) method ""
                   (bound a (paramName w) (segment +:+ remaining))
     | None => (Some ErrRouteNotFound, a)
     end).1
    = (match wildcard n with
       | Some w => find w (anc2 ++ [n]) method ""
                     (bound b (paramName w) (segment +:+ remaining))
       | None => (Some ErrRouteNotFound, b)
       end).1
    ∧ sameButMiddlewares
        (match option_map stripMiddlewares (wildcard n) with
         | Some w => find w (anc1 ++ [n']) method ""
                       (bound a (paramName w) (segment +:+ remaining))
         | None => (Some ErrRouteNotFound, a)
         end).2
        (match wildcard n with
         | Some w => find w (anc2 ++ [n]) method ""
                       (bound b (paramName w) (segment +:+ remaining))
         | None => (Some ErrRouteNotFound, b)
         end).2) as Hwild.
  { intros a b Hab. destruct (wildcard n) as [w|]; [|done].
    cbn [option_map]. cbn in IHw.
    destruct (stripMiddlewares_fields w) as (_ & -> & _).
    apply IHw. by apply sameButMiddlewares_bound. }
  destruct (param n) as [c|]; [|by apply Hwild].
  cbn [option_map]. cbn in IHp.
  destruct (stripMiddlewares_fields c) as (_ & -> & _).
  destruct (IHp (anc1 ++ [n']) (anc2 ++ [n]) method remaining
              (bound r1 (paramName c) segment) (bound r2 (paramName c) segment)
              (sameButMiddlewares_bound _ _ _ _ HR)) as [E HR'].
  destruct (find (stripMiddlewares c) _ _ _ _) as [[e1|] a],
           (find c _ _ _ _) as [[e2|] b]; cbn in E, HR';
    try discriminate; [|done].
  apply Hwild. by apply sameButMiddlewares_reset.
Qed.

Lemma ServeHTTP_strip routes method p :
  Engine.ServeHTTP (stripMiddlewares routes) method p
  = Engine.ServeHTTP routes method p.
Proof.
  unfold Engine.ServeHTTP, Find.
  destruct (find_stripMiddlewares routes [] [] method p
              (newRoute method p) (newRoute method p)) as [E HR]; [done|].
  unfold newRoute in *.
  destruct (find (stripMiddlewares routes) [] method p _) as [[e1|] a],
           (find routes [] method p _) as [[e2|] b]; cbn in E, HR;
    try discriminate; [done|].
  destruct HR as (_ & _ & -> & ->). done.
Qed.

(** X14. The engine applies no middleware: what [ServeHTTP] does with a
    request (the 404 response, or the call of a handler with its path
    parameters) is the same in two trees that differ in middleware only; so
    [Use] and the middleware given with a route or a group change nothing in
    dispatch. *)
Theorem ServeHTTP_ignores_middleware :
  (∀ t1 t2,
     stripMiddlewares t1 = stripMiddlewares t2 →
     ∀ method p, Engine.ServeHTTP t1 method p = Engine.ServeHTTP t2 method p)
  ∧ (∀ n mws, stripMiddlewares (Use n mws) = stripMiddlewares n)
  ∧ Engine.ServeHTTP mwTree "GET" "/api/users" = Engine.Call "users" ∅
  ∧ Engine.ServeHTTP mwTree "GET" "/nowhere"
    = Engine.ErrorString 404 "Not Found".
Proof.
  split; [|split; [|split; vm_compute; reflexivity]].
  - intros t1 t2 H method p.
    by rewrite <- (ServeHTTP_strip t1), <- (ServeHTTP_strip t2), H.
  - intros n mws. by destruct n.
Qed.

(** ** The full path of a registered node *)

Lemma append_assoc (a b c : string) : (a +:+ b) +:+ c = a +:+ (b +:+ c).
Proof. induction a as [|x a IH]; [reflexivity|]. by rewrite !append_cons, IH. Qed.

Lemma cutSlash_noSlash a : noSlash a = true → cutSlash a = (a, None).
Proof.
  induction a as [|x a IH]; [done|]. cbn.
  intros [Hx Ha]%andb_true_iff. apply negb_true_iff in Hx. rewrite Hx.
  by rewrite (IH Ha).
Qed.

Lemma stripSlash_slash s : stripSlash (String "/" s) = s.
Proof. reflexivity. Qed.

Lemma cutSlash_slash s : cutSlash (String "/" s) = ("", Some s).
Proof. reflexivity. Qed.

Lemma pathOf_cases segments :
  Forall staticSegment segments →
  pathOf segments = "" ∨ ∃ r, r ≠ "" ∧ pathOf segments = "/" +:+ r.
Proof.
  intros H. destruct H as [|segment segments (Hne & _) _]; [by left|right].
  exists (segment +:+ pathOf segments). split; [|done].
  destruct segment; [done|by rewrite append_cons].
Qed.

Lemma getPathSegment_pathOf segment segments :
  Forall staticSegment (segment :: segments) →
  consumed (pathOf (segment :: segments)) = false
  ∧ getPathSegment (stripSlash (pathOf (segment :: segments)))
    = (segment, pathOf segments).
Proof.
  intros H. inversion H as [|? ? (Hne & Hns & _) Hrest]; subst.
  cbn [pathOf foldr]. fold (pathOf segments). split.
  - apply consumed_false. split; [done|].
    rewrite append_cons, append_empty_l. intros [= E].
    destruct segment; [done|by rewrite append_cons in E].
  - rewrite append_cons, append_empty_l, stripSlash_slash.
    unfold getPathSegment, SplitN2.
    rewrite (cutSlash_app_None _ _ (pathOf segments) (cutSlash_noSlash _ Hns)).
    destruct (pathOf_cases _ Hrest) as [->|(r & Hr & ->)].
    + cbn. by rewrite append_empty_r.
    + rewrite append_cons, append_empty_l, cutSlash_slash. cbn [fst snd].
      rewrite append_empty_r.
      assert ((r =? "")%string = false) as -> by by apply String.eqb_neq.
      done.
Qed.

Lemma NodePath_path up n1 n2 : path n1 = path n2 → NodePath up n1 = NodePath up n2.
Proof. intros H. destruct up; cbn; by rewrite ?H. Qed.

Lemma NodePath_below p segments :
  p ≠ "/" →
  Forall staticSegment segments →
  fold_left (λ parentPath segment,
               if (parentPath =? "/")%string then "/" +:+ segment
               else parentPath +:+ "/" +:+ segment) segments p
  = p +:+ pathOf segments.
Proof.
  intros Hp H. revert p Hp.
  induction H as [|segment segments (Hne & _) _ IH]; intros p Hp; cbn.
  - by rewrite append_empty_r.
  - apply String.eqb_neq in Hp as Hp'. rewrite Hp'.
    rewrite IH.
    + fold (pathOf segments). by rewrite !append_assoc.
    + destruct p as [|x [|y p]]; rewrite ?append_cons, ?append_empty_l;
        [|done..].
      intros [= E]. done.
Qed.

Lemma PathBelow_addRoute method handler mws segments :
  Forall staticSegment segments →
  ∀ n n' l up,
    addRoute n method (pathOf segments) handler mws = (n', inl l) →
    PathBelow up n' l
    = Some (fold_left (λ parentPath segment,
                         if (parentPath =? "/")%string then "/" +:+ segment
                         else parentPath +:+ "/" +:+ segment)
              segments (NodePath up n)).
Proof.
  induction 1 as [|segment segments Hseg Hrest IH]; intros n n' l up.
  - rewrite addRoute_eq. cbn [pathOf foldr].
    change (consumed "") with true. cbn iota. unfold bindHandler.
    destruct (handlers n !! method); intros [= <- <-]. cbn.
    f_equal. by apply NodePath_path.
  - destruct (getPathSegment_pathOf segment segments) as [Hc Hcut];
      [by constructor|].
    rewrite addRoute_eq, Hc, Hcut.
    destruct (descend n segment) as [c s] eqn:Hd.
    destruct (addRoute c method (pathOf segments) handler mws) as [c' r] eqn:Hcall.
    intros [= <- Hr]. destruct r as [l'|]; [|discriminate].
    cbn in Hr. inversion Hr; subst l.
    assert (path c' = path c) as Hpath.
    { change c' with (c', @inl Loc RouteErr l').1. rewrite <- Hcall.
      apply addRoute_path. }
    destruct Hseg as (Hne & Hns & Hk).
    destruct (descend_static _ _ _ _ c' Hk Hd Hpath) as (i & -> & Hs).
    apply scanStatic_Some in Hs as (Hi & Hc' & _).
    cbn [PathBelow child]. rewrite Hi.
    rewrite (IH c c' l' _ Hcall). f_equal. cbn [fold_left NodePath].
    rewrite (NodePath_path up (attach n (InStatic i) c') n)
      by apply path_attach.
    by rewrite <- Hpath, Hc'.
Qed.

(** X15. The node that the registration of a path of static segments returns
    knows its path: [Path] called on it gives back the path, written with a
    slash before each segment; for the path without segments, registered at
    the root, it gives [/]. *)
Theorem Path_after_Route root method segments handler mws root' l :
  Forall staticSegment segments →
  addRoute root method (pathOf segments) handler mws = (root', inl l) →
  PathAt root' l
  = Some (match segments with [] => "/" | _ => pathOf segments end).
Proof.
  intros Hs H. unfold PathAt.
  rewrite (PathBelow_addRoute _ _ _ _ Hs _ _ _ [] H). f_equal.
  cbn [NodePath]. destruct Hs as [|segment segments Hseg Hrest]; [done|].
  cbn [fold_left]. change ("/" =? "/")%string with true. cbn iota.
  rewrite NodePath_below; [|by destruct Hseg as (Hne & _); destruct segment|done].
  cbn [pathOf foldr]. by rewrite !append_assoc.
Qed.

(** [/users/profile] on a new root. *)
Lemma Path_after_Route_witness :
  PathAt (addRoute newRoot "GET" "/users/profile" (Func "profile") []).1
    [InStatic 0; InStatic 0]
  = Some "/users/profile".
Proof.
  apply (Path_after_Route newRoot "GET" ["users"; "profile"] (Func "profile") []).
  - repeat constructor; done.
  - vm_compute; reflexivity.
Defined.

(** ** Registration and lookup of a path with parameters *)

Lemma plain_written s : segmentOk s → plain (written s).
Proof.
  destruct s as [text|name value]; cbn.
  - by intros (? & ? & _).
  - intros (_ & Hn & _). split; [by rewrite append_cons|].
    rewrite append_cons, append_empty_l. cbn.
    clear -Hn. induction name as [|x name IH]; [done|].
    rewrite append_cons. cbn in *.
    apply andb_true_iff in Hn as [-> Hn]. by apply IH.
Qed.

Lemma plain_requested s : segmentOk s → plain (requested s).
Proof.
  destruct s as [text|name value]; cbn.
  - by intros (? & ? & _).
  - by intros (_ & _ & ?).
Qed.

Lemma slashed_pathOf segments tail :
  Forall plain segments → slashed tail → slashed (pathOf segments +:+ tail).
Proof.
  intros H Ht. destruct H as [|segment segments (Hne & _) _].
  - by rewrite append_empty_l.
  - right. exists (segment +:+ pathOf segments +:+ tail). split.
    + destruct segment; [done|by rewrite append_cons].
    + cbn [pathOf foldr]. fold (pathOf segments).
      by rewrite !append_assoc.
Qed.

Lemma getPathSegment_slashed segment rest :
  plain segment → slashed rest →
  consumed ("/" +:+ segment +:+ rest) = false
  ∧ getPathSegment (stripSlash ("/" +:+ segment +:+ rest)) = (segment, rest).
Proof.
  intros (Hne & Hns) Hrest. split.
  - apply consumed_false. split; [done|].
    rewrite append_cons, append_empty_l. intros [= E].
    destruct segment; [done|by rewrite append_cons in E].
  - rewrite append_cons, append_empty_l, stripSlash_slash.
    unfold getPathSegment, SplitN2.
    rewrite (cutSlash_app_None _ _ rest (cutSlash_noSlash _ Hns)).
    destruct Hrest as [->|(r & Hr & ->)].
    + cbn. by rewrite append_empty_r.
    + rewrite append_cons, append_empty_l, cutSlash_slash. cbn [fst snd].
      rewrite append_empty_r.
      assert ((r =? "")%string = false) as -> by by apply String.eqb_neq.
      done.
Qed.

Lemma addRoute_paramName n method p handler mws :
  paramName (addRoute n method p handler mws).1 = paramName n.
Proof.
  rewrite addRoute_eq. destruct (consumed p).
  - unfold bindHandler. by destruct (handlers n !! method).
  - destruct (getPathSegment (stripSlash p)) as [segment remaining].
    destruct (descend n segment) as [c s].
    destruct (addRoute c method remaining handler mws) as [c' r].
    apply paramName_attach.
Qed.

Lemma roundTrip_end method handler mws :
  roundTrip method handler mws "" "" id.
Proof.
  intros n _ Hh. rewrite addRoute_eq.
  change (consumed "") with true. cbn iota. unfold bindHandler.
  rewrite Hh. eexists _, _. split; [done|]. intros anc route.
  rewrite find_consumed by done. cbn [handlers setHandlers setMiddlewares].
  rewrite lookup_insert_eq. unfold collectMiddlewares.
  rewrite collectMiddlewares_chain_eq. cbn [middlewares].
  by rewrite <- !app_assoc.
Qed.

Lemma roundTrip_wildcard method handler mws name rest :
  noSlash name = true → rest ≠ "" → endsWithSlash rest = false →
  roundTrip method handler mws ("/*" +:+ name) ("/" +:+ rest)
    (λ m, <[name := rest]> m).
Proof.
  intros Hn Hne Hend n (Hst & Hpa & Hwi) Hh.
  rewrite addRoute_eq.
  assert (consumed ("/*" +:+ name) = false) as -> by done.
  assert (getPathSegment (stripSlash ("/*" +:+ name)) = ("*" +:+ name, ""))
    as ->.
  { rewrite !append_cons, append_empty_l, stripSlash_slash.
    unfold getPathSegment, SplitN2.
    rewrite (cutSlash_noSlash (String "*" name)); [done|].
    cbn. exact Hn. }
  assert (descend n ("*" +:+ name)
          = (NewRouteNode ("*" +:+ name) RouteTypeWildcard name, InWildcard))
    as ->.
  { unfold descend, getRouteTypeFromSegment.
    assert (isPathParam ("*" +:+ name) = false) as -> by done.
    assert (isWildcard ("*" +:+ name) = true) as ->.
    { apply isWildcard_iff. exists name. split; [done|].
      by apply noSlash_occurs. }
    by rewrite star_name, Hwi. }
  rewrite addRoute_eq. change (consumed "") with true. cbn iota.
  unfold bindHandler. cbn [handlers NewRouteNode]. rewrite lookup_empty.
  eexists _, _. split; [done|]. intros anc route.
  destruct (getPathSegment rest) as [s r] eqn:Hcut.
  assert (s +:+ r = rest) as Hjoin.
  { destruct (getPathSegment_join _ _ _ Hcut) as [->|[-> _]]; [done|].
    by rewrite endsWithSlash_app in Hend. }
  rewrite (find_segment _ _ _ _ _ s r).
  - cbn [attach static setWildcard]. rewrite Hst. cbn [scanStatic].
    rewrite afterStatic_eq. cbn [param wildcard setWildcard]. rewrite Hpa.
    cbn zeta. rewrite find_consumed by done.
    cbn [handlers setHandlers setMiddlewares paramName NewRouteNode].
    rewrite lookup_insert_eq, Hjoin. f_equal. f_equal.
    unfold collectMiddlewares. rewrite collectMiddlewares_chain_eq.
    rewrite fmap_app, concat_app. cbn. by rewrite !app_nil_r, <- !app_assoc.
  - apply consumed_false. split; [done|].
    rewrite append_cons, append_empty_l. intros [= E].
    by destruct rest.
  - by rewrite append_cons, append_empty_l, stripSlash_slash.
Qed.

Lemma roundTrip_segments method handler mws tailP tailQ K :
  slashed tailP → slashed tailQ →
  roundTrip method handler mws tailP tailQ K →
  ∀ segments, Forall segmentOk segments →
    roundTrip method handler mws
      (pathOf (written <$> segments) +:+ tailP)
      (pathOf (requested <$> segments) +:+ tailQ)
      (λ m, K (captures segments m)).
Proof.
  intros HtP HtQ Hbase.
  induction 1 as [|s segments Hs Hrest IH]; intros n Hn Hh.
  - cbn [fmap list_fmap pathOf foldr]. rewrite !append_empty_l.
    by apply Hbase.
  - destruct Hn as (Hst & Hpa & Hwi).
    assert (Forall plain (written <$> segments)) as Hw.
    { apply Forall_fmap. eapply Forall_impl; [exact Hrest|].
      intros ?. apply plain_written. }
    assert (Forall plain (requested <$> segments)) as Hq.
    { apply Forall_fmap. eapply Forall_impl; [exact Hrest|].
      intros ?. apply plain_requested. }
    rewrite !fmap_cons. cbn [pathOf foldr].
    fold (pathOf (written <$> segments)) (pathOf (requested <$> segments)).
    rewrite !append_assoc.
    destruct (getPathSegment_slashed (written s)
                (pathOf (written <$> segments) +:+ tailP))
      as [Hc Hcut]; [by apply plain_written|by apply slashed_pathOf|].
    destruct (getPathSegment_slashed (requested s)
                (pathOf (requested <$> segments) +:+ tailQ))
      as [Hc' Hcut']; [by apply plain_requested|by apply slashed_pathOf|].
    rewrite addRoute_eq, Hc, Hcut.
    destruct (descend n (written s)) as [c st] eqn:Hd.
    assert (fresh c ∧ middlewares c = [] ∧
            (match s with
             | Fixed text =>
                 st = InStatic 0
                 ∧ (getRouteTypeFromSegment text).1 = RouteTypeStatic
             | Named name _ => st = InParam ∧ paramName c = name
             end)) as ((Hf1 & Hf2 & Hf3 & Hf4) & Hmw & Hkind).
    { revert Hd. unfold descend. destruct s as [text|name value].
      - destruct Hs as (_ & _ & Hk). cbn [written].
        destruct (getRouteTypeFromSegment text) as [rt nm]. cbn in Hk. subst rt.
        rewrite Hst. cbn. by intros [= <- <-].
      - destruct Hs as (Hn & _ & _). cbn [written].
        assert (getRouteTypeFromSegment ("{" +:+ name +:+ "}")
                = (RouteTypeParam, name)) as ->.
        { unfold getRouteTypeFromSegment.
          assert (isPathParam ("{" +:+ name +:+ "}") = true) as ->.
          { apply isPathParam_iff. by exists name. }
          by rewrite braces_name. }
        rewrite Hpa. cbn. by intros [= <- <-]. }
    destruct (IH c) as (c' & l & Hcall & Hfind); [done|by rewrite Hf1|].
    rewrite Hcall. eexists _, _. split; [done|]. intros anc route.
    assert (path c' = path c) as Hpath.
    { change c' with (c', @inl Loc RouteErr l).1. rewrite <- Hcall.
      apply addRoute_path. }
    rewrite (find_segment _ _ _ _ _ _ _ Hc' Hcut').
    destruct s as [text|name value]; cbn [requested written] in *.
    + destruct Hkind as [-> Hk].
      destruct (descend_static _ _ _ _ c' Hk Hd Hpath) as (i & [= <-] & ->).
      rewrite Hfind. f_equal. f_equal.
      rewrite fmap_app, concat_app, Hmw. cbn [fmap list_fmap concat].
      rewrite middlewares_attach.
      by rewrite !app_nil_r, <- !app_assoc.
    + destruct Hkind as [-> Hname].
      cbn [attach static setParam]. rewrite Hst. cbn [scanStatic].
      rewrite afterStatic_eq. cbn [param setParam].
      rewrite Hfind. cbn zeta. f_equal. f_equal.
      * rewrite fmap_app, concat_app, Hmw. cbn [fmap list_fmap concat].
        cbn [middlewares setParam].
        by rewrite !app_nil_r, <- !app_assoc.
      * cbn [captures foldl bound setPathParams PathParams].
        assert (paramName c' = name) as ->; [|done].
        rewrite <- Hname. change c' with (c', @inl Loc RouteErr l).1.
        rewrite <- Hcall. apply addRoute_paramName.
Qed.

(** X16. Registration and lookup agree on a path with parameters and a
    wildcard.  On the tree of a new engine, a path made of static segments
    and parameters [{name}], with or without a wildcard [*name] at its end,
    is registered without error.  The lookup of a request that repeats the
    static segments, gives a value (not empty, without a slash) for each
    parameter and any rest (not empty, not ending with a slash, slashes
    inside allowed) for the wildcard returns the registered handler, the
    middleware given with the route, and the mapping from every parameter
    name to its value and from the wildcard name to the rest; a name used
    twice keeps what was stored last.  [ServeHTTP] calls the handler with
    that mapping. *)
Theorem Find_after_Route_parameters method handler mws segments ending :
  Forall segmentOk segments → endingOk ending →
  ∃ t l,
    addRoute newRoot method (registeredPath segments ending) (Func handler) mws
    = (t, inl l)
    ∧ Find t method (requestPath segments ending)
      = inl {| Method := method; Path := requestPath segments ending;
               Handler := Func handler; Middlewares := mws;
               PathParams := capturesEnding ending (captures segments ∅) |}
    ∧ Engine.ServeHTTP t method (requestPath segments ending)
      = Engine.Call handler (capturesEnding ending (captures segments ∅)).
Proof.
  intros Hs He.
  assert (∃ tailP tailQ,
            registeredPath segments ending
            = pathOf (written <$> segments) +:+ tailP
            ∧ requestPath segments ending
              = pathOf (requested <$> segments) +:+ tailQ
            ∧ slashed tailP ∧ slashed tailQ
            ∧ roundTrip method (Func handler) mws tailP tailQ
                (capturesEnding ending))
    as (tailP & tailQ & -> & -> & HtP & HtQ & Hbase).
  { destruct ending as [[name rest]|].
    - destruct He as (Hn & Hne & Hend).
      exists ("/*" +:+ name), ("/" +:+ rest). split_and!; [done|done|..].
      + right. by exists ("*" +:+ name).
      + right. by exists rest.
      + by apply roundTrip_wildcard.
    - exists "", "". split_and!; [done|done|by left|by left|].
      apply roundTrip_end. }
  destruct (roundTrip_segments _ _ _ _ _ _ HtP HtQ Hbase segments Hs newRoot)
    as (t & l & Hadd & Hfind); [done..|].
  exists t, l. split; [exact Hadd|].
  set (q := pathOf (requested <$> segments) +:+ tailQ) in *.
  assert (Find t method q
          = inl {| Method := method; Path := q;
                   Handler := Func handler; Middlewares := mws;
                   PathParams := capturesEnding ending (captures segments ∅) |})
    as HF.
  { unfold Find. by rewrite Hfind. }
  split; [exact HF|]. unfold Engine.ServeHTTP. by rewrite HF.
Qed.

(** [/users/{id}/files/*path] and the request [/users/456/files/a/b/c.txt]. *)
Lemma Find_after_Route_parameters_witness :
  ∃ t l,
    addRoute newRoot "GET" "/users/{id}/files/*path" (Func "file") []
    = (t, inl l)
    ∧ Find t "GET" "/users/456/files/a/b/c.txt"
      = inl {| Method := "GET"; Path := "/users/456/files/a/b/c.txt";
               Handler := Func "file"; Middlewares := [];
               PathParams := <["path" := "a/b/c.txt"]> (<["id" := "456"]> ∅) |}
    ∧ Engine.ServeHTTP t "GET" "/users/456/files/a/b/c.txt"
      = Engine.Call "file" (<["path" := "a/b/c.txt"]> (<["id" := "456"]> ∅)).
Proof.
  apply (Find_after_Route_parameters "GET" "file" []
           [Fixed "users"; Named "id" "456"; Fixed "files"]
           (Some ("path", "a/b/c.txt"))).
  - repeat constructor; try done;
      rewrite ?occurs_cons; intros H;
      repeat (destruct H as [H|H]; [discriminate|]); by apply occurs_empty in H.
  - done.
Defined.

(** ** The engine calls no nil handler *)

Lemma child_attach_inv n s s0 c x :
  (∀ i, s = InStatic i → i ≤ length (static n)) →
  s0 ≠ s → child (attach n s c) s0 = Some x → child n s0 = Some x.
Proof.
  intros Hi Hne. destruct s as [i| |], s0 as [j| |]; cbn; try done;
    try (by destruct (decide (i < length (static n)))).
  specialize (Hi i eq_refl).
  destruct (decide (i < length (static n))); cbn.
  - rewrite list_lookup_insert_ne; [done|congruence].
  - intros H. assert (i = length (static n)) as -> by lia.
    apply lookup_app_Some in H as [H|[Hj H]]; [done|].
    destruct (j - length (static n)) as [|k] eqn:E; [|done].
    exfalso. apply Hne. f_equal. lia.
Qed.

Lemma noNilHandler_child n s c :
  noNilHandler n → child n s = Some c → noNilHandler c.
Proof.
  intros H Hc l d method Hd. apply (H (s :: l)). cbn. by rewrite Hc.
Qed.

Lemma noNilHandler_attach n s c' :
  (∀ i, s = InStatic i → i ≤ length (static n)) →
  noNilHandler n → noNilHandler c' → noNilHandler (attach n s c').
Proof.
  intros Hi Hn Hc' l d method Hd Hm. destruct l as [|s0 l].
  - injection Hd as <-. rewrite handlers_attach. by apply (Hn [] n).
  - cbn in Hd. destruct (child (attach n s c') s0) as [x|] eqn:Hx; [|done].
    destruct (decide (s0 = s)) as [->|Hne].
    + rewrite child_attach in Hx by done. injection Hx as <-.
      by apply (Hc' l d).
    + apply child_attach_inv in Hx; [|done..].
      apply (Hn (s0 :: l) d); [|done]. cbn. by rewrite Hx.
Qed.

Lemma noNilHandler_fresh c : fresh c → noNilHandler c.
Proof.
  intros (Hh & Hs & Hp & Hw) l d method Hd _. destruct l as [|s l].
  - injection Hd as <-. by rewrite Hh, lookup_empty.
  - cbn in Hd. destruct s; cbn in Hd; by rewrite ?Hs, ?Hp, ?Hw in Hd.
Qed.

Lemma noNilHandler_addRoute method handler mws :
  handler ≠ NilFunc ∨ method = "" →
  ∀ n p, noNilHandler n → noNilHandler (addRoute n method p handler mws).1.
Proof.
  intros Hh. apply (addRoute_induction method handler mws
    (λ n p res, noNilHandler n → noNilHandler res.1)).
  - intros n p _ Hn. unfold bindHandler.
    destruct (handlers n !! method) eqn:E; [done|]. cbn [fst].
    intros l d m Hd Hm. destruct l as [|s l].
    + injection Hd as <-. cbn [handlers setHandlers setMiddlewares].
      destruct (decide (method = m)) as [->|Hne].
      * rewrite lookup_insert_eq. destruct Hh as [Hh|Hh]; congruence.
      * rewrite lookup_insert_ne by done. by apply (Hn [] n).
    + apply (Hn (s :: l) d); [|done]. by destruct s.
  - intros n p segment remaining c s c' r _ _ Hd _ IH Hn. cbn [fst] in *.
    apply noNilHandler_attach; [by eapply descend_link|done|].
    apply IH. destruct (descend_cases _ _ _ _ Hd) as [Hc|(_ & Hf & _)].
    + by eapply noNilHandler_child.
    + by apply noNilHandler_fresh.
Qed.

Lemma noNilHandler_Use n mws : noNilHandler n → noNilHandler (Use n mws).
Proof.
  intros Hn l d m Hd Hm. destruct l as [|s l].
  - injection Hd as <-. by apply (Hn [] n).
  - apply (Hn (s :: l) d); [|done]. by destruct s.
Qed.

Lemma callAt_noNilHandler {R} (f : RouteNode → RouteNode * R) :
  (∀ n, noNilHandler n → noNilHandler (f n).1) →
  ∀ l t t' r, callAt f t l = Some (t', r) → noNilHandler t → noNilHandler t'.
Proof.
  intros Hf. induction l as [|s l IH]; intros t t' r H Ht.
  - injection H as H. specialize (Hf t Ht). by rewrite H in Hf.
  - cbn in H. destruct (child t s) as [c|] eqn:Hc; [|done].
    destruct (callAt f c l) as [[c' r']|] eqn:Hcall; [|done].
    injection H as <- <-.
    apply noNilHandler_attach; [|done|].
    + intros i ->. cbn in Hc. apply lookup_lt_Some in Hc. lia.
    + eapply IH; [exact Hcall|]. by eapply noNilHandler_child.
Qed.

Lemma built_noNilHandler t : built t → noNilHandler t.
Proof.
  induction 1 as [|t l method p handler mws t' r _ IH H
                  |t l prefix mws t' r _ IH H|t l mws t' _ IH H].
  - by apply noNilHandler_fresh.
  - eapply callAt_noNilHandler; [|exact H|exact IH].
    intros n. apply noNilHandler_addRoute. by left.
  - eapply callAt_noNilHandler; [|exact H|exact IH].
    intros n Hn. unfold Group, RouteOn.
    pose proof (noNilHandler_addRoute "" NilFunc mws (or_intror eq_refl)
                  n prefix Hn) as H'.
    by destruct (addRoute n "" prefix NilFunc mws) as [n' [?|?]].
  - eapply callAt_noNilHandler; [|exact H|exact IH].
    intros n. apply noNilHandler_Use.
Qed.

(** X17. The engine calls no nil handler.  In a tree built from the root of
    a new engine by registrations of handler functions, by [Group] and by
    [Use], on the root or on any node, a request with a method that is not
    empty is answered with 404 or by the call of a registered function: the
    nil handler that [Group] binds under the empty method is never the one
    called.  Under the empty method it is, and the call panics: [Group] with
    [/api] on a new engine, then the request of [/api] with the empty
    method. *)
Theorem ServeHTTP_calls_functions t method p :
  built t → method ≠ "" →
  (Engine.ServeHTTP t method p = Engine.ErrorString 404 "Not Found"
   ∨ ∃ handler PathParams,
       Engine.ServeHTTP t method p = Engine.Call handler PathParams)
  ∧ Engine.ServeHTTP (EngineGroup newRoot "/api").1 "" "/api" = Engine.Panic.
Proof.
  intros Hb Hm. split; [|by vm_compute].
  apply built_noNilHandler in Hb. unfold Engine.ServeHTTP, Find.
  destruct (find t [] method p _) as [[e|] result] eqn:Hfind; [by left|].
  right. apply find_found_at in Hfind as (l & d & Hd & Hh & _).
  destruct (Handler result) as [|f] eqn:E.
  - by destruct (Hb l d method Hd Hm).
  - by eexists _, _.
Qed.

(** An engine with [GET /users/{id}] and the group [/api]. *)
Lemma ServeHTTP_calls_functions_witness :
  (Engine.ServeHTTP
     (EngineGroup (Engine.GET newRoot "/users/{id}" (Func "user")) "/api").1
     "GET" "/api"
   = Engine.ErrorString 404 "Not Found"
   ∨ ∃ handler PathParams,
       Engine.ServeHTTP
         (EngineGroup (Engine.GET newRoot "/users/{id}" (Func "user")) "/api").1
         "GET" "/api"
       = Engine.Call handler PathParams)
  ∧ Engine.ServeHTTP (EngineGroup newRoot "/api").1 "" "/api" = Engine.Panic.
Proof.
  apply (ServeHTTP_calls_functions
           (EngineGroup (Engine.GET newRoot "/users/{id}" (Func "user")) "/api").1
           "GET" "/api"); [|done].
  eapply (built_group _ [] "/api" []).
  - eapply (built_route _ [] "GET" "/users/{id}" "user" []); [apply built_new|].
    reflexivity.
  - vm_compute. reflexivity.
Defined.

(** ** The middleware of a group *)

Lemma callAt_nodeAt {R} (f : RouteNode → RouteNode * R) :
  ∀ g t t' r, callAt f t g = Some (t', r) →
    ∃ d, nodeAt t g = Some d ∧ (f d).2 = r ∧ nodeAt t' g = Some (f d).1.
Proof.
  induction g as [|s g IH]; intros t t' r H.
  - injection H as H. exists t. by rewrite H.
  - cbn in H. destruct (child t s) as [c|] eqn:Hc; [|done].
    destruct (callAt f c g) as [[c' r']|] eqn:Hcall; [|done].
    injection H as <- <-.
    destruct (IH _ _ _ Hcall) as (d & Hd & Hr & Hd').
    exists d. cbn [nodeAt]. rewrite Hc. split; [done|]. split; [done|].
    rewrite child_attach; [done|].
    intros i ->. cbn in Hc. apply lookup_lt_Some in Hc. lia.
Qed.

Lemma chainAt_head d l : chainAt d l = d :: tail (chainAt d l).
Proof. by destruct l. Qed.

Lemma chainAt_app n g l d :
  nodeAt n g = Some d →
  concat (middlewares <$> chainAt n (g ++ l))
  = concat (middlewares <$> chainAt n g)
    ++ concat (middlewares <$> tail (chainAt d l)).
Proof.
  revert n. induction g as [|s g IH]; intros n H.
  - injection H as ->. cbn [app chainAt]. rewrite (chainAt_head d l) at 1.
    cbn. by rewrite app_nil_r.
  - cbn in H. destruct (child n s) as [c|] eqn:Hc; [|done].
    cbn [app chainAt]. rewrite Hc. cbn. rewrite (IH c H).
    by rewrite app_assoc.
Qed.

Lemma nodeAt_app n g l d :
  nodeAt n g = Some d → nodeAt n (g ++ l) = nodeAt d l.
Proof.
  revert n. induction g as [|s g IH]; intros n H.
  - by injection H as ->.
  - cbn in *. destruct (child n s) as [c|]; [by apply IH|done].
Qed.

Lemma callAt_chain {R} (f : RouteNode → RouteNode * R) extra :
  (∀ n, middlewares (f n).1 = middlewares n ++ extra) →
  ∀ g t t' r, callAt f t g = Some (t', r) →
    concat (middlewares <$> chainAt t' g)
    = concat (middlewares <$> chainAt t g) ++ extra.
Proof.
  intros Hf. induction g as [|s g IH]; intros t t' r H.
  - injection H as H. cbn. rewrite !app_nil_r.
    specialize (Hf t). by rewrite H in Hf.
  - cbn in H. destruct (child t s) as [c|] eqn:Hc; [|done].
    destruct (callAt f c g) as [[c' r']|] eqn:Hcall; [|done].
    injection H as <- <-. cbn [chainAt]. rewrite Hc, child_attach.
    + cbn. rewrite middlewares_attach, (IH _ _ _ Hcall).
      by rewrite app_assoc.
    + intros i ->. cbn in Hc. apply lookup_lt_Some in Hc. lia.
Qed.

Lemma callAt_addRoute_chain method p handler mws :
  ∀ g t t' l,
    callAt (λ n, addRoute n method p handler mws) t g = Some (t', inl l) →
    concat (middlewares <$> chainAt t' (g ++ l))
    = concat (middlewares <$> chainAt t (g ++ l)) ++ mws.
Proof.
  induction g as [|s g IH]; intros t t' l H.
  - injection H as H. by apply (addRoute_chain _ _ _ _ _ _ _ H).
  - cbn in H. destruct (child t s) as [c|] eqn:Hc; [|done].
    destruct (callAt _ c g) as [[c' r']|] eqn:Hcall; [|done].
    injection H as <- ->. cbn [app chainAt]. rewrite Hc, child_attach.
    + cbn. rewrite middlewares_attach, (IH _ _ _ Hcall).
      by rewrite app_assoc.
    + intros i ->. cbn in Hc. apply lookup_lt_Some in Hc. lia.
Qed.

Lemma chainAt_Use d mws l :
  tail (chainAt (Use d mws) l) = tail (chainAt d l).
Proof. destruct l as [|s l]; [done|]. by destruct s. Qed.

Lemma leads_consumed n p l : leads n p l → consumed p = true → l = [].
Proof. destruct 1; [done|congruence]. Qed.

Lemma leads_samePath n a b l : samePath a b → leads n b l → leads n a l.
Proof.
  intros [->|[[Ha Hb]|[-> Hb]]] H; [done| |].
  - rewrite (leads_consumed _ _ _ H Hb). by apply leads_end.
  - destruct b as [|c s].
    + rewrite (leads_consumed _ _ _ H eq_refl). by apply leads_end.
    + cbn in Hb. inversion H as [? ? Hc|? ? segment remaining i x k Hc Hseg Hs Hk];
        subst.
      * apply consumed_iff in Hc as [?| [= -> ->]]; done.
      * eapply leads_segment; [done| |exact Hs|exact Hk].
        rewrite <- Hseg. change (stripSlash ("/" +:+ String c s)) with (String c s).
        cbn [stripSlash]. by rewrite Hb.
Qed.

Lemma leads_app p :
  ∀ n prefix g, leads n prefix g →
    junction prefix p →
    ∀ d l, nodeAt n g = Some d → leads d p l →
      leads n (prefix +:+ p) (g ++ l).
Proof.
  induction 1 as [n prefix Hc|n prefix segment remaining i c g Hc Hseg Hs Hl IH];
    intros Hj d l Hd Hdl.
  - injection Hd as ->. cbn [app].
    apply (leads_samePath _ _ p); [by apply junction_consumed|done].
  - destruct (getPathSegment_junction prefix p segment remaining Hc Hj Hseg)
      as (Hj' & remaining' & Hseg' & Hsame).
    pose proof Hs as (Hi & _)%scanStatic_Some.
    cbn in Hd. rewrite Hi in Hd.
    specialize (IH Hj' d l Hd Hdl).
    cbn [app]. eapply leads_segment;
      [by apply consumed_app|exact Hseg'|exact Hs|].
    by apply (leads_samePath _ _ (remaining +:+ p)).
Qed.

(** X18. The middleware of a group comes before the middleware of its
    routes.  [Group] makes a group for a static prefix with middleware
    [gmws], [Use] on the group node attaches more middleware [umws], and a
    static path [p] is registered on the group node with middleware [mws];
    all three calls succeed, and prefix and path meet with one slash
    between them (one of them is empty, or exactly one of: the prefix ends
    with a slash, [p] begins with one).  Then the lookup of [prefix + p]
    returns the handler with this chain: the middleware on the way from the
    root to the group node as it was before the group was made, then
    [gmws], then [umws], then the middleware that the nodes below the group
    node on the way had before, then [mws].  Without the one slash the
    lookup can fail: with the prefix [/api/] and the path [/status],
    [/api//status] is not found. *)
Theorem group_middleware_precedes t prefix gmws t1 g umws t1u
    method p handler mws t2 l :
  allStatic prefix → allStatic p → junction prefix p →
  Group t prefix gmws = (t1, inl g) →
  callAt (λ n, (Use n umws, ())) t1 g = Some (t1u, ()) →
  callAt (λ n, addRoute n method p handler mws) t1u g = Some (t2, inl l) →
  (∃ d, nodeAt t1 g = Some d ∧
     Find t2 method (prefix +:+ p)
     = inl {| Method := method; Path := prefix +:+ p; Handler := handler;
              Middlewares :=
                concat (middlewares <$> chainAt t g) ++ gmws ++ umws
                ++ concat (middlewares <$> tail (chainAt d l)) ++ mws;
              PathParams := ∅ |})
  ∧ ((λ t, Find t "GET" "/api//status")
       <$> viaGroup newRoot "/api/" "GET" "/status" (Func "h") [])
    = Some (inr (NewRouteError "GET" "/api//status" ErrRouteNotFound)).
Proof.
  intros Hpre Hp Hj HG HU HR. split; [|by vm_compute].
  unfold Group, RouteOn in HG.
  destruct (addRoute t "" prefix NilFunc gmws) as [t1' [g'|e]] eqn:HA;
    [|done].
  injection HG as -> ->.
  pose proof (addRoute_leads _ _ _ _ _ _ _ Hpre HA) as Hl1.
  pose proof (addRoute_chain _ _ _ _ _ _ _ HA) as Hch1.
  destruct (callAt_nodeAt _ _ _ _ _ HU) as (d & Hd & _ & Hdu).
  cbn [fst] in Hdu.
  assert (leads t1u prefix g) as Hl1u.
  { eapply (callAt_leads_kept (λ n, (Use n umws, ()))); [|exact HU|exact Hl1].
    intros n. split; [done|]. intros q k. by apply leads_static_eq. }
  pose proof (callAt_chain (λ n, (Use n umws, ())) umws
                (λ n, eq_refl) _ _ _ _ HU) as Hch1u.
  destruct (callAt_nodeAt _ _ _ _ _ HR) as (du & Hdu' & Hr & Hd2).
  rewrite Hdu in Hdu'. injection Hdu' as <-.
  destruct (addRoute (Use d umws) method p handler mws) as [d2 r] eqn:HA2.
  cbn [fst snd] in Hr, Hd2. subst r.
  assert (leads t2 prefix g) as Hl2.
  { eapply (callAt_leads_kept (λ n, addRoute n method p handler mws));
      [|exact HR|exact Hl1u].
    intros n. split; [apply addRoute_path|]. apply addRoute_leads_kept. }
  pose proof (addRoute_leads _ _ _ _ _ _ _ Hp HA2) as Hld.
  destruct (addRoute_destination _ _ _ _ _ _ _ HA2) as (e & He & Hh).
  pose proof (leads_app p _ _ _ Hl2 Hj _ _ Hd2 Hld) as Hlead.
  assert (nodeAt t2 (g ++ l) = Some e) as Hnode.
  { by rewrite (nodeAt_app _ _ _ _ Hd2). }
  exists d. split; [done|]. unfold Find.
  rewrite (find_leads _ _ _ Hlead e _ _ _ Hnode), Hh. cbn [app].
  rewrite (callAt_addRoute_chain _ _ _ _ _ _ _ _ HR).
  rewrite (chainAt_app _ _ _ _ Hdu), chainAt_Use, Hch1u, Hch1.
  by rewrite <- !app_assoc.
Qed.

(** The group [/api] with the middleware [auth], then [log] attached with
    [Use], then [GET /status] with the middleware [json] on the group. *)
Lemma group_middleware_precedes_witness :
  (∃ d, nodeAt groupMade [InStatic 0] = Some d ∧
     Find groupTree "GET" "/api/status"
     = inl {| Method := "GET"; Path := "/api/status";
              Handler := Func "status";
              Middlewares :=
                concat (middlewares <$> chainAt newRoot [InStatic 0])
                ++ [Mw "auth"] ++ [Mw "log"]
                ++ concat (middlewares <$> tail (chainAt d [InStatic 0]))
                ++ [Mw "json"];
              PathParams := ∅ |})
  ∧ ((λ t, Find t "GET" "/api//status")
       <$> viaGroup newRoot "/api/" "GET" "/status" (Func "h") [])
    = Some (inr (NewRouteError "GET" "/api//status" ErrRouteNotFound)).
Proof.
  apply (group_middleware_precedes newRoot "/api" [Mw "auth"] groupMade
           [InStatic 0] [Mw "log"] groupUsed "GET" "/status" (Func "status")
           [Mw "json"] groupTree [InStatic 0]).
  - eapply (allStatic_segment _ "api" "");
      [reflexivity|reflexivity|reflexivity|].
    by apply allStatic_end.
  - eapply (allStatic_segment _ "status" "");
      [reflexivity|reflexivity|reflexivity|].
    by apply allStatic_end.
  - right. right. discriminate.
  - vm_compute; reflexivity.
  - vm_compute; reflexivity.
  - vm_compute; reflexivity.
Defined.

(** ** What a registration through the engine guarantees *)

Lemma addRoute_exists_leads method handler mws p :
  allStatic p →
  ∀ n n' e, addRoute n method p handler mws = (n', inr e) →
    ∃ l d h0, leads n p l ∧ nodeAt n l = Some d
              ∧ handlers d !! method = Some h0.
Proof.
  induction 1 as [p Hc|p segment remaining Hc Hseg Hk _ IH]; intros n n' e.
  - rewrite addRoute_eq, Hc. unfold bindHandler.
    destruct (handlers n !! method) as [h0|] eqn:Hh; [|done]. intros _.
    exists [], n, h0. split; [by apply leads_end|done].
  - rewrite addRoute_eq, Hc, Hseg.
    destruct (descend n segment) as [c s] eqn:Hd.
    destruct (addRoute c method remaining handler mws) as [c' r] eqn:Hcall.
    intros [= _ Hr]. destruct r as [l'|e']; [done|].
    revert Hd. unfold descend.
    destruct (getRouteTypeFromSegment segment) as [rt nm]. cbn in Hk. subst rt.
    destruct (scanStatic segment (static n)) as [[i c0]|] eqn:Hs.
    + intros [= -> <-].
      destruct (IH _ _ _ Hcall) as (l & d & h0 & Hl & Hd & Hh).
      exists (InStatic i :: l), d, h0. split; [by eapply leads_segment|].
      apply scanStatic_Some in Hs as (Hi & _). cbn. by rewrite Hi.
    + intros [= <- _].
      destruct (addRoute_fresh method handler mws
                  (NewRouteNode segment RouteTypeStatic "") remaining)
        as (l & Hl); [done|].
      by rewrite Hcall in Hl.
Qed.

Lemma addRoute_served method h p routes :
  allStatic p →
  Engine.ServeHTTP (addRoute routes method p (Func h) []).1 method p
  = Engine.Call h ∅
  ∨ ((addRoute routes method p (Func h) []).1 = routes
     ∧ ∃ route, Find routes method p = inl route ∧ PathParams route = ∅).
Proof.
  intros Hp.
  destruct (addRoute routes method p (Func h) []) as [t' [l|e]] eqn:H;
    cbn [fst].
  - left.
    pose proof (addRoute_leads _ _ _ _ _ _ _ Hp H) as Hl.
    destruct (addRoute_destination _ _ _ _ _ _ _ H) as (d & Hd & Hh).
    unfold Engine.ServeHTTP, Find.
    by rewrite (find_leads _ _ _ Hl d _ _ _ Hd), Hh.
  - right. pose proof (addRoute_error _ _ _ _ _ _ _ H) as [-> _].
    split; [done|].
    destruct (addRoute_exists_leads _ _ _ _ Hp _ _ _ H)
      as (l & d & h0 & Hl & Hd & Hh).
    unfold Find. rewrite (find_leads _ _ _ Hl d _ _ _ Hd), Hh.
    by eexists.
Qed.

(** X19. A registration through the engine makes a static path served.
    After [e.GET(p, h)] for a path [p] of static segments, on any tree, a
    GET request for [p] is not answered with 404: either [h] is called, with
    no path parameters, or the registration was refused, the tree is as it
    was, and the lookup finds the route that was there before, with no path
    parameters.  The same holds for [POST], [PUT], [DELETE] and [PATCH],
    each with its own method. *)
Theorem Engine_registration_served routes p h :
  allStatic p →
  Forall (λ '(method, register),
            Engine.ServeHTTP (register routes p (Func h)) method p
            = Engine.Call h ∅
            ∨ (register routes p (Func h) = routes
               ∧ ∃ route, Find routes method p = inl route
                          ∧ PathParams route = ∅))
    [("GET", Engine.GET); ("POST", Engine.POST); ("PUT", Engine.PUT);
     ("DELETE", Engine.DELETE); ("PATCH", Engine.PATCH)].
Proof.
  intros Hp.
  assert (∀ method n,
    (match RouteOn n method p (Func h) [] with
     | (n', inl _) => (n', None)
     | (n', inr e) => (n', Some e)
     end).1 = (addRoute n method p (Func h) []).1) as HR.
  { intros method n. unfold RouteOn.
    by destruct (addRoute n method p (Func h) []) as [n' [l|e]]. }
  repeat (apply List.Forall_cons;
    [unfold Engine.GET, Engine.POST, Engine.PUT, Engine.DELETE, Engine.PATCH,
       GET, POST, PUT, DELETE, PATCH;
     rewrite HR; by apply addRoute_served|]).
  apply List.Forall_nil.
Qed.

(** [/health] on a new engine. *)
Lemma Engine_registration_served_witness :
  Forall (λ '(method, register),
            Engine.ServeHTTP (register newRoot "/health" (Func "health"))
              method "/health"
            = Engine.Call "health" ∅
            ∨ (register newRoot "/health" (Func "health") = newRoot
               ∧ ∃ route, Find newRoot method "/health" = inl route
                          ∧ PathParams route = ∅))
    [("GET", Engine.GET); ("POST", Engine.POST); ("PUT", Engine.PUT);
     ("DELETE", Engine.DELETE); ("PATCH", Engine.PATCH)].
Proof.
  apply (Engine_registration_served newRoot "/health" "health").
  eapply (allStatic_segment _ "health" "");
    [reflexivity|reflexivity|reflexivity|].
  by apply allStatic_end.
Defined.

(** ** Registrations for other methods *)

Lemma find_success_any n : ∀ anc1 anc2 method p r1 r2,
  (find n anc1 method p r1).1 = (find n anc2 method p r2).1.
Proof.
  induction n as [n IHs IHp IHw] using RouteNode_ind.
  intros anc1 anc2 method p r1 r2. rewrite !find_eq.
  destruct (consumed p).
  { by destruct (handlers n !! method). }
  destruct (getPathSegment (stripSlash p)) as [segment remaining].
  destruct (scanStatic segment (static n)) as [[i c]|] eqn:Hs.
  { apply scanStatic_elem in Hs. rewrite Forall_forall in IHs. by apply IHs. }
  rewrite !afterStatic_eq. cbv zeta.
  assert (∀ a b,
    (match wildcard n with
     | Some w => find w (anc1 ++ [n]) method ""
                   (bound a (paramName w) (segment +:+ remaining))
     | None => (Some ErrRouteNotFound, a)
     end).1
    = (match wildcard n with
       | Some w => find w (anc2 ++ [n]) method ""
                     (bound b (paramName w) (segment +:+ remaining))
       | None => (Some ErrRouteNotFound, b)
       end).1) as Hwild.
  { intros a b. destruct (wildcard n) as [w|]; [|done]. cbn in IHw.
    apply IHw. }
  destruct (param n) as [c|]; [|by apply Hwild]. cbn in IHp.
  specialize (IHp (anc1 ++ [n]) (anc2 ++ [n]) method remaining
                (bound r1 (paramName c) segment) (bound r2 (paramName c) segment)).
  destruct (find c (anc1 ++ [n]) _ _ _) as [[e1|] a],
           (find c (anc2 ++ [n]) _ _ _) as [[e2|] b]; cbn in IHp;
    try discriminate; [|done].
  apply Hwild.
Qed.

Lemma succeeds_iff method n p anc route :
  succeeds method n p ↔ (find n anc method p route).1 = None.
Proof.
  unfold succeeds.
  by rewrite (find_success_any n [] anc method p (newRoute method p) route).
Qed.

Lemma fresh_not_found method c p : fresh c → ¬ succeeds method c p.
Proof.
  intros (Hh & Hs & Hp & Hw). unfold succeeds. rewrite find_eq.
  destruct (consumed p).
  { by rewrite Hh, lookup_empty. }
  destruct (getPathSegment (stripSlash p)) as [segment remaining].
  rewrite Hs. cbn [scanStatic]. rewrite afterStatic_eq, Hp, Hw. done.
Qed.

(** One step of the lookup, compared in two nodes. *)
Lemma atMost_node method n1 n :
  (is_Some (handlers n1 !! method) → is_Some (handlers n !! method)) →
  (∀ segment,
     match scanStatic segment (static n1) with
     | Some (_, x) =>
         ∀ q, succeeds method x q →
           ∃ j y, scanStatic segment (static n) = Some (j, y)
                  ∧ succeeds method y q
     | None => scanStatic segment (static n) = None
     end) →
  (∀ x q, param n1 = Some x → succeeds method x q →
     ∃ y, param n = Some y ∧ succeeds method y q) →
  (∀ x q, wildcard n1 = Some x → succeeds method x q →
     ∃ y, wildcard n = Some y ∧ succeeds method y q) →
  atMost method n1 n.
Proof.
  intros Hh Hst Hpa Hwi p. unfold succeeds at 1 2. rewrite !find_eq.
  destruct (consumed p).
  { destruct (handlers n1 !! method) as [h1|]; [|done]. intros _.
    destruct (Hh (mk_is_Some _ _ eq_refl)) as [h ->]. done. }
  destruct (getPathSegment (stripSlash p)) as [segment remaining].
  specialize (Hst segment).
  destruct (scanStatic segment (static n1)) as [[i x]|].
  { intros H%succeeds_iff.
    destruct (Hst _ H) as (j & y & -> & Hy). by apply succeeds_iff. }
  rewrite Hst, !afterStatic_eq. cbv zeta.
  set (r := newRoute method p).
  assert (∀ a b,
    (match wildcard n1 with
     | Some w => find w ([] ++ [n1]) method ""
                   (bound a (paramName w) (segment +:+ remaining))
     | None => (Some ErrRouteNotFound, a)
     end).1 = None →
    (match wildcard n with
     | Some w => find w ([] ++ [n]) method ""
                   (bound b (paramName w) (segment +:+ remaining))
     | None => (Some ErrRouteNotFound, b)
     end).1 = None) as Hwild.
  { intros a b. destruct (wildcard n1) as [w1|]; [|done].
    intros H%succeeds_iff.
    destruct (Hwi _ _ eq_refl H) as (w & -> & Hw). by apply succeeds_iff. }
  assert (∀ a,
    (match wildcard n1 with
     | Some w => find w ([] ++ [n1]) method ""
                   (bound a (paramName w) (segment +:+ remaining))
     | None => (Some ErrRouteNotFound, a)
     end).1 = None →
    (match param n with
     | Some c =>
         match find c ([] ++ [n]) method remaining
                 (bound r (paramName c) segment) with
         | (None, result) => (None, result)
         | (Some _, r0) =>
             match wildcard n with
             | Some w => find w ([] ++ [n]) method ""
                           (bound (setPathParams r0 ∅) (paramName w)
                              (segment +:+ remaining))
             | None => (Some ErrRouteNotFound, setPathParams r0 ∅)
             end
         end
     | None =>
         match wildcard n with
         | Some w => find w ([] ++ [n]) method ""
                       (bound r (paramName w) (segment +:+ remaining))
         | None => (Some ErrRouteNotFound, r)
         end
     end).1 = None) as Hright.
  { intros a Ha. destruct (param n) as [c|]; [|by eapply Hwild].
    destruct (find c _ _ _ _) as [[e|] b]; [|done]. by eapply Hwild. }
  destruct (param n1) as [c1|] eqn:Hc1; [|by apply Hright].
  destruct (find c1 ([] ++ [n1]) method remaining _) as [[e|] a] eqn:Hf;
    [by apply Hright|].
  intros _.
  assert (succeeds method c1 remaining) as Hs.
  { eapply succeeds_iff. by rewrite Hf. }
  destruct (Hpa _ _ eq_refl Hs) as (c & -> & Hc).
  apply (succeeds_iff _ _ _ ([] ++ [n]) (bound r (paramName c) segment)) in Hc.
  by destruct (find c _ _ _ _) as [[e|] b].
Qed.

Lemma atMost_same_children method n1 n :
  (is_Some (handlers n1 !! method) → is_Some (handlers n !! method)) →
  static n1 = static n → param n1 = param n → wildcard n1 = wildcard n →
  atMost method n1 n.
Proof.
  intros Hh Hs Hp Hw. apply atMost_node; [done|..].
  - intros segment. rewrite Hs.
    destruct (scanStatic segment (static n)) as [[i x]|]; [|done].
    intros q Hq. by exists i, x.
  - intros x q Hx Hq. exists x. by rewrite <- Hp.
  - intros x q Hx Hq. exists x. by rewrite <- Hw.
Qed.

Lemma scanStatic_replace segment c c' : ∀ l i,
  l !! i = Some c → path c' = path c →
  scanStatic segment (<[i := c']> l)
  = match scanStatic segment l with
    | Some (j, x) => Some (j, if decide (j = i) then c' else x)
    | None => None
    end.
Proof.
  intros l i Hi Hp.
  destruct (scanStatic segment l) as [[j x]|] eqn:Hs.
  - destruct (decide (j = i)) as [->|Hne].
    + pose proof Hs as (Hj & _)%scanStatic_Some.
      assert (x = c) as -> by congruence.
      by apply (scanStatic_insert _ _ _ c).
    + by apply (scanStatic_insert_other _ _ _ _ _ c).
  - apply scanStatic_None. intros y Hy.
    rewrite scanStatic_None in Hs.
    apply list_elem_of_lookup_1 in Hy as [k Hk].
    destruct (decide (k = i)) as [->|Hne].
    + rewrite list_lookup_insert_eq in Hk by (by eapply lookup_lt_Some).
      injection Hk as <-. rewrite Hp. apply Hs.
      by eapply list_elem_of_lookup_2.
    + rewrite list_lookup_insert_ne in Hk by done.
      apply Hs. by eapply list_elem_of_lookup_2.
Qed.

Lemma scanStatic_snoc_other segment l c' :
  scanStatic segment l = None → path c' ≠ segment →
  scanStatic segment (l ++ [c']) = None.
Proof.
  rewrite !scanStatic_None. intros H Hp y [Hy|Hy]%elem_of_app.
  - by apply H.
  - apply list_elem_of_singleton in Hy as ->. done.
Qed.

Lemma atMost_attach method n s c' :
  (∀ i, s = InStatic i → i ≤ length (static n)) →
  (∀ c, child n s = Some c → path c' = path c ∧ atMost method c' c) →
  (child n s = None → ∀ q, ¬ succeeds method c' q) →
  atMost method (attach n s c') n.
Proof.
  intros Hi Hold Hnew. apply atMost_node.
  - by rewrite handlers_attach.
  - intros segment. destruct s as [i| |]; cycle 1.
    + cbn [attach static setParam].
      destruct (scanStatic segment (static n)) as [[j x]|]; [|done].
      intros q Hq. by exists j, x.
    + cbn [attach static setWildcard].
      destruct (scanStatic segment (static n)) as [[j x]|]; [|done].
      intros q Hq. by exists j, x.
    + specialize (Hi i eq_refl). cbn [attach].
      destruct (decide (i < length (static n))) as [Hlt|Hge].
      * destruct (lookup_lt_is_Some_2 _ _ Hlt) as [c Hc].
        destruct (Hold c Hc) as [Hp Hle].
        cbn [static setStatic].
        rewrite (scanStatic_replace segment c c' _ _ Hc Hp).
        destruct (scanStatic segment (static n)) as [[j x]|] eqn:Hs; [|done].
        intros q Hq. exists j, x. split; [done|].
        destruct (decide (j = i)) as [->|]; [|done].
        apply scanStatic_Some in Hs as (Hj & _).
        assert (x = c) as -> by congruence. by apply Hle.
      * assert (i = length (static n)) as -> by lia.
        assert (child n (InStatic (length (static n))) = None) as Hnone.
        { cbn. apply lookup_ge_None. lia. }
        specialize (Hnew Hnone). cbn [static setStatic].
        destruct (scanStatic segment (static n)) as [[j x]|] eqn:Hs.
        -- rewrite (scanStatic_app_l _ _ _ _ _ Hs).
           intros q Hq. by exists j, x.
        -- destruct (decide (path c' = segment)) as [Hp|Hp].
           ++ rewrite (scanStatic_snoc _ _ _ Hs Hp).
              intros q Hq. by destruct (Hnew q).
           ++ by rewrite (scanStatic_snoc_other _ _ _ Hs Hp).
  - intros x q Hx Hq. destruct s as [i| |].
    + exists x. split; [|done]. rewrite <- Hx. cbn [attach].
      by destruct (decide (i < length (static n))).
    + cbn in Hx. injection Hx as <-.
      destruct (param n) as [c|] eqn:Hc.
      * exists c. split; [done|]. by apply (Hold c Hc).
      * by destruct (Hnew Hc q).
    + exists x. by rewrite <- Hx.
  - intros x q Hx Hq. destruct s as [i| |].
    + exists x. split; [|done]. rewrite <- Hx. cbn [attach].
      by destruct (decide (i < length (static n))).
    + exists x. by rewrite <- Hx.
    + cbn in Hx. injection Hx as <-.
      destruct (wildcard n) as [c|] eqn:Hc.
      * exists c. split; [done|]. by apply (Hold c Hc).
      * by destruct (Hnew Hc q).
Qed.

Lemma addRoute_atMost other method handler mws :
  other ≠ method →
  ∀ n p, atMost method (addRoute n other p handler mws).1 n.
Proof.
  intros Hne. apply (addRoute_induction other handler mws
    (λ n p res, atMost method res.1 n)).
  - intros n p _. unfold bindHandler.
    destruct (handlers n !! other); cbn [fst]; [by intros q Hq|].
    apply atMost_same_children; [|done..].
    cbn [handlers setHandlers setMiddlewares].
    by rewrite lookup_insert_ne.
  - intros n p segment remaining c s c' r _ _ Hd Hcall IH. cbn [fst] in *.
    assert (path c' = path c) as Hpath.
    { change c' with (c', r).1. rewrite <- Hcall. apply addRoute_path. }
    apply atMost_attach; [by eapply descend_link|..].
    + intros c0 Hc0.
      destruct (descend_cases _ _ _ _ Hd) as [Hc|(Hc & _)]; [|congruence].
      assert (c0 = c) as -> by congruence. done.
    + intros Hnone q Hq.
      destruct (descend_cases _ _ _ _ Hd) as [Hc|(_ & Hf & _)]; [congruence|].
      by apply (fresh_not_found method c q Hf), IH.
Qed.

Lemma callAt_atMost {R} method (f : RouteNode → RouteNode * R) :
  (∀ n, path (f n).1 = path n ∧ atMost method (f n).1 n) →
  ∀ l t t' r, callAt f t l = Some (t', r) →
    path t' = path t ∧ atMost method t' t.
Proof.
  intros Hf. induction l as [|s l IH]; intros t t' r H.
  - injection H as H. specialize (Hf t). by rewrite H in Hf.
  - cbn in H. destruct (child t s) as [c|] eqn:Hc; [|done].
    destruct (callAt f c l) as [[c' r']|] eqn:Hcall; [|done].
    injection H as <- <-. split; [apply path_attach|].
    apply atMost_attach.
    + intros i ->. cbn in Hc. apply lookup_lt_Some in Hc. lia.
    + intros c0 Hc0. assert (c0 = c) as -> by congruence.
      by eapply IH.
    + congruence.
Qed.

Lemma registrationsBut_atMost method t t' :
  registrationsBut method t t' → atMost method t' t.
Proof.
  induction 1 as [t|t t1 l other p handler mws t2 r _ IH Hne H
                  |t t1 l mws t2 _ IH H].
  - by intros q Hq.
  - intros q Hq. apply IH.
    eapply (callAt_atMost method (λ n, addRoute n other p handler mws));
      [|exact H|exact Hq].
    intros n. split; [apply addRoute_path|by apply addRoute_atMost].
  - intros q Hq. apply IH.
    eapply (callAt_atMost method (λ n, (Use n mws, ()))); [|exact H|exact Hq].
    intros n. split; [done|]. by apply atMost_same_children.
Qed.

(** X20. A registration adds no route for another method.  A request that
    is not found stays not found through any registrations for other
    methods and any calls of [Use], on the root or on any node: the lookups
    that succeed for a method can only become fewer.  They can: after
    [GET /users/{id}], the registration of [POST /users/admin] takes
    [GET /users/admin] away from the parameter route. *)
Theorem other_methods_add_no_route method t t' p e :
  registrationsBut method t t' →
  Find t method p = inr e →
  Find t' method p = inr e
  ∧ (∃ route, Find usersTree "GET" "/users/admin" = inl route)
  ∧ Find shadowedTree "GET" "/users/admin"
    = inr (NewRouteError "GET" "/users/admin" ErrRouteNotFound).
Proof.
  intros Hreg H. split; [|split; [by eexists|done]].
  apply registrationsBut_atMost in Hreg. specialize (Hreg p).
  unfold succeeds, Find in *.
  destruct (find t [] method p _) as [[e0|] r] eqn:Hf; [|done].
  injection H as <-.
  destruct (find t' [] method p _) as [[e1|] r'] eqn:Hf'.
  - pose proof (find_error _ _ _ _ _ _ _ Hf) as ->.
    by pose proof (find_error _ _ _ _ _ _ _ Hf') as ->.
  - cbn in Hreg. by specialize (Hreg eq_refl).
Qed.

(** [GET /users/42] is not found on a new engine, and not after
    [POST /users/{id}]. *)
Lemma other_methods_add_no_route_witness :
  Find (POST newRoot "/users/{id}" (Func "create") []).1 "GET" "/users/42"
  = inr (NewRouteError "GET" "/users/42" ErrRouteNotFound)
  ∧ (∃ route, Find usersTree "GET" "/users/admin" = inl route)
  ∧ Find shadowedTree "GET" "/users/admin"
    = inr (NewRouteError "GET" "/users/admin" ErrRouteNotFound).
Proof.
  apply (other_methods_add_no_route "GET" newRoot).
  - eapply (registrationsBut_route "GET" _ _ [] "POST" "/users/{id}"
              (Func "create") []);
      [apply registrationsBut_none|done|reflexivity].
  - reflexivity.
Defined.

(** ** The order of two registrations *)

Lemma Key_eqb_eq a b : Key_eqb a b = true ↔ a = b.
Proof.
  destruct a as [x| |], b as [y| |]; cbn; try (split; congruence).
  rewrite String.eqb_eq. split; congruence.
Qed.

Lemma Key_eqb_refl a : Key_eqb a a = true.
Proof. by apply Key_eqb_eq. Qed.

Lemma Key_eqb_sym a b : Key_eqb a b = Key_eqb b a.
Proof.
  destruct (Key_eqb a b) eqn:E.
  - apply Key_eqb_eq in E as ->. by rewrite Key_eqb_refl.
  - destruct (Key_eqb b a) eqn:E'; [|done].
    apply Key_eqb_eq in E' as ->. by rewrite Key_eqb_refl in E.
Qed.

Lemma sub_child n k c :
  sub n k = Some c → c ∈ static n ∨ param n = Some c ∨ wildcard n = Some c.
Proof.
  destruct k as [text| |]; cbn; [|by right; left|by right; right].
  destruct (scanStatic text (static n)) as [[i x]|] eqn:Hs; [|done].
  intros [= <-]. left. by eapply scanStatic_elem.
Qed.

Lemma similar_refl n : similar n n.
Proof.
  induction n as [n IHs IHp IHw] using RouteNode_ind.
  constructor; [done|done|].
  intros k c1 c2 H1 H2. rewrite H1 in H2. injection H2 as <-.
  destruct (sub_child _ _ _ H1) as [H|[H|H]].
  - rewrite Forall_forall in IHs. by apply IHs.
  - by rewrite H in IHp.
  - by rewrite H in IHw.
Qed.

Lemma similar_trans a b c : similar a b → similar b c → similar a c.
Proof.
  intros H. revert c. induction H as [n1 n2 Hh Hn Hs IH]. intros n3 H23.
  inversion H23 as [? ? Hh' Hn' Hs']; subst.
  constructor.
  - congruence.
  - intros k. rewrite Hn. apply Hn'.
  - intros k c1 c3 H1 H3. destruct (sub n2 k) as [c2|] eqn:E.
    + eapply IH; [exact H1|exact E|]. by eapply Hs'.
    + apply Hn in E. congruence.
Qed.

Lemma similar_ext m1 m2 :
  handlers m1 = handlers m2 → (∀ k, sub m1 k = sub m2 k) → similar m1 m2.
Proof.
  intros Hh H. constructor; [done|intros k; by rewrite H|].
  intros k c1 c2 H1 H2. rewrite H in H1.
  assert (c1 = c2) as -> by congruence. apply similar_refl.
Qed.

Lemma sub_fresh x k : fresh x → sub x k = None.
Proof.
  intros (_ & Hs & Hp & Hw). destruct k; cbn; by rewrite ?Hs, ?Hp, ?Hw.
Qed.

Lemma similar_fresh x y : fresh x → fresh y → similar x y.
Proof.
  intros Hx Hy. constructor.
  - destruct Hx as [-> _], Hy as [-> _]. done.
  - intros k. by rewrite !sub_fresh.
  - intros k c1 c2 H. by rewrite sub_fresh in H.
Qed.

Lemma freshFor_fresh segment : fresh (freshFor segment).
Proof.
  unfold freshFor. destruct (getRouteTypeFromSegment segment) as [rt name].
  by destruct rt.
Qed.

Lemma find_similar n1 n2 :
  similar n1 n2 →
  ∀ anc1 anc2 method q r1 r2,
    Handler r1 = Handler r2 →
    (find n1 anc1 method q r1).1 = (find n2 anc2 method q r2).1
    ∧ Handler (find n1 anc1 method q r1).2
      = Handler (find n2 anc2 method q r2).2.
Proof.
  induction 1 as [n1 n2 Hh Hn Hs IH].
  intros anc1 anc2 method q r1 r2 HR. rewrite !find_eq, Hh.
  destruct (consumed q).
  { by destruct (handlers n2 !! method). }
  destruct (getPathSegment (stripSlash q)) as [segment remaining].
  pose proof (Hn (KStatic segment)) as Hn1.
  pose proof (IH (KStatic segment)) as IH1. cbn [sub] in Hn1, IH1.
  destruct (scanStatic segment (static n1)) as [[i1 c1]|],
           (scanStatic segment (static n2)) as [[i2 c2]|]; cbn in Hn1, IH1.
  - by apply IH1.
  - destruct Hn1 as [_ Hn1]. by specialize (Hn1 eq_refl).
  - destruct Hn1 as [Hn1 _]. by specialize (Hn1 eq_refl).
  - clear Hn1 IH1. rewrite !afterStatic_eq. cbv zeta.
    assert (∀ a b, Handler a = Handler b →
      (match wildcard n1 with
       | Some w => find w (anc1 ++ [n1]) method ""
                     (bound a (paramName w) (segment +:+ remaining))
       | None => (Some ErrRouteNotFound, a)
       end).1
      = (match wildcard n2 with
         | Some w => find w (anc2 ++ [n2]) method ""
                       (bound b (paramName w) (segment +:+ remaining))
         | None => (Some ErrRouteNotFound, b)
         end).1
      ∧ Handler
          (match wildcard n1 with
           | Some w => find w (anc1 ++ [n1]) method ""
                         (bound a (paramName w) (segment +:+ remaining))
           | None => (Some ErrRouteNotFound, a)
           end).2
        = Handler
            (match wildcard n2 with
             | Some w => find w (anc2 ++ [n2]) method ""
                           (bound b (paramName w) (segment +:+ remaining))
             | None => (Some ErrRouteNotFound, b)
             end).2) as Hwild.
    { intros a b Hab.
      pose proof (Hn KWildcard) as Hn1.
      pose proof (IH KWildcard) as IH1. cbn [sub] in Hn1, IH1.
      destruct (wildcard n1) as [w1|], (wildcard n2) as [w2|].
      - by apply IH1.
      - destruct Hn1 as [_ Hn1]. by specialize (Hn1 eq_refl).
      - destruct Hn1 as [Hn1 _]. by specialize (Hn1 eq_refl).
      - done. }
    pose proof (Hn KParam) as Hn1.
    pose proof (IH KParam) as IH1. cbn [sub] in Hn1, IH1.
    destruct (param n1) as [c1|], (param n2) as [c2|].
    + destruct (IH1 c1 c2 eq_refl eq_refl (anc1 ++ [n1]) (anc2 ++ [n2]) method
                  remaining (bound r1 (paramName c1) segment)
                  (bound r2 (paramName c2) segment) HR) as [E EH].
      destruct (find c1 _ _ _ _) as [[e1|] a], (find c2 _ _ _ _) as [[e2|] b];
        cbn in E, EH; try discriminate; [|done].
      by apply Hwild.
    + destruct Hn1 as [_ Hn1]. by specialize (Hn1 eq_refl).
    + destruct Hn1 as [Hn1 _]. by specialize (Hn1 eq_refl).
    + by apply Hwild.
Qed.

Lemma descend_sub n segment c s :
  descend n segment = (c, s) →
  c = default (freshFor segment) (sub n (keyOf segment)).
Proof.
  unfold descend, keyOf, freshFor.
  destruct (getRouteTypeFromSegment segment) as [rt name].
  destruct rt; cbn [fst sub];
    try (by intros [= <- _]);
    by destruct (scanStatic segment (static n)) as [[i x]|]; intros [= <- _].
Qed.

Lemma attach_sub_static n segment c i c' :
  match scanStatic segment (static n) with
  | Some (i, c) => (c, InStatic i)
  | None =>
      (NewRouteNode segment RouteTypeStatic "", InStatic (length (static n)))
  end = (c, InStatic i) →
  path c' = path c →
  ∀ k, sub (attach n (InStatic i) c') k
       = if Key_eqb k (KStatic segment) then Some c' else sub n k.
Proof.
  destruct (scanStatic segment (static n)) as [[j x]|] eqn:Hs;
    [intros [= -> ->] Hp k|intros [= <- <-] Hp k].
  - pose proof Hs as (Hi & Hc & _)%scanStatic_Some.
    cbn [attach].
    destruct (decide (i < length (static n))) as [_|Hge];
      [|by apply lookup_lt_Some in Hi].
    destruct k as [text| |]; [|done..]. cbn [sub static setStatic Key_eqb].
    rewrite (scanStatic_replace text c c' _ _ Hi Hp).
    destruct (text =? segment)%string eqn:E.
    + apply String.eqb_eq in E as ->. rewrite Hs. cbn.
      by destruct (decide (i = i)).
    + apply String.eqb_neq in E.
      destruct (scanStatic text (static n)) as [[j x]|] eqn:Ht; [|done].
      cbn. destruct (decide (j = i)) as [->|]; [|done].
      apply scanStatic_Some in Ht as (Hj & Hx & _).
      assert (x = c) as -> by congruence. congruence.
  - cbn [attach]. cbn [path NewRouteNode] in Hp.
    destruct (decide (length (static n) < length (static n))); [lia|].
    destruct k as [text| |]; [|done..]. cbn [sub static setStatic Key_eqb].
    destruct (text =? segment)%string eqn:E.
    + apply String.eqb_eq in E as ->.
      by rewrite (scanStatic_snoc _ _ _ Hs Hp).
    + apply String.eqb_neq in E.
      destruct (scanStatic text (static n)) as [[j x]|] eqn:Ht.
      * by rewrite (scanStatic_app_l _ _ _ _ _ Ht).
      * rewrite scanStatic_snoc_other; [done..|congruence].
Qed.

Lemma attach_sub n segment c s c' :
  descend n segment = (c, s) →
  path c' = path c →
  ∀ k, sub (attach n s c') k
       = if Key_eqb k (keyOf segment) then Some c' else sub n k.
Proof.
  unfold descend, keyOf.
  destruct (getRouteTypeFromSegment segment) as [rt name].
  destruct rt; cbn [fst].
  - intros H. destruct s as [i| |];
      [by apply attach_sub_static
      |by destruct (scanStatic segment (static n)) as [[? ?]|]..].
  - intros H. destruct s as [i| |];
      [by apply attach_sub_static
      |by destruct (scanStatic segment (static n)) as [[? ?]|]..].
  - intros [= _ <-] _ k. by destruct k.
  - intros [= _ <-] _ k. by destruct k.
Qed.

Lemma descend_same n1 n2 segment :
  static n1 = static n2 → param n1 = param n2 → wildcard n1 = wildcard n2 →
  descend n1 segment = descend n2 segment.
Proof. intros Hs Hp Hw. unfold descend. by rewrite Hs, Hp, Hw. Qed.

Lemma similar_update m1 m2 n1 n2 k0 x y :
  handlers m1 = handlers m2 →
  (∀ k, sub m1 k = if Key_eqb k k0 then Some x else sub n1 k) →
  (∀ k, sub m2 k = if Key_eqb k k0 then Some y else sub n2 k) →
  similar n1 n2 → similar x y → similar m1 m2.
Proof.
  intros Hh H1 H2 Hn Hxy. inversion Hn as [? ? _ Hnone Hsome]; subst.
  constructor; [done|..].
  - intros k. rewrite H1, H2. destruct (Key_eqb k k0); [done|apply Hnone].
  - intros k c1 c2. rewrite H1, H2. destruct (Key_eqb k k0).
    + by intros [= <-] [= <-].
    + apply Hsome.
Qed.

Lemma ok_under s r : ok (under s r) = ok r.
Proof. by destruct r. Qed.

Lemma addRoute_similar method handler mws :
  ∀ n1 p n2, similar n1 n2 →
    similar (addRoute n1 method p handler mws).1
            (addRoute n2 method p handler mws).1
    ∧ ok (addRoute n1 method p handler mws).2
      = ok (addRoute n2 method p handler mws).2.
Proof.
  apply (addRoute_induction method handler mws
    (λ n1 p res, ∀ n2, similar n1 n2 →
       similar res.1 (addRoute n2 method p handler mws).1
       ∧ ok res.2 = ok (addRoute n2 method p handler mws).2)).
  - intros n1 p Hc n2 Hsim. rewrite (addRoute_eq n2), Hc.
    unfold bindHandler. inversion Hsim as [? ? Hh Hn Hs]; subst.
    rewrite Hh. destruct (handlers n2 !! method); [done|].
    split; [|done]. cbn [fst]. constructor.
    + cbn [handlers setHandlers setMiddlewares]. by rewrite Hh.
    + intros k. specialize (Hn k). by destruct k.
    + intros k. specialize (Hs k). by destruct k.
  - intros n1 p segment remaining c s c' r Hc Hseg Hd Hcall IH n2 Hsim.
    rewrite (addRoute_eq n2), Hc, Hseg.
    destruct (descend n2 segment) as [c2 s2] eqn:Hd2.
    assert (similar c c2) as Hcc.
    { rewrite (descend_sub _ _ _ _ Hd), (descend_sub _ _ _ _ Hd2).
      inversion Hsim as [? ? _ Hn Hs]; subst.
      specialize (Hn (keyOf segment)). specialize (Hs (keyOf segment)).
      destruct (sub n1 (keyOf segment)) as [x|],
               (sub n2 (keyOf segment)) as [y|]; cbn.
      - by eapply Hs.
      - destruct Hn as [_ Hn]. by specialize (Hn eq_refl).
      - destruct Hn as [Hn _]. by specialize (Hn eq_refl).
      - apply similar_refl. }
    destruct (IH c2 Hcc) as [Hsim' Hok].
    destruct (addRoute c2 method remaining handler mws) as [c2' r2] eqn:Hcall2.
    cbn [fst snd] in *. rewrite !ok_under. split; [|done].
    assert (path c' = path c) as Hp1.
    { change c' with (c', r).1. rewrite <- Hcall. apply addRoute_path. }
    assert (path c2' = path c2) as Hp2.
    { change c2' with (c2', r2).1. rewrite <- Hcall2. apply addRoute_path. }
    eapply (similar_update _ _ n1 n2 (keyOf segment) c' c2').
    + rewrite !handlers_attach. by inversion Hsim.
    + by apply (attach_sub _ _ c).
    + by apply (attach_sub _ _ c2).
    + done.
    + done.
Qed.

Lemma similar_sym a b : similar a b → similar b a.
Proof.
  induction 1 as [n1 n2 Hh Hn Hs IH]. constructor.
  - done.
  - intros k. symmetry. apply Hn.
  - intros k c1 c2 H1 H2. by eapply IH.
Qed.

Lemma addRoute_consumed n method p handler mws :
  consumed p = true →
  addRoute n method p handler mws = bindHandler n method handler mws.
Proof. intros H. by rewrite addRoute_eq, H. Qed.

Lemma addRoute_handlers n method p handler mws :
  consumed p = false →
  handlers (addRoute n method p handler mws).1 = handlers n.
Proof.
  intros H. rewrite addRoute_eq, H.
  destruct (getPathSegment (stripSlash p)) as [segment remaining].
  destruct (descend n segment) as [c s].
  destruct (addRoute c method remaining handler mws) as [c' r].
  apply handlers_attach.
Qed.

Lemma sub_bound n h m k : sub (setHandlers (setMiddlewares n m) h) k = sub n k.
Proof. by destruct k. Qed.

(** A registration that ends at the node and one that goes on below it. *)
Lemma bind_commute mX hX wX mR hR wR n pX pR :
  consumed pX = true → consumed pR = false →
  similar (addRoute (addRoute n mX pX hX wX).1 mR pR hR wR).1
          (addRoute (addRoute n mR pR hR wR).1 mX pX hX wX).1
  ∧ ok (addRoute (addRoute n mR pR hR wR).1 mX pX hX wX).2
    = ok (addRoute n mX pX hX wX).2
  ∧ ok (addRoute (addRoute n mX pX hX wX).1 mR pR hR wR).2
    = ok (addRoute n mR pR hR wR).2.
Proof.
  intros HX HR.
  rewrite (addRoute_consumed n mX pX) by done.
  rewrite (addRoute_consumed _ mX pX) by done.
  unfold bindHandler. rewrite (addRoute_handlers _ _ _ _ _ HR).
  destruct (handlers n !! mX) eqn:HA; cbn [fst snd ok].
  { split; [apply similar_refl|done]. }
  set (nX := setHandlers (setMiddlewares n (middlewares n ++ wX))
               (<[mX:=hX]> (handlers (setMiddlewares n (middlewares n ++ wX))))).
  rewrite (addRoute_eq nX mR pR), (addRoute_eq n mR pR), HR.
  destruct (getPathSegment (stripSlash pR)) as [segment remaining].
  assert (descend nX segment = descend n segment) as Hsame
    by by apply descend_same.
  rewrite Hsame.
  destruct (descend n segment) as [c s] eqn:Hd.
  destruct (addRoute c mR remaining hR wR) as [c' r] eqn:Hcall.
  cbn [fst snd]. split; [|done].
  assert (path c' = path c) as Hp.
  { change c' with (c', r).1. rewrite <- Hcall. apply addRoute_path. }
  apply similar_ext.
  - rewrite handlers_attach. cbn [handlers setHandlers setMiddlewares].
    by rewrite handlers_attach.
  - intros k. rewrite sub_bound.
    rewrite (attach_sub nX segment c s c') by done.
    rewrite (attach_sub n segment c s c') by done.
    unfold nX. by rewrite sub_bound.
Qed.

(** Two registrations that end at the node. *)
Lemma bind_bind mA hA wA mB hB wB n pA pB :
  consumed pA = true → consumed pB = true →
  ok (addRoute n mA pA hA wA).2 = true →
  ok (addRoute (addRoute n mA pA hA wA).1 mB pB hB wB).2 = true →
  similar (addRoute (addRoute n mA pA hA wA).1 mB pB hB wB).1
          (addRoute (addRoute n mB pB hB wB).1 mA pA hA wA).1
  ∧ ok (addRoute n mB pB hB wB).2 = true
  ∧ ok (addRoute (addRoute n mB pB hB wB).1 mA pA hA wA).2 = true.
Proof.
  intros HA HB.
  rewrite (addRoute_consumed n mA pA), (addRoute_consumed n mB pB) by done.
  rewrite (addRoute_consumed _ mA pA), (addRoute_consumed _ mB pB) by done.
  unfold bindHandler.
  destruct (handlers n !! mA) eqn:EA; cbn [fst snd ok]; [done|]. intros _.
  cbn [handlers setHandlers setMiddlewares].
  destruct (decide (mA = mB)) as [->|Hne].
  { by rewrite lookup_insert_eq. }
  rewrite lookup_insert_ne by done.
  destruct (handlers n !! mB) eqn:EB; cbn [fst snd ok]; [done|]. intros _.
  cbn [handlers setHandlers setMiddlewares].
  rewrite lookup_insert_ne by done. rewrite EA. cbn [fst snd ok].
  split; [|done]. apply similar_ext.
  - cbn [handlers setHandlers setMiddlewares]. by apply insert_insert_ne.
  - intros k. by rewrite !sub_bound.
Qed.

Section Commute.
Variables (mA : string) (hA : HandlerFunc) (wA : list MiddlewareFunc).
Variables (mB : string) (hB : HandlerFunc) (wB : list MiddlewareFunc).

Lemma addRoute_commute :
  ∀ n pA pB,
    ok (addRoute n mA pA hA wA).2 = true →
    ok (addRoute (addRoute n mA pA hA wA).1 mB pB hB wB).2 = true →
    similar (addRoute (addRoute n mA pA hA wA).1 mB pB hB wB).1
            (addRoute (addRoute n mB pB hB wB).1 mA pA hA wA).1
    ∧ ok (addRoute n mB pB hB wB).2 = true
    ∧ ok (addRoute (addRoute n mB pB hB wB).1 mA pA hA wA).2 = true.
Proof.
  apply (addRoute_induction mA hA wA
    (λ n pA res, ∀ pB,
       ok res.2 = true →
       ok (addRoute res.1 mB pB hB wB).2 = true →
       similar (addRoute res.1 mB pB hB wB).1
               (addRoute (addRoute n mB pB hB wB).1 mA pA hA wA).1
       ∧ ok (addRoute n mB pB hB wB).2 = true
       ∧ ok (addRoute (addRoute n mB pB hB wB).1 mA pA hA wA).2 = true)).
  - intros n pA HcA pB.
    rewrite <- (addRoute_consumed n mA pA hA wA HcA).
    destruct (consumed pB) eqn:HcB; [by apply bind_bind|].
    intros HokA HokB.
    destruct (bind_commute mA hA wA mB hB wB n pA pB HcA HcB)
      as (Hsim & Hok1 & Hok2).
    split; [done|]. split; congruence.
  - intros n pA segA remA cA sA cA' rA HcA HsegA HdA HcallA IH pB.
    assert ((attach n sA cA', under sA rA) = addRoute n mA pA hA wA) as Hfold.
    { by rewrite (addRoute_eq n mA pA), HcA, HsegA, HdA, HcallA. }
    destruct (consumed pB) eqn:HcB.
    { rewrite Hfold. intros HokA HokB.
      destruct (bind_commute mB hB wB mA hA wA n pB pA HcB HcA)
        as (Hsim & Hok1 & Hok2).
      split; [by apply similar_sym|]. split; congruence. }
    cbn [fst snd]. rewrite ok_under. intros HokA.
    set (nA := attach n sA cA').
    assert (path cA' = path cA) as HpA.
    { change cA' with (cA', rA).1. rewrite <- HcallA. apply addRoute_path. }
    pose proof (attach_sub n segA cA sA cA' HdA HpA) as HsubA. fold nA in HsubA.
    rewrite (addRoute_eq nA mB pB), (addRoute_eq n mB pB), HcB.
    destruct (getPathSegment (stripSlash pB)) as [segB remB].
    destruct (descend nA segB) as [cB0 sB0] eqn:HdB0.
    destruct (addRoute cB0 mB remB hB wB) as [cB0' rB0] eqn:HcallB0.
    destruct (descend n segB) as [cB sB] eqn:HdB.
    destruct (addRoute cB mB remB hB wB) as [cB' rB] eqn:HcallB.
    cbn [fst snd]. rewrite !ok_under. intros HokB0.
    set (nB := attach n sB cB').
    assert (path cB' = path cB) as HpB.
    { change cB' with (cB', rB).1. rewrite <- HcallB. apply addRoute_path. }
    assert (path cB0' = path cB0) as HpB0.
    { change cB0' with (cB0', rB0).1. rewrite <- HcallB0. apply addRoute_path. }
    pose proof (attach_sub n segB cB sB cB' HdB HpB) as HsubB. fold nB in HsubB.
    rewrite (addRoute_eq nB mA pA), HcA, HsegA.
    destruct (descend nB segA) as [cA0 sA0] eqn:HdA0.
    destruct (addRoute cA0 mA remA hA wA) as [cA0' rA0] eqn:HcallA0.
    cbn [fst snd]. rewrite !ok_under.
    assert (path cA0' = path cA0) as HpA0.
    { change cA0' with (cA0', rA0).1. rewrite <- HcallA0. apply addRoute_path. }
    pose proof (attach_sub nA segB cB0 sB0 cB0' HdB0 HpB0) as HsubAB.
    pose proof (attach_sub nB segA cA0 sA0 cA0' HdA0 HpA0) as HsubBA.
    pose proof (descend_sub _ _ _ _ HdA) as EcA.
    pose proof (descend_sub _ _ _ _ HdB) as EcB.
    pose proof (descend_sub _ _ _ _ HdB0) as EcB0.
    pose proof (descend_sub _ _ _ _ HdA0) as EcA0.
    rewrite HsubA in EcB0. rewrite HsubB in EcA0.
    assert (handlers (attach nA sB0 cB0') = handlers (attach nB sA0 cA0'))
      as Hh by (unfold nA, nB; by rewrite !handlers_attach).
    destruct (Key_eqb (keyOf segB) (keyOf segA)) eqn:Hk.
    + (* the same child *)
      apply Key_eqb_eq in Hk. rewrite Hk in *.
      rewrite Key_eqb_refl in EcA0. cbn in EcB0, EcA0. subst cB0 cA0.
      assert (similar cA cB) as Hcc.
      { rewrite EcA, EcB.
        destruct (sub n (keyOf segA)); cbn; [apply similar_refl|].
        apply similar_fresh; apply freshFor_fresh. }
      specialize (IH remB). cbn [fst snd] in IH. specialize (IH HokA).
      rewrite HcallB0 in IH. cbn [fst snd] in IH.
      destruct (IH HokB0) as (Hs1 & Hok1 & Hok2).
      destruct (addRoute_similar mB hB wB cA remB cB Hcc) as [Hs2 Hok3].
      rewrite HcallB in Hs2, Hok3. cbn [fst snd] in Hs2, Hok3.
      destruct (addRoute_similar mA hA wA _ remA _ Hs2) as [Hs3 Hok4].
      rewrite HcallA0 in Hs3, Hok4. cbn [fst snd] in Hs3, Hok4.
      split; [|split; congruence].
      constructor; [done|..].
      * intros k. rewrite HsubAB, HsubBA, HsubA, HsubB.
        by destruct (Key_eqb k (keyOf segA)).
      * intros k c1 c2. rewrite HsubAB, HsubBA, HsubA, HsubB.
        destruct (Key_eqb k (keyOf segA)).
        -- intros [= <-] [= <-]. by eapply similar_trans.
        -- intros H1 H2. assert (c1 = c2) as -> by congruence.
           apply similar_refl.
    + (* two children *)
      rewrite Key_eqb_sym, Hk in EcA0.
      assert (cB0 = cB) as -> by congruence.
      assert (cA0 = cA) as -> by congruence.
      rewrite HcallB in HcallB0. injection HcallB0 as <- <-.
      rewrite HcallA in HcallA0. injection HcallA0 as <- <-.
      split; [|done]. apply similar_ext; [done|].
      intros k. rewrite HsubAB, HsubBA, HsubA, HsubB.
      destruct (Key_eqb k (keyOf segB)) eqn:E1,
               (Key_eqb k (keyOf segA)) eqn:E2; try done.
      apply Key_eqb_eq in E1, E2. subst k. rewrite E2 in Hk.
      by rewrite Key_eqb_refl in Hk.
Qed.

End Commute.

(** X21. The order of two registrations does not change which handler a
    request reaches.  When a registration and then a second one succeed on
    a tree, they also succeed in the other order, and in the two resulting
    trees every lookup, for every method and path, returns the same handler
    or fails alike.  The handler is all that is the same: the names of the
    path parameters follow the first registration that made the parameter
    node, so [/users/42] binds [id] in one order and [uid] in the other
    (and the middleware of a node shared by both follows their order). *)
Theorem registration_order t mA pA hA wA tA lA mB pB hB wB tAB lB :
  addRoute t mA pA hA wA = (tA, inl lA) →
  addRoute tA mB pB hB wB = (tAB, inl lB) →
  (∃ tB lB' tBA lA',
     addRoute t mB pB hB wB = (tB, inl lB')
     ∧ addRoute tB mA pA hA wA = (tBA, inl lA')
     ∧ ∀ method q, sameHandler (Find tAB method q) (Find tBA method q))
  ∧ Find idFirst "GET" "/users/42"
    = inl {| Method := "GET"; Path := "/users/42"; Handler := Func "user";
             Middlewares := []; PathParams := {[ "id" := "42" ]} |}
  ∧ Find uidFirst "GET" "/users/42"
    = inl {| Method := "GET"; Path := "/users/42"; Handler := Func "user";
             Middlewares := []; PathParams := {[ "uid" := "42" ]} |}.
Proof.
  intros HA HB. split; [|by split; vm_compute].
  destruct (addRoute_commute mA hA wA mB hB wB t pA pB) as (Hsim & Hok1 & Hok2).
  { by rewrite HA. }
  { rewrite HA. cbn [fst]. by rewrite HB. }
  rewrite HA in Hsim. cbn [fst] in Hsim. rewrite HB in Hsim. cbn [fst] in Hsim.
  destruct (addRoute t mB pB hB wB) as [tB [lB'|e]] eqn:HB'; [|done].
  cbn [fst] in *.
  destruct (addRoute tB mA pA hA wA) as [tBA [lA'|e]] eqn:HA'; [|done].
  cbn [fst] in *.
  exists tB, lB', tBA, lA'. split; [done|]. split; [done|].
  intros method q. unfold sameHandler, Find.
  destruct (find_similar _ _ Hsim [] [] method q
              {| Method := method; Path := q; Handler := NilFunc;
                 Middlewares := []; PathParams := ∅ |}
              {| Method := method; Path := q; Handler := NilFunc;
                 Middlewares := []; PathParams := ∅ |} eq_refl) as [E EH].
  destruct (find tAB [] method q _) as [[e1|] r1] eqn:H1,
           (find tBA [] method q _) as [[e2|] r2] eqn:H2;
    cbn in E, EH; try discriminate; [|done].
  apply find_error in H1 as ->. by apply find_error in H2 as ->.
Qed.

(** [GET /users/{id}] and [POST /users/admin] on a new engine. *)
Lemma registration_order_witness :
  (∃ tB lB' tBA lA',
     addRoute newRoot "POST" "/users/admin" (Func "create") []
     = (tB, inl lB')
     ∧ addRoute tB "GET" "/users/{id}" (Func "user") [] = (tBA, inl lA')
     ∧ ∀ method q, sameHandler (Find shadowedTree method q)
                               (Find tBA method q))
  ∧ Find idFirst "GET" "/users/42"
    = inl {| Method := "GET"; Path := "/users/42"; Handler := Func "user";
             Middlewares := []; PathParams := {[ "id" := "42" ]} |}
  ∧ Find uidFirst "GET" "/users/42"
    = inl {| Method := "GET"; Path := "/users/42"; Handler := Func "user";
             Middlewares := []; PathParams := {[ "uid" := "42" ]} |}.
Proof.
  apply (registration_order newRoot "GET" "/users/{id}" (Func "user") []
           usersTree [InStatic 0; InParam]
           "POST" "/users/admin" (Func "create") []
           shadowedTree [InStatic 0; InStatic 0]).
  - vm_compute; reflexivity.
  - vm_compute; reflexivity.
Defined.
